(** * Interactive Campus Navigation System: graph model, traversal engine
      and point-to-segment hit test of [apply.py], embedded and verified.

    The Tkinter layer ([App], [EdgeDialog]) only consumes what is modelled
    here; canvas handles ([canvas_id], [text_id], [line_id], [label_id]) are
    presentation data that no modelled function reads, so the records below
    leave them out. *)

From stdpp Require Import gmap strings list fin_maps sorting.
From Stdlib Require Import QArith Lqa.

Local Open Scope string_scope.
Local Open Scope list_scope.
Local Open Scope nat_scope.

(** ** Python's insertion-ordered [dict], as an association list

    [Graph.edges] is iterated ([items()], the comprehension in
    [remove_node]), so the order of insertion is observable.  A dict holds
    every key once: that is the [NoDup] of the keys below, kept as an
    invariant rather than in the type. *)

Section OrderedDict.
Context {K V : Type} `{EqDecision K}.

(** [k in d] *)
Definition dict_mem (k : K) (d : list (K * V)) : bool :=
  bool_decide (k ∈ d.*1).

(** [d.get(k)] *)
Fixpoint dict_get (k : K) (d : list (K * V)) : option V :=
  match d with
  | [] => None
  | (k', v) :: d' => if decide (k = k') then Some v else dict_get k d'
  end.

(** [d[k] = v]: a present key keeps its place, a new key goes last. *)
Fixpoint dict_set (k : K) (v : V) (d : list (K * V)) : list (K * V) :=
  match d with
  | [] => [(k, v)]
  | (k', v') :: d' =>
      if decide (k = k') then (k', v) :: d' else (k', v') :: dict_set k v d'
  end.

(** [del d[k]] *)
Definition dict_del (k : K) (d : list (K * V)) : list (K * V) :=
  filter (λ kv, kv.1 ≠ k) d.
End OrderedDict.

(** ** Nodes and edges *)

Module Node.
Record t : Type := mk { name : string; x : Z; y : Z }.
End Node.

Module Edge.
(** [closed] defaults to [False] in [Edge.__init__]; [Graph.connect]
    never passes it. *)
Record t : Type := mk {
  a : string;
  b : string;
  distance : Q;
  time : Q;
  accessible : bool;
  closed : bool
}.

(** [return self.b if name == self.a else self.a] *)
Definition other (e : t) (name : string) : string :=
  if decide (name = a e) then b e else a e.
End Edge.

(** [frozenset({a, b})], the key of an edge. *)
Definition frozenset2 (a b : string) : gset string := {[a; b]}.

(** The four [raise ValueError(...)] of [Graph], one constructor for each
    message:
    - [DuplicateNameError]: "Duplicate node name '...'"  ([add_node])
    - [MissingEndpointError]: "Both nodes must exist"     ([connect])
    - [SelfLoopError]: "Cannot connect node to itself"    ([connect])
    - [DuplicateEdgeError]: "Edge already exists"         ([connect]) *)
Inductive ValueError : Type :=
  | DuplicateNameError
  | MissingEndpointError
  | SelfLoopError
  | DuplicateEdgeError.

(** ** A state-and-exception monad for the mutating methods

    A method receives the object's state and hands back the state it
    leaves behind together with either its return value or the exception
    it raised; the state that comes with an exception is the one at the
    [raise]. *)

Module Eff.
Section Def.
Context {S : Type}.

Definition m (A : Type) : Type := S → (ValueError + A) * S.

Definition ret {A} (x : A) : m A := λ s, (inr x, s).
Definition raise {A} (e : ValueError) : m A := λ s, (inl e, s).
Definition bind {A B} (c : m A) (k : A → m B) : m B :=
  λ s, match c s with
       | (inl e, s') => (inl e, s')
       | (inr x, s') => k x s'
       end.
Definition get : m S := λ s, (inr s, s).
Definition modify (f : S → S) : m unit := λ s, (inr tt, f s).
(** [if c: raise e] *)
Definition raise_if (c : bool) (e : ValueError) : m unit :=
  if c then raise e else ret tt.

Definition state_after {A} (c : m A) (s : S) : S := (c s).2.
End Def.
End Eff.

Notation "'do' x <- c1 ; c2" := (Eff.bind c1 (λ x, c2))
  (at level 10, x name, c1 at level 100, c2 at level 200,
   format "'[v' 'do'  x  <-  c1 ; '/' c2 ']'").
Notation "c1 >> c2" := (Eff.bind c1 (λ _, c2))
  (at level 100, c2 at level 200, right associativity).

(** ** The graph *)

Module Graph.
Record t : Type := mk {
  nodes : gmap string Node.t;               (* name -> Node *)
  edges : list (gset string * Edge.t)       (* frozenset({a,b}) -> Edge *)
}.

(** [Graph()] *)
Definition empty : t := mk ∅ [].

Definition set_nodes (f : gmap string Node.t → gmap string Node.t) (g : t) : t :=
  mk (f (nodes g)) (edges g).
Definition set_edges
    (f : list (gset string * Edge.t) → list (gset string * Edge.t)) (g : t) : t :=
  mk (nodes g) (f (edges g)).

(** [name in self.nodes] *)
Definition has_node (g : t) (name : string) : bool :=
  bool_decide (is_Some (nodes g !! name)).

Definition add_node (name : string) (x y : Z) : Eff.m (S := t) unit :=
  do g <- Eff.get;
  Eff.raise_if (has_node g name) DuplicateNameError >>
  Eff.modify (set_nodes <[name := Node.mk name x y]>).

Definition remove_node (name : string) : Eff.m (S := t) unit :=
  do g <- Eff.get;
  if negb (has_node g name) then Eff.ret tt else
  let to_remove := filter (λ k : gset string, name ∈ k) (edges g).*1 in
  Eff.modify (set_edges (λ es, foldl (λ d k, dict_del k d) es to_remove)) >>
  Eff.modify (set_nodes (delete name)).

Definition connect (a b : string) (distance time : Q) (accessible : bool)
    : Eff.m (S := t) unit :=
  do g <- Eff.get;
  Eff.raise_if (negb (has_node g a) || negb (has_node g b)) MissingEndpointError >>
  let k := frozenset2 a b in
  Eff.raise_if (bool_decide (a = b)) SelfLoopError >>
  Eff.raise_if (dict_mem k (edges g)) DuplicateEdgeError >>
  Eff.modify (set_edges (dict_set k (Edge.mk a b distance time accessible false))).

Definition disconnect (a b : string) : Eff.m (S := t) unit :=
  do g <- Eff.get;
  let k := frozenset2 a b in
  if dict_mem k (edges g) then Eff.modify (set_edges (dict_del k)) else Eff.ret tt.

(** The loop of [neighbors] over [self.edges.items()]: an entry that
    reaches [res.append] contributes [e.other(name)], the others are
    skipped ([continue], or the failed [name in k]). *)
Fixpoint neighbors_items (name : string) (accessible_only allow_closed : bool)
    (items : list (gset string * Edge.t)) : list string :=
  match items with
  | [] => []
  | (k, e) :: items' =>
      let rest := neighbors_items name accessible_only allow_closed items' in
      if bool_decide (name ∈ k) then
        if Edge.closed e && negb allow_closed then rest
        else if accessible_only && negb (Edge.accessible e) then rest
        else Edge.other e name :: rest
      else rest
  end.

Definition neighbors (g : t) (name : string) (accessible_only allow_closed : bool)
    : list string :=
  neighbors_items name accessible_only allow_closed (edges g).

Definition get_edge (g : t) (a b : string) : option Edge.t :=
  dict_get (frozenset2 a b) (edges g).
End Graph.

(** ** Traversal engine *)

(** [nb_list.sort(reverse=True)].  Python compares [str] by code points,
    which on UTF-8 encoded names is the byte-wise order of [String.leb].
    Under a total order whose equal elements are identical there is one
    sorted arrangement of a list ([sort_desc_unique] below), so the sorting
    algorithm itself does not matter. *)
Definition str_ge (x y : string) : Prop := String.leb y x = true.

#[global] Instance str_ge_dec : RelDecision str_ge.
Proof. intros x y. unfold str_ge. apply _. Defined.

Definition sort_desc (l : list string) : list string := merge_sort str_ge l.

(** What a search returns: [(path or None, visited_order)]. *)
Definition search_result : Type := option (list string) * list string.

(** The [for nb in graph.neighbors(cur, ...)] loop of [bfs]. *)
Fixpoint bfs_expand (cur : string) (nbs : list string)
    (visited : gset string) (parent : gmap string (option string)) (q : list string)
    : gset string * gmap string (option string) * list string :=
  match nbs with
  | [] => (visited, parent, q)
  | nb :: nbs' =>
      if decide (nb ∈ visited) then bfs_expand cur nbs' visited parent q
      else bfs_expand cur nbs' ({[nb]} ∪ visited) (<[nb := Some cur]> parent) (q ++ [nb])
  end.

(** [while n is not None: path.append(n); n = parent[n]].  [None] stands
    for a [KeyError] of [parent[n]] or for spent fuel; [bfs_loop] gives it
    one step for each entry of [parent], and a parent chain is never that
    long ([bfs_depth_bound], [build_path_walk]). *)
Fixpoint build_path (fuel : nat) (parent : gmap string (option string))
    (n : option string) (path : list string) : option (list string) :=
  match n with
  | None => Some path
  | Some m =>
      match fuel with
      | 0 => None
      | S fuel' =>
          match parent !! m with
          | None => None
          | Some n' => build_path fuel' parent n' (path ++ [m])
          end
      end
  end.

(** The [while q:] loop of [bfs]; the deque is a list with its left end
    first.  [None] means the loop did not return within [fuel] rounds (or
    the path could not be built); [bfs_returns] shows that [bfs] never
    ends that way. *)
Fixpoint bfs_loop (fuel : nat) (g : Graph.t) (goal : string)
    (accessible_only allow_closed : bool)
    (visited : gset string) (q : list string)
    (parent : gmap string (option string)) (visited_order : list string)
    : option search_result :=
  match fuel with
  | 0 => None
  | S fuel' =>
      match q with
      | [] => Some (None, visited_order)
      | cur :: q' =>
          let visited_order' := visited_order ++ [cur] in
          if decide (cur = goal) then
            match build_path (size parent) parent (Some cur) [] with
            | Some path => Some (Some (reverse path), visited_order')
            | None => None
            end
          else
            let '(visited', parent', q'') :=
              bfs_expand cur (Graph.neighbors g cur accessible_only allow_closed)
                visited parent q' in
            bfs_loop fuel' g goal accessible_only allow_closed
              visited' q'' parent' visited_order'
      end
  end.

(** Every round of the loop dequeues one name and a name is enqueued once,
    so two rounds for each edge and two more are enough. *)
Definition bfs_fuel (g : Graph.t) : nat := 2 * length (Graph.edges g) + 2.

Definition bfs (g : Graph.t) (start goal : string)
    (accessible_only allow_closed : bool) : option search_result :=
  bfs_loop (bfs_fuel g) g goal accessible_only allow_closed
    {[start]} [start] {[start := None]} [].

(** The [for nb in nb_list] loop of [dfs]; the stack is a list with its
    top first, so [stack.append] is a cons and [stack.pop()] takes the
    head. *)
Fixpoint dfs_push (visited : gset string) (path : list string)
    (nb_list : list string) (stack : list (string * list string))
    : list (string * list string) :=
  match nb_list with
  | [] => stack
  | nb :: nb_list' =>
      if decide (nb ∈ visited) then dfs_push visited path nb_list' stack
      else dfs_push visited path nb_list' ((nb, path ++ [nb]) :: stack)
  end.

Fixpoint dfs_loop (fuel : nat) (g : Graph.t) (goal : string)
    (accessible_only allow_closed : bool)
    (visited : gset string) (stack : list (string * list string))
    (visited_order : list string) : option search_result :=
  match fuel with
  | 0 => None
  | S fuel' =>
      match stack with
      | [] => Some (None, visited_order)
      | (cur, path) :: stack' =>
          if decide (cur ∈ visited) then
            dfs_loop fuel' g goal accessible_only allow_closed
              visited stack' visited_order
          else
            let visited' := {[cur]} ∪ visited in
            let visited_order' := visited_order ++ [cur] in
            if decide (cur = goal) then Some (Some path, visited_order')
            else
              let nb_list :=
                sort_desc (Graph.neighbors g cur accessible_only allow_closed) in
              dfs_loop fuel' g goal accessible_only allow_closed
                visited' (dfs_push visited' path nb_list stack') visited_order'
      end
  end.

(** A name is visited once and a visit pushes at most one entry for each
    edge, which bounds the number of pops. *)
Definition dfs_fuel (g : Graph.t) : nat :=
  let n := length (Graph.edges g) in (2 * n + 1) * (n + 1) + 2.

Definition dfs (g : Graph.t) (start goal : string)
    (accessible_only allow_closed : bool) : option search_result :=
  dfs_loop (dfs_fuel g) g goal accessible_only allow_closed ∅ [(start, [start])] [].

(** ** Geometry helper

    Arithmetic is exact, over the rationals: canvas coordinates and the
    threshold are integers, and Python's [/] is taken as the exact
    quotient. *)

Module Geometry.
Local Open Scope Q_scope.

(** Python's [min(a, b)] and [max(a, b)]: the first argument wins a tie. *)
Definition py_min (a b : Q) : Q := if Qlt_le_dec b a then b else a.
Definition py_max (a b : Q) : Q := if Qlt_le_dec a b then b else a.

Definition point_near_segment (px py x1 y1 x2 y2 threshold : Q) : bool :=
  let dx := x2 - x1 in
  let dy := y2 - y1 in
  if Qeq_bool dx 0 && Qeq_bool dy 0 then
    Qle_bool ((px - x1) ^ 2 + (py - y1) ^ 2) (threshold * threshold)
  else
    let t := ((px - x1) * dx + (py - y1) * dy) / (dx * dx + dy * dy) in
    let t := py_max 0 (py_min 1 t) in
    let projx := x1 + t * dx in
    let projy := y1 + t * dy in
    let dist2 := (px - projx) ^ 2 + (py - projy) ^ 2 in
    Qle_bool dist2 (threshold * threshold).

(** *** The test as section 4.3 of the specification words it *)

Definition point : Type := Q * Q.
Definition vsub (u v : point) : point := (u.1 - v.1, u.2 - v.2).
Definition dot (u v : point) : Q := u.1 * v.1 + u.2 * v.2.
(** the squared length |u|² *)
Definition norm2 (u : point) : Q := dot u u.
(** the point [A + s (B - A)] of the line through [A] and [B] *)
Definition along (A B : point) (s : Q) : point :=
  (A.1 + s * (B.1 - A.1), A.2 + s * (B.2 - A.2)).
Definition coincide (A B : point) : Prop := A.1 == B.1 ∧ A.2 == B.2.
Definition clamp01 (t : Q) : Q :=
  if Qlt_le_dec t 0 then 0 else if Qlt_le_dec 1 t then 1 else t.
(** t = ((P-A)·(B-A)) / |B-A|² *)
Definition projection_param (P A B : point) : Q :=
  dot (vsub P A) (vsub B A) / norm2 (vsub B A).
Definition clamped_projection (P A B : point) : point :=
  along A B (clamp01 (projection_param P A B)).

Definition hit_spec (P A B : point) (T : Q) : Prop :=
  (coincide A B ∧ norm2 (vsub P A) <= T * T) ∨
  (¬ coincide A B ∧ norm2 (vsub P (clamped_projection P A B)) <= T * T).
End Geometry.

(** ** The mutation interface as the application drives it *)

(** [App.toggle_selected_edge_closed] and [App.toggle_selected_edge_accessible]
    past their dialogs: [e = self.graph.get_edge(a, b)], nothing when there is
    no such edge, else the flag of the stored edge object is flipped in
    place. *)
Definition flip_closed (e : Edge.t) : Edge.t :=
  Edge.mk (Edge.a e) (Edge.b e) (Edge.distance e) (Edge.time e)
    (Edge.accessible e) (negb (Edge.closed e)).
Definition flip_accessible (e : Edge.t) : Edge.t :=
  Edge.mk (Edge.a e) (Edge.b e) (Edge.distance e) (Edge.time e)
    (negb (Edge.accessible e)) (Edge.closed e).

Definition toggle_edge (flip : Edge.t → Edge.t) (a b : string) : Eff.m (S := Graph.t) unit :=
  do g <- Eff.get;
  match Graph.get_edge g a b with
  | None => Eff.ret tt
  | Some e => Eff.modify (Graph.set_edges (dict_set (frozenset2 a b) (flip e)))
  end.

(** One request of the user interface to the graph. *)
Inductive Op : Type :=
  | AddNode (name : string) (x y : Z)
  | RemoveNode (name : string)
  | Connect (a b : string) (distance time : Q) (accessible : bool)
  | Disconnect (a b : string).

Definition run_op (o : Op) : Eff.m (S := Graph.t) unit :=
  match o with
  | AddNode name x y => Graph.add_node name x y
  | RemoveNode name => Graph.remove_node name
  | Connect a b distance time accessible => Graph.connect a b distance time accessible
  | Disconnect a b => Graph.disconnect a b
  end.

(** The application catches a [ValueError] and goes on with the graph as
    the failed call left it. *)
Definition run_ops (ops : list Op) (g : Graph.t) : Graph.t :=
  foldl (λ g o, Eff.state_after (run_op o) g) g ops.

(** ** Specification vocabulary *)

(** The edge [e] joins [u] and [v], in either direction. *)
Definition joins (e : Edge.t) (u v : string) : Prop :=
  (Edge.a e = u ∧ Edge.b e = v) ∨ (Edge.a e = v ∧ Edge.b e = u).

(** The edge passes the two filters of a neighbour query. *)
Definition passes (accessible_only allow_closed : bool) (e : Edge.t) : Prop :=
  (Edge.closed e = true → allow_closed = true) ∧
  (accessible_only = true → Edge.accessible e = true).

(** Structural invariants of the graph (section 3 of the specification),
    together with what being a dict means for the edge table: an entry is
    filed under the frozenset of its two endpoints, which are distinct and
    are nodes of the graph, and no key occurs twice. *)
Definition edge_ok (g : Graph.t) (ke : gset string * Edge.t) : Prop :=
  ke.1 = frozenset2 (Edge.a ke.2) (Edge.b ke.2) ∧
  Edge.a ke.2 ≠ Edge.b ke.2 ∧
  is_Some (Graph.nodes g !! Edge.a ke.2) ∧
  is_Some (Graph.nodes g !! Edge.b ke.2).

Definition graph_inv (g : Graph.t) : Prop :=
  NoDup (Graph.edges g).*1 ∧ Forall (edge_ok g) (Graph.edges g).

#[global] Instance edge_ok_dec g ke : Decision (edge_ok g ke).
Proof. unfold edge_ok. apply _. Defined.

#[global] Instance graph_inv_dec g : Decision (graph_inv g).
Proof. unfold graph_inv. apply _. Defined.

(** [v] is offered as a neighbour of [u] under the filters. *)
Definition adjacent (g : Graph.t) (accessible_only allow_closed : bool)
    (u v : string) : Prop :=
  v ∈ Graph.neighbors g u accessible_only allow_closed.

(** [walk R u p v]: the list [p] starts at [u], ends at [v], and each two
    consecutive names of it are related by [R]. *)
Inductive walk (R : string → string → Prop) (u : string) : list string → string → Prop :=
  | walk_start : walk R u [u] u
  | walk_step p v w : walk R u p v → R v w → walk R u (p ++ [w]) w.

(** Number of edges of a path given as its list of nodes. *)
Definition hops (p : list string) : nat := length p - 1.

(** Each entry of [l] other than [start] has an [R]-predecessor that
    occurs before it in [l]. *)
Definition reached_in_order (R : string → string → Prop) (start : string)
    (l : list string) : Prop :=
  ∀ i v, l !! i = Some v →
    v = start ∨ ∃ j u, j < i ∧ l !! j = Some u ∧ R u v.

(** The link between [u] and [v] that a search with [allow_closed = False]
    may follow: the edge stored for the pair is open, and accessible when
    only accessible edges are wanted. *)
Definition open_link (g : Graph.t) (accessible_only : bool) (u v : string) : Prop :=
  ∃ e, Graph.get_edge g u v = Some e ∧ Edge.closed e = false ∧
       (accessible_only = true → Edge.accessible e = true).

(** The names a search can ever meet: [start] and the endpoints of the
    edges. *)
Definition endpoints (g : Graph.t) : list string :=
  Graph.edges g ≫= λ ke, [Edge.a ke.2; Edge.b ke.2].

Definition universe (g : Graph.t) (start : string) : gset string :=
  {[start]} ∪ list_to_set (endpoints g).

(** The stack entry pushed for the neighbour [nb] of the end of [path]. *)
Definition extend (path : list string) (nb : string) : string * list string :=
  (nb, path ++ [nb]).

(** *** The invariant of the breadth-first loop

    [d] is a ghost depth: the number of hops of the parent chain of a
    visited name.  [pending] is [Some (cur, rest)] while the [for] loop
    over the neighbours of the dequeued [cur] still has [rest] to go, and
    [None] between two rounds of the [while] loop. *)

Definition frontier (pending : option (string * list string)) (q : list string)
    : list string :=
  match pending with
  | Some (cur, _) => cur :: q
  | None => q
  end.

Definition deepen (d : string → nat) (nb cur : string) : string → nat :=
  λ x, if decide (x = nb) then S (d cur) else d x.

Record bfs_inv (R : string → string → Prop) (start goal : string)
    (d : string → nat) (pending : option (string * list string))
    (visited : gset string) (q : list string)
    (parent : gmap string (option string)) : Prop := {
  (* the root of the parent tree *)
  bfs_root : start ∈ visited ∧ d start = 0 ∧ parent !! start = Some None;
  (* [parent] has an entry for the visited names and no other *)
  bfs_parent_dom : dom parent = visited;
  (* every other visited name hangs below a visited name one hop higher *)
  bfs_tree : ∀ v, v ∈ visited → v ≠ start →
    ∃ u, parent !! v = Some (Some u) ∧ u ∈ visited ∧ R u v ∧ d v = S (d u);
  bfs_frontier_visited : ∀ x, x ∈ frontier pending q → x ∈ visited;
  (* the frontier is in order of depth and spans at most two depths *)
  bfs_frontier_sorted : ∀ i j x y, i ≤ j →
    frontier pending q !! i = Some x → frontier pending q !! j = Some y →
    d x ≤ d y ∧ d y ≤ S (d x);
  (* a name that left the frontier is not the goal, is no deeper than the
     frontier, and all its neighbours are visited, at most one hop deeper *)
  bfs_done : ∀ v, v ∈ visited → v ∉ frontier pending q →
    v ≠ goal ∧
    (∀ x, x ∈ frontier pending q → d v ≤ d x) ∧
    (∀ w, R v w → w ∈ visited ∧ d w ≤ S (d v));
  bfs_pending : match pending with
    | None => True
    | Some (cur, rest) =>
        (∀ w, w ∈ rest → R cur w) ∧
        (∀ w, R cur w → w ∈ rest ∨ (w ∈ visited ∧ d w ≤ S (d cur)))
    end;
  (* a parent chain is shorter than the number of entries of [parent] *)
  bfs_depth_bound : ∀ v, v ∈ visited → d v < size parent
}.

(** The stack entries that are not stale: their node is not visited yet. *)
Definition fresh (visited : gset string) (stack : list (string * list string))
    : list (string * list string) :=
  filter (λ e, e.1 ∉ visited) stack.

(** ** The depth-first search as the specification words it

    "Otherwise compute unvisited neighbors, sort them in descending lexical
    order, and push each as (neighbor, pathSoFar + [neighbor])": the
    neighbours are filtered first and sorted afterwards, and the push loop
    tests nothing. *)
Fixpoint dfs_spec_loop (fuel : nat) (g : Graph.t) (goal : string)
    (accessible_only allow_closed : bool)
    (visited : gset string) (stack : list (string * list string))
    (visited_order : list string) : option search_result :=
  match fuel with
  | 0 => None
  | S fuel' =>
      match stack with
      | [] => Some (None, visited_order)
      | (cur, path) :: stack' =>
          if decide (cur ∈ visited) then
            dfs_spec_loop fuel' g goal accessible_only allow_closed
              visited stack' visited_order
          else
            let visited' := {[cur]} ∪ visited in
            let visited_order' := visited_order ++ [cur] in
            if decide (cur = goal) then Some (Some path, visited_order')
            else
              let unvisited :=
                filter (λ nb, nb ∉ visited')
                  (Graph.neighbors g cur accessible_only allow_closed) in
              let pushed := (λ nb, (nb, path ++ [nb])) <$> sort_desc unvisited in
              dfs_spec_loop fuel' g goal accessible_only allow_closed
                visited' (reverse pushed ++ stack') visited_order'
      end
  end.

Definition dfs_spec (g : Graph.t) (start goal : string)
    (accessible_only allow_closed : bool) : option search_result :=
  dfs_spec_loop (dfs_fuel g) g goal accessible_only allow_closed
    ∅ [(start, [start])] [].

(** The same search with the visited test at pop time only: every
    neighbour is pushed, visited or not, and stale entries are dropped when
    they are popped. *)
Fixpoint dfs_pop_loop (fuel : nat) (g : Graph.t) (goal : string)
    (accessible_only allow_closed : bool)
    (visited : gset string) (stack : list (string * list string))
    (visited_order : list string) : option search_result :=
  match fuel with
  | 0 => None
  | S fuel' =>
      match stack with
      | [] => Some (None, visited_order)
      | (cur, path) :: stack' =>
          if decide (cur ∈ visited) then
            dfs_pop_loop fuel' g goal accessible_only allow_closed
              visited stack' visited_order
          else
            let visited' := {[cur]} ∪ visited in
            let visited_order' := visited_order ++ [cur] in
            if decide (cur = goal) then Some (Some path, visited_order')
            else
              let pushed :=
                (λ nb, (nb, path ++ [nb])) <$>
                  sort_desc (Graph.neighbors g cur accessible_only allow_closed) in
              dfs_pop_loop fuel' g goal accessible_only allow_closed
                visited' (reverse pushed ++ stack') visited_order'
      end
  end.

Definition dfs_pop (g : Graph.t) (start goal : string)
    (accessible_only allow_closed : bool) : option search_result :=
  dfs_pop_loop (dfs_fuel g) g goal accessible_only allow_closed
    ∅ [(start, [start])] [].

(** ** Scenarios of section 8 of the specification *)

Definition three_nodes : Eff.m (S := Graph.t) unit :=
  Graph.add_node "X" 0 0 >> Graph.add_node "Y" 40 0 >> Graph.add_node "Z" 80 0.

(** Scenario A: X-Y and Y-Z, open and accessible. *)
Definition scenario_A : Graph.t :=
  Eff.state_after
    (three_nodes >> Graph.connect "X" "Y" 1 1 true >> Graph.connect "Y" "Z" 1 1 true)
    Graph.empty.

(** Scenario B: the same graph with Y-Z closed. *)
Definition scenario_B : Graph.t :=
  Eff.state_after (toggle_edge flip_closed "Y" "Z") scenario_A.

(** Scenario C: X-Y accessible, X-Z not accessible. *)
Definition scenario_C : Graph.t :=
  Eff.state_after
    (three_nodes >> Graph.connect "X" "Y" 1 1 true >> Graph.connect "X" "Z" 1 1 false)
    Graph.empty.

(** A triangle A-B, A-C, B-C with a tail C-D: the breadth-first path from
    A to C has one hop, the depth-first one has two, and C is pushed twice
    by the depth-first search before it is visited. *)
Definition triangle : Graph.t :=
  Eff.state_after
    (Graph.add_node "A" 0 0 >> Graph.add_node "B" 40 0 >> Graph.add_node "C" 20 30 >>
     Graph.add_node "D" 60 30 >>
     Graph.connect "A" "B" 1 1 true >> Graph.connect "A" "C" 1 1 true >>
     Graph.connect "B" "C" 1 1 true >> Graph.connect "C" "D" 1 1 true)
    Graph.empty.

(** ** The rest of the graph model and of the application's core *)

(** *** [Graph.randomize_weights]

    [random.randint(a, b)] belongs to Python's library: it raises a
    [ValueError] (empty range) when [b < a] and otherwise returns an
    integer [N] with [a <= N <= b].  The values it returns are a parameter
    here: [draws i] is what call number [i] of a run of
    [randomize_weights] returns. *)

(** The [ValueError] of [random.randint] on an empty range. *)
Inductive RandomError : Type := EmptyRangeError.

(** What [randint] promises about the values it returns. *)
Definition randint_contract (min_val max_val : Z) (draws : nat → Z) : Prop :=
  ∀ i, (min_val <= draws i <= max_val)%Z.

(** [e.distance = ...; e.time = ...] on the stored edge object. *)
Definition set_weights (e : Edge.t) (distance time : Z) : Edge.t :=
  Edge.mk (Edge.a e) (Edge.b e) (inject_Z distance) (inject_Z time)
    (Edge.accessible e) (Edge.closed e).

(** The loop over [self.edges.values()]; [i] counts the calls of
    [randint] made so far. *)
Fixpoint randomize_items (draws : nat → Z) (i : nat)
    (items : list (gset string * Edge.t)) : list (gset string * Edge.t) :=
  match items with
  | [] => []
  | (k, e) :: items' =>
      (k, set_weights e (draws i) (draws (S i))) ::
      randomize_items draws (S (S i)) items'
  end.

(** The first call of [randint] raises when the range is empty, before any
    edge is changed; with no edge there is no call. *)
Definition randomize_weights (draws : nat → Z) (min_val max_val : Z) (g : Graph.t)
    : (RandomError + unit) * Graph.t :=
  match Graph.edges g with
  | [] => (inr tt, g)
  | _ :: _ =>
      if (max_val <? min_val)%Z then (inl EmptyRangeError, g)
      else (inr tt, Graph.mk (Graph.nodes g) (randomize_items draws 0 (Graph.edges g)))
  end.

(** *** Hit testing ([App._node_at_point], [App._edge_at_point])

    Canvas coordinates are integers.  [Graph.nodes] is a map here, so the
    order in which [self.graph.nodes.items()] yields its entries is given
    to [node_at_point] as the list [items]. *)

Definition NODE_RADIUS : Z := 18.

Fixpoint node_at_point (items : list (string * Node.t)) (x y : Z) : option string :=
  match items with
  | [] => None
  | (name, node) :: items' =>
      let dx := (Node.x node - x)%Z in
      let dy := (Node.y node - y)%Z in
      if (dx * dx + dy * dy <=? NODE_RADIUS * NODE_RADIUS)%Z then Some name
      else node_at_point items' x y
  end.

(** The point [(x, y)] lies within the radius of the circle drawn for
    [node]. *)
Definition node_hit (node : Node.t) (x y : Z) : Prop :=
  ((Node.x node - x) * (Node.x node - x) + (Node.y node - y) * (Node.y node - y)
   <= NODE_RADIUS * NODE_RADIUS)%Z.

(** [items] is a possible iteration order of the node table. *)
Definition lists_nodes (g : Graph.t) (items : list (string * Node.t)) : Prop :=
  items ≡ₚ map_to_list (Graph.nodes g).

(** The loop of [_edge_at_point] over the edge table, with
    [threshold = 6].  The outer [None] is the [KeyError] of
    [self.graph.nodes[a]] or [self.graph.nodes[b]]; [Some None] is the
    [return None] after the loop. *)
Fixpoint edge_at_point_items (nodes : gmap string Node.t)
    (items : list (gset string * Edge.t)) (x y : Z)
    : option (option (string * string * Edge.t)) :=
  match items with
  | [] => Some None
  | (k, e) :: items' =>
      match nodes !! Edge.a e with
      | None => None
      | Some na =>
          match nodes !! Edge.b e with
          | None => None
          | Some nb =>
              if Geometry.point_near_segment (inject_Z x) (inject_Z y)
                   (inject_Z (Node.x na)) (inject_Z (Node.y na))
                   (inject_Z (Node.x nb)) (inject_Z (Node.y nb)) 6
              then Some (Some (Edge.a e, Edge.b e, e))
              else edge_at_point_items nodes items' x y
          end
      end
  end.

Definition edge_at_point (g : Graph.t) (x y : Z)
    : option (option (string * string * Edge.t)) :=
  edge_at_point_items (Graph.nodes g) (Graph.edges g) x y.

(** The click [(x, y)] is within the threshold of the segment drawn for
    [e]. *)
Definition edge_hit (g : Graph.t) (x y : Z) (e : Edge.t) : Prop :=
  ∃ na nb, Graph.nodes g !! Edge.a e = Some na ∧ Graph.nodes g !! Edge.b e = Some nb ∧
    Geometry.point_near_segment (inject_Z x) (inject_Z y)
      (inject_Z (Node.x na)) (inject_Z (Node.y na))
      (inject_Z (Node.x nb)) (inject_Z (Node.y nb)) 6 = true.

(** *** Colours ([App._edge_color]) *)

Definition COLOR_REGULAR : string := "black".
Definition COLOR_CLOSED : string := "red".
Definition COLOR_NONACCESS : string := "orange".

Definition edge_color (e : Edge.t) : string :=
  if Edge.closed e then COLOR_CLOSED
  else if negb (Edge.accessible e) then COLOR_NONACCESS
  else COLOR_REGULAR.

(** *** The steps of an animation ([App._animate_traversal]) *)

Inductive step : Type :=
  | visit_node (n : string)
  | path_edge (a b : string).

(** [for i in range(len(final_path) - 1): ... final_path[i], final_path[i+1]] *)
Fixpoint path_edges (final_path : list string) : list step :=
  match final_path with
  | a :: (b :: _) as rest => path_edge a b :: path_edges rest
  | _ => []
  end.

Definition animation_steps (visited_order final_path : list string) : list step :=
  (visit_node <$> visited_order) ++ path_edges final_path.

(** *** [App.run_search], past the [strip()] of the two entry fields

    [start] and [goal] are the stripped entries.  The message boxes are the
    first four outcomes; [Found] carries the hop count shown in the
    information label and the steps handed to the animation. *)
Inductive search_outcome : Type :=
  | InvalidInput
  | InvalidStart
  | InvalidGoal
  | NoPath
  | Found (hops_shown : Z) (steps : list step).

Definition run_search (alg start goal : string) (accessible_only : bool) (g : Graph.t)
    : option search_outcome :=
  if bool_decide (start = "") || bool_decide (goal = "") then Some InvalidInput
  else if negb (Graph.has_node g start) then Some InvalidStart
  else if negb (Graph.has_node g goal) then Some InvalidGoal
  else
    let allow_closed := false in
    let search := if bool_decide (alg = "BFS") then bfs else dfs in
    match search g start goal accessible_only allow_closed with
    | None => None
    | Some (None, _) => Some NoPath
    | Some (Some path, visited_order) =>
        Some (Found (Z.of_nat (length path) - 1) (animation_steps visited_order path))
    end.

(** *** A right click outside edge-selection mode
    ([App.on_canvas_right_click])

    [found = self._edge_at_point(x, y)] and then [e.closed = not e.closed]
    on the edge object that was found: the entry of the table that holds
    this object changes, whatever its key. *)
Fixpoint flip_first_hit (nodes : gmap string Node.t)
    (items : list (gset string * Edge.t)) (x y : Z)
    : option (list (gset string * Edge.t)) :=
  match items with
  | [] => Some []
  | (k, e) :: items' =>
      match nodes !! Edge.a e with
      | None => None
      | Some na =>
          match nodes !! Edge.b e with
          | None => None
          | Some nb =>
              if Geometry.point_near_segment (inject_Z x) (inject_Z y)
                   (inject_Z (Node.x na)) (inject_Z (Node.y na))
                   (inject_Z (Node.x nb)) (inject_Z (Node.y nb)) 6
              then Some ((k, flip_closed e) :: items')
              else (λ rest, (k, e) :: rest) <$> flip_first_hit nodes items' x y
          end
      end
  end.

Definition right_click_toggle (g : Graph.t) (x y : Z) : option Graph.t :=
  Graph.mk (Graph.nodes g) <$> flip_first_hit (Graph.nodes g) (Graph.edges g) x y.

(** * Verification *)

(** ** The ordered dict *)

Section OrderedDictFacts.
Context {K V : Type} `{EqDecision K}.
Implicit Types (k : K) (v : V) (d : list (K * V)).

Lemma dict_mem_spec k d : dict_mem k d = true ↔ k ∈ d.*1.
Proof. unfold dict_mem. by rewrite bool_decide_eq_true. Qed.

Lemma dict_get_Some_elem k v d : dict_get k d = Some v → (k, v) ∈ d.
Proof.
  induction d as [|[k' v'] d IH]; simpl; [done|].
  destruct (decide (k = k')) as [->|Hne].
  - intros [= ->]. left.
  - intros Hd. right. auto.
Qed.

Lemma dict_get_None k d : dict_get k d = None ↔ k ∉ d.*1.
Proof.
  induction d as [|[k' v'] d IH]; simpl.
  - split; [intros _; apply not_elem_of_nil | done].
  - rewrite not_elem_of_cons. destruct (decide (k = k')) as [->|Hne].
    + split; [done | intros [? _]; done].
    + rewrite IH. tauto.
Qed.

Lemma dict_get_is_Some k d : is_Some (dict_get k d) ↔ k ∈ d.*1.
Proof.
  rewrite <- not_eq_None_Some, dict_get_None.
  split; [apply dec_stable | auto].
Qed.

(** In a dict (keys unique) an entry is what [get] returns for its key. *)
Lemma dict_get_entry k v d : NoDup d.*1 → (k, v) ∈ d → dict_get k d = Some v.
Proof.
  induction d as [|[k' v'] d IH]; simpl.
  - intros _ Hin. by apply elem_of_nil in Hin.
  - rewrite NoDup_cons. intros [Hk' Hnd] Hin.
    apply elem_of_cons in Hin as [[= -> ->]|Hin].
    + by rewrite decide_True.
    + rewrite decide_False; [auto|].
      intros ->. apply Hk'. apply list_elem_of_fmap. by exists (k', v).
Qed.

Lemma dict_set_fresh k v d : k ∉ d.*1 → dict_set k v d = d ++ [(k, v)].
Proof.
  induction d as [|[k' v'] d IH]; simpl; [done|].
  rewrite not_elem_of_cons. intros [Hne Hk].
  rewrite decide_False by done. by rewrite IH.
Qed.

(** Overwriting the value of a key leaves the keys as they are. *)
Lemma dict_set_keys k v d : k ∈ d.*1 → (dict_set k v d).*1 = d.*1.
Proof.
  induction d as [|[k' v'] d IH]; simpl.
  - intros Hin. by apply elem_of_nil in Hin.
  - intros Hin. destruct (decide (k = k')) as [->|Hne]; csimpl; [done|].
    apply elem_of_cons in Hin as [?|Hin]; [done|]. f_equal. by apply IH.
Qed.

Lemma elem_of_dict_del k kv d : kv ∈ dict_del k d ↔ kv ∈ d ∧ kv.1 ≠ k.
Proof. unfold dict_del. rewrite list_elem_of_filter. tauto. Qed.

(** Deleting a list of keys one after the other keeps the entries whose
    key is not in the list, in their order. *)
Lemma foldl_dict_del ks d :
  foldl (λ d k, dict_del k d) d ks = filter (λ kv, kv.1 ∉ ks) d.
Proof.
  revert d. induction ks as [|k ks IH]; intros d; simpl.
  - induction d as [|kv d IHd]; [done|].
    rewrite filter_cons_True by apply not_elem_of_nil. by f_equal.
  - rewrite IH. unfold dict_del. rewrite list_filter_filter.
    apply list_filter_iff. intros kv. rewrite not_elem_of_cons. tauto.
Qed.

Lemma filter_keys_sublist (P : K * V → Prop) `{∀ kv, Decision (P kv)} d :
  (filter P d).*1 `sublist_of` d.*1.
Proof. apply fmap_sublist, sublist_filter. Qed.
End OrderedDictFacts.

(** ** Neighbour queries *)

Lemma frozenset2_comm a b : frozenset2 a b = frozenset2 b a.
Proof. unfold frozenset2. set_solver. Qed.

Lemma elem_of_frozenset2 x a b : x ∈ frozenset2 a b ↔ x = a ∨ x = b.
Proof. unfold frozenset2. set_solver. Qed.

Lemma other_endpoint e x : Edge.other e x = Edge.a e ∨ Edge.other e x = Edge.b e.
Proof. unfold Edge.other. case_decide; auto. Qed.

#[global] Instance passes_dec ao ac e : Decision (passes ao ac e).
Proof. unfold passes. apply _. Defined.

(** The two [continue] tests of [neighbors] let through exactly the edges
    that pass the filters. *)
Lemma neighbors_items_cons name ao ac k e items :
  Graph.neighbors_items name ao ac ((k, e) :: items) =
  if decide (name ∈ k ∧ passes ao ac e)
  then Edge.other e name :: Graph.neighbors_items name ao ac items
  else Graph.neighbors_items name ao ac items.
Proof.
  simpl. case_decide as Hd; unfold passes in Hd; case_bool_decide as Hk;
    destruct (Edge.closed e), ac, ao, (Edge.accessible e); simpl;
    try done; exfalso; first [ apply Hd; naive_solver | naive_solver ].
Qed.

(** What one pass over the edge table collects. *)
Lemma elem_of_neighbors_items name ao ac items v :
  v ∈ Graph.neighbors_items name ao ac items ↔
  ∃ k e, (k, e) ∈ items ∧ name ∈ k ∧ passes ao ac e ∧ v = Edge.other e name.
Proof.
  induction items as [|[k e] items IH].
  - simpl. split; [intros Hin; by apply elem_of_nil in Hin|].
    intros (? & ? & Hin & _). by apply elem_of_nil in Hin.
  - rewrite neighbors_items_cons. split.
    + intros Hv.
      assert (Hcase : (name ∈ k ∧ passes ao ac e ∧ v = Edge.other e name) ∨
                      v ∈ Graph.neighbors_items name ao ac items).
      { case_decide as Hd; [|by right].
        apply elem_of_cons in Hv as [->|Hv]; [left; tauto | by right]. }
      destruct Hcase as [(? & ? & ?)|Hv'].
      * exists k, e. split; [left | done].
      * apply IH in Hv' as (k0 & e0 & ? & ?). exists k0, e0. split; [by right | done].
    + intros (k0 & e0 & Hin & Hn & Hp & Hv).
      apply elem_of_cons in Hin as [[= -> ->]|Hin].
      * rewrite decide_True by done. rewrite Hv. left.
      * assert (v ∈ Graph.neighbors_items name ao ac items) by (apply IH; eauto 6).
        case_decide; [by right | done].
Qed.

Lemma elem_of_neighbors g name ao ac v :
  v ∈ Graph.neighbors g name ao ac ↔
  ∃ k e, (k, e) ∈ Graph.edges g ∧ name ∈ k ∧ passes ao ac e ∧ v = Edge.other e name.
Proof. apply elem_of_neighbors_items. Qed.

Lemma length_neighbors_items name ao ac items :
  length (Graph.neighbors_items name ao ac items) ≤ length items.
Proof.
  induction items as [|[k e] items IH]; [done|].
  rewrite neighbors_items_cons. case_decide; simpl; lia.
Qed.

Lemma neighbors_items_Permutation name ao ac items1 items2 :
  items1 ≡ₚ items2 →
  Graph.neighbors_items name ao ac items1 ≡ₚ Graph.neighbors_items name ao ac items2.
Proof.
  induction 1 as [|[k e] ?? _ IH|[k1 e1] [k2 e2] ?|??? _ IH1 _ IH2].
  - done.
  - rewrite !neighbors_items_cons. case_decide; by rewrite IH.
  - rewrite !neighbors_items_cons. repeat case_decide; try done. apply Permutation_swap.
  - by etrans.
Qed.


(** ** The mutating methods *)

Lemma filter_ext_elem {A} (P Q : A → Prop) `{∀ x, Decision (P x)} `{∀ x, Decision (Q x)}
    (l : list A) :
  (∀ x, x ∈ l → P x ↔ Q x) → filter P l = filter Q l.
Proof.
  induction l as [|x l IH]; intros Hext; [done|].
  assert (filter P l = filter Q l) as IH'.
  { apply IH. intros y Hy. apply Hext. by right. }
  destruct (decide (P x)) as [HP|HP].
  - rewrite !filter_cons_True; [by f_equal | by apply Hext; [left|] | done].
  - rewrite !filter_cons_False; [done | | done].
    intros HQ. apply HP, Hext; [left | done].
Qed.

Lemma filter_all {A} (P : A → Prop) `{∀ x, Decision (P x)} (l : list A) :
  Forall P l → filter P l = l.
Proof.
  induction 1 as [|x l HP _ IH]; [done|]. rewrite filter_cons_True by done. by f_equal.
Qed.

Lemma has_node_spec g n : Graph.has_node g n = true ↔ is_Some (Graph.nodes g !! n).
Proof. unfold Graph.has_node. by rewrite bool_decide_eq_true. Qed.

Lemma has_node_false g n : Graph.has_node g n = false ↔ Graph.nodes g !! n = None.
Proof.
  unfold Graph.has_node. rewrite bool_decide_eq_false, <- not_eq_None_Some.
  split; [apply dec_stable | auto].
Qed.

Lemma get_edge_comm g a b : Graph.get_edge g a b = Graph.get_edge g b a.
Proof. unfold Graph.get_edge. by rewrite frozenset2_comm. Qed.

Lemma add_node_run g n x y :
  Graph.add_node n x y g =
  if Graph.has_node g n then (inl DuplicateNameError, g)
  else (inr tt, Graph.mk (<[n := Node.mk n x y]> (Graph.nodes g)) (Graph.edges g)).
Proof.
  unfold Graph.add_node, Eff.bind, Eff.get, Eff.raise_if. by destruct (Graph.has_node g n).
Qed.

Lemma remove_node_run g n :
  Graph.remove_node n g =
  if Graph.has_node g n
  then (inr tt, Graph.mk (delete n (Graph.nodes g))
                         (filter (λ ke, n ∉ ke.1) (Graph.edges g)))
  else (inr tt, g).
Proof.
  unfold Graph.remove_node, Eff.bind, Eff.get.
  destruct (Graph.has_node g n); simpl; [|done].
  unfold Eff.modify, Graph.set_nodes, Graph.set_edges; simpl. do 2 f_equal.
  rewrite foldl_dict_del. apply filter_ext_elem. intros [k e] Hin; simpl.
  rewrite list_elem_of_filter. split; [|tauto].
  intros Hn Hk. apply Hn. split; [done|].
  apply list_elem_of_fmap. by exists (k, e).
Qed.

Lemma connect_run g a b distance time accessible :
  Graph.connect a b distance time accessible g =
  if negb (Graph.has_node g a) || negb (Graph.has_node g b)
  then (inl MissingEndpointError, g)
  else if bool_decide (a = b) then (inl SelfLoopError, g)
  else if dict_mem (frozenset2 a b) (Graph.edges g) then (inl DuplicateEdgeError, g)
  else (inr tt, Graph.mk (Graph.nodes g)
          (Graph.edges g ++
             [(frozenset2 a b, Edge.mk a b distance time accessible false)])).
Proof.
  unfold Graph.connect, Eff.bind, Eff.get, Eff.raise_if.
  destruct (negb (Graph.has_node g a) || negb (Graph.has_node g b)); [done|].
  destruct (bool_decide (a = b)); [done|].
  destruct (dict_mem _ _) eqn:Hmem; [done|].
  unfold Eff.ret, Eff.modify, Graph.set_edges. do 2 f_equal.
  apply dict_set_fresh. rewrite <- dict_mem_spec. by rewrite Hmem.
Qed.

Lemma disconnect_run g a b :
  Graph.disconnect a b g =
  (inr tt, Graph.mk (Graph.nodes g)
             (filter (λ ke, ke.1 ≠ frozenset2 a b) (Graph.edges g))).
Proof.
  unfold Graph.disconnect, Eff.bind, Eff.get.
  destruct (dict_mem _ _) eqn:Hmem; [done|].
  unfold Eff.ret. destruct g as [ns es]. simpl in *. do 2 f_equal.
  symmetry. apply filter_all, Forall_forall. intros [k e] Hin Hk.
  simpl in Hk. subst k. apply not_true_iff_false in Hmem. apply Hmem, dict_mem_spec.
  apply list_elem_of_fmap. by exists (frozenset2 a b, e).
Qed.

(** *** The invariants are established and kept *)

Lemma graph_inv_empty : graph_inv Graph.empty.
Proof. split; simpl; [apply NoDup_nil_2 | apply Forall_nil_2]. Qed.

Lemma graph_inv_elem g k e :
  graph_inv g → (k, e) ∈ Graph.edges g →
  k = frozenset2 (Edge.a e) (Edge.b e) ∧ Edge.a e ≠ Edge.b e ∧
  is_Some (Graph.nodes g !! Edge.a e) ∧ is_Some (Graph.nodes g !! Edge.b e).
Proof. intros [_ Hall] Hin. rewrite Forall_forall in Hall. apply (Hall _ Hin). Qed.

(** Dropping edges keeps the invariants as long as the nodes stay. *)
Lemma graph_inv_filter (P : gset string * Edge.t → Prop) `{∀ ke, Decision (P ke)} g :
  graph_inv g → graph_inv (Graph.mk (Graph.nodes g) (filter P (Graph.edges g))).
Proof.
  intros [Hnd Hall]. split; simpl.
  - eapply sublist_NoDup; [exact Hnd | apply filter_keys_sublist].
  - apply Forall_forall. intros ke Hin. apply list_elem_of_filter in Hin as [_ Hin].
    rewrite Forall_forall in Hall. apply (Hall _ Hin).
Qed.

Lemma add_node_inv g n x y : graph_inv g → graph_inv (Eff.state_after (Graph.add_node n x y) g).
Proof.
  intros Hinv. unfold Eff.state_after. rewrite add_node_run.
  destruct (Graph.has_node g n); simpl; [done|].
  destruct Hinv as [Hnd Hall]. split; simpl; [done|].
  eapply Forall_impl; [exact Hall|]. intros [k e] (? & ? & Ha & Hb).
  repeat split; try done; simpl; rewrite lookup_insert_is_Some; 
    destruct (decide (n = Edge.a e)), (decide (n = Edge.b e)); auto.
Qed.

Lemma remove_node_inv g n : graph_inv g → graph_inv (Eff.state_after (Graph.remove_node n) g).
Proof.
  intros Hinv. unfold Eff.state_after. rewrite remove_node_run.
  destruct (Graph.has_node g n); simpl; [|done].
  destruct (graph_inv_filter (λ ke, n ∉ ke.1) g Hinv) as [Hnd Hall].
  split; simpl in *; [done|].
  apply Forall_forall. intros [k e] Hin.
  rewrite Forall_forall in Hall. destruct (Hall _ Hin) as (Hk & Hne & Ha & Hb).
  apply list_elem_of_filter in Hin as [Hn _]. simpl in *.
  rewrite Hk, elem_of_frozenset2 in Hn.
  repeat split; try done; simpl; rewrite lookup_delete_is_Some; split; auto.
Qed.

Lemma connect_inv g a b distance time accessible :
  graph_inv g → graph_inv (Eff.state_after (Graph.connect a b distance time accessible) g).
Proof.
  intros Hinv. unfold Eff.state_after. rewrite connect_run.
  destruct (negb _ || negb _) eqn:Hpresent; simpl; [done|].
  case_bool_decide as Hab; simpl; [done|].
  destruct (dict_mem _ _) eqn:Hmem; simpl; [done|].
  apply orb_false_iff in Hpresent as [Ha Hb].
  apply negb_false_iff, has_node_spec in Ha, Hb.
  destruct Hinv as [Hnd Hall]. split; simpl.
  - rewrite fmap_app. apply NoDup_app. split; [done|]. split; [|apply NoDup_singleton].
    intros k Hk Hk'. apply list_elem_of_singleton in Hk'. simpl in Hk'. subst k.
    apply dict_mem_spec in Hk. congruence.
  - apply Forall_app. split; [done|]. apply Forall_singleton. by repeat split.
Qed.

Lemma disconnect_inv g a b : graph_inv g → graph_inv (Eff.state_after (Graph.disconnect a b) g).
Proof.
  intros Hinv. unfold Eff.state_after. rewrite disconnect_run. simpl.
  by apply graph_inv_filter.
Qed.

Lemma run_op_inv o g : graph_inv g → graph_inv (Eff.state_after (run_op o) g).
Proof.
  destruct o; simpl;
    auto using add_node_inv, remove_node_inv, connect_inv, disconnect_inv.
Qed.

Lemma run_ops_inv ops g : graph_inv g → graph_inv (run_ops ops g).
Proof.
  revert g. induction ops as [|o ops IH]; intros g Hinv; simpl; [done|].
  apply IH. by apply run_op_inv.
Qed.

(** Flipping a flag of a stored edge keeps them as well. *)
Lemma toggle_edge_inv flip a b g :
  (∀ e, Edge.a (flip e) = Edge.a e ∧ Edge.b (flip e) = Edge.b e) →
  graph_inv g → graph_inv (Eff.state_after (toggle_edge flip a b) g).
Proof.
  intros Hflip Hinv. unfold Eff.state_after, toggle_edge, Eff.bind, Eff.get.
  destruct (Graph.get_edge g a b) as [e|] eqn:Hget; simpl; [|done].
  unfold Graph.get_edge in Hget. destruct g as [ns es]. simpl in *.
  pose proof (dict_get_Some_elem _ _ _ Hget) as Hin.
  destruct (graph_inv_elem _ _ _ Hinv Hin) as (Hk & Hne & Ha & Hb). simpl in *.
  destruct (Hflip e) as [Hfa Hfb].
  destruct Hinv as [Hnd Hall]. simpl in *. split; simpl.
  - rewrite dict_set_keys; [done|]. apply list_elem_of_fmap. by exists (frozenset2 a b, e).
  - clear Hnd Hget Hin. induction es as [|[k' e'] es IH]; simpl.
    + apply Forall_singleton. unfold edge_ok. simpl. rewrite Hfa, Hfb. by rewrite <- Hk.
    + apply Forall_cons in Hall as [Hok Hall]. case_decide as Hd.
      * apply Forall_cons. split; [|done]. subst k'. unfold edge_ok in *. simpl in *.
        rewrite Hfa, Hfb. by rewrite <- Hk.
      * apply Forall_cons. split; [done|]. by apply IH.
Qed.


(** Evaluates a decidable proposition about concrete data. *)
Ltac by_evaluation := refine (bool_decide_unpack _ _); vm_compute; exact I.

(** *** The structural invariants hold in every reachable graph *)

(** C2: whatever sequence of [add_node], [remove_node], [connect] and
    [disconnect] requests is run on the empty graph (failed requests
    included, they leave the graph alone), in the graph that results every
    edge has both its endpoints among the keys of the node table, no edge
    joins a node to itself, and two entries of the edge table with the same
    unordered pair of endpoints are one and the same entry. *)
Theorem graph_invariants_hold (ops : list Op) :
  let g := run_ops ops Graph.empty in
  (∀ k e, (k, e) ∈ Graph.edges g →
     is_Some (Graph.nodes g !! Edge.a e) ∧ is_Some (Graph.nodes g !! Edge.b e)) ∧
  (∀ k e, (k, e) ∈ Graph.edges g → Edge.a e ≠ Edge.b e) ∧
  (∀ i j k1 e1 k2 e2,
     Graph.edges g !! i = Some (k1, e1) → Graph.edges g !! j = Some (k2, e2) →
     frozenset2 (Edge.a e1) (Edge.b e1) = frozenset2 (Edge.a e2) (Edge.b e2) →
     i = j).
Proof.
  intros g. assert (Hinv : graph_inv g) by apply run_ops_inv, graph_inv_empty.
  split; [|split].
  - intros k e Hin. by destruct (graph_inv_elem _ _ _ Hinv Hin) as (_ & _ & ? & ?).
  - intros k e Hin. by destruct (graph_inv_elem _ _ _ Hinv Hin) as (_ & ? & _).
  - intros i j k1 e1 k2 e2 Hi Hj Heq.
    destruct (graph_inv_elem g k1 e1 Hinv) as (Hk1 & _); [by eapply list_elem_of_lookup_2|].
    destruct (graph_inv_elem g k2 e2 Hinv) as (Hk2 & _); [by eapply list_elem_of_lookup_2|].
    destruct Hinv as [Hnd _]. eapply NoDup_lookup; [exact Hnd | |].
    + rewrite list_lookup_fmap, Hi. done.
    + rewrite list_lookup_fmap, Hj. simpl. by rewrite Hk1, Heq, <- Hk2.
Qed.

(** *** What [neighbors] returns *)

(** Under the invariants the key of an entry that contains [name] is the
    pair of [name] and of what [other] returns. *)
Lemma key_of_other g k e name :
  graph_inv g → (k, e) ∈ Graph.edges g → name ∈ k →
  joins e name (Edge.other e name) ∧ k = frozenset2 name (Edge.other e name) ∧
  Edge.other e name ≠ name.
Proof.
  intros Hinv Hin Hn. destruct (graph_inv_elem _ _ _ Hinv Hin) as (Hk & Hne & _).
  subst k. apply elem_of_frozenset2 in Hn. unfold Edge.other, joins.
  case_decide as Hd.
  - subst name. split; [by left|]. split; [done|]. congruence.
  - destruct Hn as [?|Hn]; [done|]. subst name.
    split; [by right|]. split; [apply frozenset2_comm|]. congruence.
Qed.

Lemma joins_other e u v : joins e u v → Edge.a e ≠ Edge.b e → Edge.other e u = v.
Proof.
  unfold joins, Edge.other. intros [[Ha Hb]|[Ha Hb]] Hne; case_decide; congruence.
Qed.

Lemma neighbors_items_NoDup g name ao ac items :
  graph_inv g → NoDup items.*1 → items ⊆ Graph.edges g →
  NoDup (Graph.neighbors_items name ao ac items).
Proof.
  intros Hinv. induction items as [|[k e] items IH]; intros Hnd Hsub.
  - apply NoDup_nil_2.
  - rewrite fmap_cons, NoDup_cons in Hnd. destruct Hnd as [Hk Hnd].
    assert (Hsub' : items ⊆ Graph.edges g).
    { intros x Hx. apply Hsub. by right. }
    rewrite neighbors_items_cons. case_decide as Hd; [|by apply IH].
    apply NoDup_cons. split; [|by apply IH]. destruct Hd as [Hn _].
    intros Hv. apply elem_of_neighbors_items in Hv as (k0 & e0 & Hin0 & Hn0 & _ & Hv).
    destruct (key_of_other g k e name) as (_ & Hkey & _);
      [done | apply Hsub; left | done |].
    destruct (key_of_other g k0 e0 name) as (_ & Hkey0 & _);
      [done | by apply Hsub' | done |].
    apply Hk. apply list_elem_of_fmap. exists (k0, e0). split; [|done].
    simpl. by rewrite Hkey, Hv, <- Hkey0.
Qed.

Lemma neighbors_NoDup g name ao ac :
  graph_inv g → NoDup (Graph.neighbors g name ao ac).
Proof. intros Hinv. apply (neighbors_items_NoDup g); [done | apply Hinv | done]. Qed.

(** C3: [neighbors(name, accessible_only, allow_closed)] collects, for the
    entries of the edge table whose key contains [name] and whose edge is
    neither closed without [allow_closed] nor non-accessible under
    [accessible_only], the far end of the edge; on a graph that satisfies
    the invariants these are exactly the names joined to [name] by an edge
    passing both filters, each listed once.  In scenario C (edges X-Y
    accessible, X-Z non-accessible) [neighbors(X, true, false)] is Y
    alone. *)
Theorem neighbors_spec :
  (∀ g name ao ac v,
     v ∈ Graph.neighbors g name ao ac ↔
     ∃ k e, (k, e) ∈ Graph.edges g ∧ name ∈ k ∧
            ¬ (Edge.closed e = true ∧ ac = false) ∧
            ¬ (ao = true ∧ Edge.accessible e = false) ∧
            v = Edge.other e name) ∧
  (∀ g name ao ac, graph_inv g →
     (∀ v, v ∈ Graph.neighbors g name ao ac ↔
           ∃ e, e ∈ (Graph.edges g).*2 ∧ joins e name v ∧ passes ao ac e) ∧
     NoDup (Graph.neighbors g name ao ac)) ∧
  Graph.neighbors scenario_C "X" true false = ["Y"].
Proof.
  split; [|split].
  - intros g name ao ac v. rewrite elem_of_neighbors. unfold passes.
    split; intros (k & e & Hin & Hn & Hp & Hv); exists k, e;
      (split; [done|]; split; [done|]);
      destruct (Edge.closed e), ac, ao, (Edge.accessible e); naive_solver.
  - intros g name ao ac Hinv. split; [|by apply neighbors_NoDup].
    intros v. rewrite elem_of_neighbors. split.
    + intros (k & e & Hin & Hn & Hp & ->). exists e. split.
      * apply list_elem_of_fmap. by exists (k, e).
      * split; [|done]. by destruct (key_of_other g k e name Hinv Hin Hn).
    + intros (e & Hin & Hj & Hp).
      apply list_elem_of_fmap in Hin as ([k e'] & Heq & Hin). simpl in Heq. subst e'.
      destruct (graph_inv_elem _ _ _ Hinv Hin) as (Hk & Hne & _).
      exists k, e. split; [done|]. split.
      * rewrite Hk, elem_of_frozenset2. destruct Hj as [[? ?]|[? ?]]; auto.
      * split; [done|]. symmetry. by apply joins_other.
  - reflexivity.
Qed.

Lemma neighbors_spec_witness :
  graph_inv scenario_C ∧ NoDup (Graph.neighbors scenario_C "X" true false).
Proof.
  assert (Hinv : graph_inv scenario_C) by by_evaluation.
  split; [exact Hinv|].
  apply (proj1 (proj2 neighbors_spec) scenario_C "X" true false Hinv).
Defined.

(** *** [connect] *)

(** C4: [connect(a, b, distance, time, accessible)] raises the
    missing-endpoint error when [a] or [b] is not a node; with both
    present, the self-loop error when [a = b]; with both present and
    distinct, the duplicate-edge error when the unordered pair already has
    an edge; otherwise it returns after adding, at the end of the edge
    table, the edge from [a] to [b] with [closed = false].  Whenever it
    raises, the graph is the one it was called on. *)
Theorem connect_spec (g : Graph.t) (a b : string) (distance time : Q) (accessible : bool) :
  let r := Graph.connect a b distance time accessible g in
  let present n := is_Some (Graph.nodes g !! n) in
  (¬ present a ∨ ¬ present b → r = (inl MissingEndpointError, g)) ∧
  (present a → present b → a = b → r = (inl SelfLoopError, g)) ∧
  (present a → present b → a ≠ b →
     is_Some (Graph.get_edge g a b) ∨ is_Some (Graph.get_edge g b a) →
     r = (inl DuplicateEdgeError, g)) ∧
  (present a → present b → a ≠ b → Graph.get_edge g a b = None →
     r = (inr tt,
          Graph.mk (Graph.nodes g)
            (Graph.edges g ++
               [(frozenset2 a b, Edge.mk a b distance time accessible false)]))) ∧
  (∀ err, r.1 = inl err → r.2 = g).
Proof.
  intros r present. subst r. rewrite connect_run. unfold present.
  rewrite <- !has_node_spec. unfold Graph.get_edge.
  rewrite <- (frozenset2_comm a b), dict_get_None, dict_get_is_Some, <- dict_mem_spec.
  destruct (Graph.has_node g a), (Graph.has_node g b); simpl;
    try (repeat split; try done; naive_solver).
  case_bool_decide; simpl; [repeat split; try done; naive_solver|].
  destruct (dict_mem _ _); simpl; repeat split; try done; naive_solver.
Qed.

Lemma connect_spec_witness :
  Graph.connect "X" "Z" 3 4 true scenario_A =
    (inr tt, Graph.mk (Graph.nodes scenario_A)
       (Graph.edges scenario_A ++ [(frozenset2 "X" "Z", Edge.mk "X" "Z" 3 4 true false)])) ∧
  Graph.connect "X" "Y" 3 4 true scenario_A = (inl DuplicateEdgeError, scenario_A) ∧
  Graph.connect "X" "X" 3 4 true scenario_A = (inl SelfLoopError, scenario_A) ∧
  Graph.connect "X" "W" 3 4 true scenario_A = (inl MissingEndpointError, scenario_A).
Proof.
  split; [|split; [|split]].
  - pose proof (connect_spec scenario_A "X" "Z" 3 4 true) as H. cbv zeta in H.
    apply H; by_evaluation.
  - pose proof (connect_spec scenario_A "X" "Y" 3 4 true) as H. cbv zeta in H.
    apply H; by_evaluation.
  - pose proof (connect_spec scenario_A "X" "X" 3 4 true) as H. cbv zeta in H.
    apply H; by_evaluation.
  - pose proof (connect_spec scenario_A "X" "W" 3 4 true) as H. cbv zeta in H.
    apply H. by_evaluation.
Defined.

(** *** [remove_node] *)

(** C7: [remove_node(name)] returns without an exception and without any
    change when [name] is not a node; otherwise it takes [name] out of the
    node table and drops from the edge table the entries whose key contains
    [name], keeping the others in their order.  On a graph that satisfies
    the invariants the dropped entries are those of the edges with [name] as
    an endpoint, and afterwards no neighbour query, for any node and any
    filter setting, returns [name]. *)
Theorem remove_node_spec (g : Graph.t) (name : string) :
  (Graph.nodes g !! name = None → Graph.remove_node name g = (inr tt, g)) ∧
  (is_Some (Graph.nodes g !! name) →
     Graph.remove_node name g =
       (inr tt, Graph.mk (delete name (Graph.nodes g))
                  (filter (λ ke, name ∉ ke.1) (Graph.edges g)))) ∧
  (graph_inv g →
     let g' := Eff.state_after (Graph.remove_node name) g in
     graph_inv g' ∧
     Graph.nodes g' !! name = None ∧
     (is_Some (Graph.nodes g !! name) →
      ∀ k e, (k, e) ∈ Graph.edges g' ↔
             (k, e) ∈ Graph.edges g ∧ Edge.a e ≠ name ∧ Edge.b e ≠ name) ∧
     (∀ n' ao ac, name ∉ Graph.neighbors g' n' ao ac)).
Proof.
  split; [|split].
  - intros Habs. rewrite remove_node_run. apply has_node_false in Habs. by rewrite Habs.
  - intros Hpres. rewrite remove_node_run. apply has_node_spec in Hpres. by rewrite Hpres.
  - intros Hinv g'.
    assert (Hinv' : graph_inv g') by by apply remove_node_inv.
    assert (Hgone : Graph.nodes g' !! name = None).
    { subst g'. unfold Eff.state_after. rewrite remove_node_run.
      destruct (Graph.has_node g name) eqn:Hh; simpl.
      - apply lookup_delete_eq.
      - by apply has_node_false. }
    split; [done|]. split; [done|]. split.
    + intros Hpres k e. subst g'. unfold Eff.state_after. rewrite remove_node_run.
      apply has_node_spec in Hpres. rewrite Hpres. simpl.
      rewrite list_elem_of_filter. simpl. split.
      * intros [Hn Hin]. split; [done|].
        destruct (graph_inv_elem _ _ _ Hinv Hin) as (Hk & _).
        rewrite Hk, elem_of_frozenset2 in Hn. split; intros Heq; apply Hn; auto.
      * intros (Hin & Ha & Hb). split; [|done].
        destruct (graph_inv_elem _ _ _ Hinv Hin) as (Hk & _).
        rewrite Hk, elem_of_frozenset2. intros [?|?]; congruence.
    + intros n' ao ac Hv. apply elem_of_neighbors in Hv as (k & e & Hin & Hn & _ & Hv).
      destruct (graph_inv_elem _ _ _ Hinv' Hin) as (_ & _ & Ha & Hb).
      destruct (other_endpoint e n') as [Ho|Ho]; rewrite <- Hv in Ho;
        rewrite <- Ho, Hgone in *; by destruct Ha, Hb.
Qed.

Lemma remove_node_spec_witness :
  graph_inv triangle ∧ is_Some (Graph.nodes triangle !! "C") ∧
  ∀ n' ao ac,
    "C" ∉ Graph.neighbors (Eff.state_after (Graph.remove_node "C") triangle) n' ao ac.
Proof.
  assert (Hinv : graph_inv triangle) by by_evaluation.
  split; [exact Hinv|]. split; [by_evaluation|].
  apply (proj2 (proj2 (remove_node_spec triangle "C")) Hinv).
Defined.

(** *** A search whose goal is its start *)

(** C10: with [goal] equal to [start], [bfs] and [dfs] both return the path
    [[start]] with the visited order [[start]], for every graph (also one
    without edges at [start] or without a node called [start]) and every
    filter setting; no neighbour query is made on the way. *)
Theorem search_from_goal (g : Graph.t) (start : string) (ao ac : bool) :
  bfs g start start ao ac = Some (Some [start], [start]) ∧
  dfs g start start ao ac = Some (Some [start], [start]).
Proof.
  split.
  - unfold bfs, bfs_fuel. rewrite Nat.add_comm. simpl.
    rewrite decide_True by done. rewrite map_size_singleton. simpl.
    by rewrite lookup_singleton_eq.
  - unfold dfs, dfs_fuel. rewrite Nat.add_comm. simpl.
    rewrite decide_False by set_solver. by rewrite decide_True.
Qed.


(** ** The order on names and [sort(reverse=True)] *)

Lemma ascii_compare_refl c : Ascii.compare c c = Eq.
Proof. unfold Ascii.compare. apply N.compare_refl. Qed.

Lemma ascii_compare_Lt_trans c1 c2 c3 :
  Ascii.compare c1 c2 = Lt → Ascii.compare c2 c3 = Lt → Ascii.compare c1 c3 = Lt.
Proof. unfold Ascii.compare. rewrite !N.compare_lt_iff. apply N.lt_trans. Qed.

Lemma string_compare_refl s : String.compare s s = Eq.
Proof. induction s as [|c s IH]; simpl; [done|]. by rewrite ascii_compare_refl. Qed.

Lemma string_compare_Lt_trans s1 s2 s3 :
  String.compare s1 s2 = Lt → String.compare s2 s3 = Lt → String.compare s1 s3 = Lt.
Proof.
  revert s2 s3. induction s1 as [|c1 s1 IH]; intros [|c2 s2] [|c3 s3]; simpl; try done.
  destruct (Ascii.compare c1 c2) eqn:H12; [| |done].
  - apply Ascii.compare_eq_iff in H12 as ->.
    destruct (Ascii.compare c2 c3); [apply IH | done | done].
  - intros _. destruct (Ascii.compare c2 c3) eqn:H23; [| |done].
    + apply Ascii.compare_eq_iff in H23 as <-. by rewrite H12.
    + intros _. by rewrite (ascii_compare_Lt_trans _ _ _ H12 H23).
Qed.

Lemma str_ge_spec x y : str_ge x y ↔ x = y ∨ String.compare y x = Lt.
Proof.
  unfold str_ge, String.leb. destruct (String.compare y x) eqn:Hc.
  - apply String.compare_eq_iff in Hc. naive_solver.
  - naive_solver.
  - split; [done|]. intros [->|?]; [|done]. by rewrite string_compare_refl in Hc.
Qed.

#[global] Instance str_ge_refl : Reflexive str_ge.
Proof. intros x. apply str_ge_spec. by left. Qed.

#[global] Instance str_ge_trans : Transitive str_ge.
Proof.
  intros x y z. rewrite !str_ge_spec. intros [->|Hxy] [->|Hyz]; auto.
  right. by apply (string_compare_Lt_trans z y x).
Qed.

#[global] Instance str_ge_total : Total str_ge.
Proof. intros x y. unfold str_ge. destruct (String.leb_total x y); auto. Qed.

#[global] Instance str_ge_antisym : AntiSymm eq str_ge.
Proof. intros x y Hxy Hyx. by apply String.leb_antisym. Qed.

Lemma sort_desc_Permutation l : sort_desc l ≡ₚ l.
Proof. apply merge_sort_Permutation. Qed.

Lemma sort_desc_Sorted l : StronglySorted str_ge (sort_desc l).
Proof. apply StronglySorted_merge_sort; apply _. Qed.

Lemma elem_of_sort_desc x l : x ∈ sort_desc l ↔ x ∈ l.
Proof. by rewrite sort_desc_Permutation. Qed.

(** The sorted list depends on the elements only, not on the order in
    which they come. *)
Lemma sort_desc_unique l1 l2 : l1 ≡ₚ l2 → sort_desc l1 = sort_desc l2.
Proof.
  intros Hp. apply (StronglySorted_unique str_ge); [apply sort_desc_Sorted ..|].
  by rewrite !sort_desc_Permutation.
Qed.

Lemma StronglySorted_filter {A} (R : relation A) (P : A → Prop) `{∀ x, Decision (P x)} l :
  StronglySorted R l → StronglySorted R (filter P l).
Proof.
  induction 1 as [|x l Hl IH Hx]; [constructor|].
  destruct (decide (P x)).
  - rewrite filter_cons_True by done. constructor; [done|].
    apply Forall_forall. intros y Hy. apply list_elem_of_filter in Hy as [_ Hy].
    rewrite Forall_forall in Hx. auto.
  - by rewrite filter_cons_False.
Qed.

(** Filtering and sorting commute. *)
Lemma filter_sort_desc (P : string → Prop) `{∀ x, Decision (P x)} l :
  filter P (sort_desc l) = sort_desc (filter P l).
Proof.
  apply (StronglySorted_unique str_ge).
  - apply StronglySorted_filter, sort_desc_Sorted.
  - apply sort_desc_Sorted.
  - by rewrite !sort_desc_Permutation.
Qed.


(** ** Walks and visiting orders *)

Lemma walk_mono (R R' : string → string → Prop) u p v :
  (∀ x y, R x y → R' x y) → walk R u p v → walk R' u p v.
Proof. intros HR. induction 1; [constructor | econstructor; eauto]. Qed.

Lemma walk_length R u p v : walk R u p v → 0 < length p.
Proof. destruct 1; [simpl; lia | rewrite length_app; simpl; lia]. Qed.

(** A walk read as a list: it starts at [u], ends at [v], and each two
    consecutive entries are related. *)
Lemma walk_consecutive R u p v :
  walk R u p v ↔
  head p = Some u ∧ last p = Some v ∧
  ∀ i x y, p !! i = Some x → p !! S i = Some y → R x y.
Proof.
  split.
  - induction 1 as [|p v w Hw (Hh & Hl & Hc) HR].
    + split; [done|]. split; [done|]. intros i x y _ Hy.
      by destruct i.
    + split; [|split].
      * destruct p; [done|]. done.
      * by rewrite last_snoc.
      * intros i x y Hx Hy.
        assert (Hlen : S i < length (p ++ [w])) by by eapply lookup_lt_Some.
        rewrite length_app in Hlen. simpl in Hlen.
        rewrite lookup_app_l in Hx by lia.
        destruct (decide (S i < length p)) as [Hlt|Hge].
        -- rewrite lookup_app_l in Hy by lia. eauto.
        -- rewrite lookup_app_r in Hy by lia.
           replace (S i - length p) with 0 in Hy by lia. injection Hy as <-.
           rewrite last_lookup in Hl. replace (pred (length p)) with i in Hl by lia.
           congruence.
  - revert v. induction p as [|w p IH] using rev_ind; intros v (Hh & Hl & Hc); [done|].
    rewrite last_snoc in Hl. injection Hl as ->.
    destruct p as [|x p _] using rev_ind.
    + simpl in Hh. injection Hh as ->. constructor.
    + apply (walk_step R u (p ++ [x]) x).
      * apply IH. split; [|split].
        -- by destruct p.
        -- by rewrite last_snoc.
        -- intros i a b Ha Hb. apply (Hc i).
           ++ apply lookup_app_l_Some, Ha.
           ++ apply lookup_app_l_Some, Hb.
      * apply (Hc (length p)).
        -- rewrite <- app_assoc. simpl. by apply list_lookup_middle.
        -- rewrite lookup_app_r; rewrite length_app; simpl; [|lia].
           by replace (S (length p) - (length p + 1)) with 0 by lia.
Qed.

Lemma reached_in_order_nil R s : reached_in_order R s [].
Proof. intros i v Hi. done. Qed.

Lemma reached_in_order_snoc R s l v :
  reached_in_order R s l → (v = s ∨ ∃ u, u ∈ l ∧ R u v) →
  reached_in_order R s (l ++ [v]).
Proof.
  intros Hl Hv i x Hi. destruct (decide (i < length l)) as [Hlt|Hge].
  - rewrite lookup_app_l in Hi by done.
    destruct (Hl i x Hi) as [?|(j & u & ? & ? & ?)]; [by left|].
    right. exists j, u. split; [done|]. split; [|done].
    by apply lookup_app_l_Some.
  - rewrite lookup_app_r in Hi by lia.
    apply list_lookup_singleton_Some in Hi as [_ <-].
    destruct Hv as [?|(u & Hu & ?)]; [by left|]. right.
    apply list_elem_of_lookup in Hu as [j Hj]. exists j, u.
    split; [apply lookup_lt_Some in Hj; lia|]. split; [|done].
    by apply lookup_app_l_Some.
Qed.

Lemma reached_in_order_mono (R R' : string → string → Prop) s l :
  (∀ x y, R x y → R' x y) → reached_in_order R s l → reached_in_order R' s l.
Proof.
  intros HR Hl i v Hi. destruct (Hl i v Hi) as [?|(j & u & ? & ? & ?)]; [by left|].
  right. exists j, u. auto.
Qed.

(** ** The names a search can meet *)

Lemma neighbors_endpoints g u ao ac v :
  v ∈ Graph.neighbors g u ao ac → v ∈ endpoints g.
Proof.
  intros Hv. apply elem_of_neighbors in Hv as (k & e & Hin & _ & _ & ->).
  unfold endpoints. apply list_elem_of_bind. exists (k, e). split; [|done]. simpl.
  destruct (other_endpoint e u) as [-> | ->]; set_solver.
Qed.

Lemma neighbors_universe g start u ao ac v :
  v ∈ Graph.neighbors g u ao ac → v ∈ universe g start.
Proof.
  intros Hv. unfold universe. apply elem_of_union_r, elem_of_list_to_set.
  by eapply neighbors_endpoints.
Qed.

Lemma length_endpoints g : length (endpoints g) = 2 * length (Graph.edges g).
Proof.
  unfold endpoints. induction (Graph.edges g) as [|ke es IH]; [done|].
  rewrite bind_cons, length_app, IH. simpl. lia.
Qed.

Lemma size_list_to_set_le (l : list string) : size (list_to_set l : gset string) ≤ length l.
Proof.
  induction l as [|x l IH].
  - rewrite list_to_set_nil, size_empty. simpl. lia.
  - rewrite list_to_set_cons, size_union_alt, size_singleton.
    assert (size (list_to_set l ∖ {[x]} : gset string) ≤ size (list_to_set l : gset string)).
    { apply subseteq_size. set_solver. }
    simpl. lia.
Qed.

Lemma size_universe g start : size (universe g start) ≤ 2 * length (Graph.edges g) + 1.
Proof.
  unfold universe. rewrite size_union_alt, size_singleton.
  pose proof (size_list_to_set_le (endpoints g)) as Hle.
  rewrite length_endpoints in Hle.
  assert (size (list_to_set (endpoints g) ∖ {[start]} : gset string) ≤
          size (list_to_set (endpoints g) : gset string)).
  { apply subseteq_size. set_solver. }
  lia.
Qed.

(** Marking a name of the universe as visited shrinks what is left. *)
Lemma size_unvisited_step (U visited : gset string) x :
  x ∈ U → x ∉ visited →
  size (U ∖ visited) = S (size (U ∖ ({[x]} ∪ visited))).
Proof.
  intros HU Hx.
  assert (U ∖ visited = {[x]} ∪ U ∖ ({[x]} ∪ visited)) as ->.
  { apply set_eq. intros y. rewrite elem_of_union, !elem_of_difference,
      elem_of_union, elem_of_singleton.
    destruct (decide (y = x)) as [->|]; naive_solver. }
  rewrite size_union by set_solver. by rewrite size_singleton.
Qed.

(** ** Depth-first search *)

(** The push loop adds, on top of the stack and in reverse, the entries of
    the neighbours that are not visited. *)
Lemma dfs_push_eq visited path nb_list stack :
  dfs_push visited path nb_list stack =
  reverse (extend path <$> filter (λ nb, nb ∉ visited) nb_list) ++ stack.
Proof.
  revert stack. induction nb_list as [|nb nbs IH]; intros stack; simpl; [done|].
  case_decide as Hv.
  - rewrite filter_cons_False by auto. apply IH.
  - rewrite filter_cons_True by done. rewrite IH, fmap_cons, reverse_cons.
    by rewrite <- app_assoc.
Qed.

Lemma length_dfs_push visited path nb_list stack :
  length (dfs_push visited path nb_list stack) ≤ length nb_list + length stack.
Proof.
  rewrite dfs_push_eq, length_app, length_reverse, length_fmap.
  pose proof (length_filter (λ nb, nb ∉ visited) nb_list). lia.
Qed.

Lemma length_sorted_neighbors g u ao ac :
  length (sort_desc (Graph.neighbors g u ao ac)) ≤ length (Graph.edges g).
Proof.
  rewrite (Permutation_length (sort_desc_Permutation _)).
  apply length_neighbors_items.
Qed.

(** The bookkeeping behind [dfs_fuel]. *)
Lemma dfs_measure_step (U visited : gset string) cur n_edges rest pushed fuel :
  cur ∈ U → cur ∉ visited → pushed ≤ n_edges + rest →
  S rest + size (U ∖ visited) * (n_edges + 1) < S fuel →
  pushed + size (U ∖ ({[cur]} ∪ visited)) * (n_edges + 1) < fuel.
Proof.
  intros HU Hv Hp. rewrite (size_unvisited_step U visited cur HU Hv).
  simpl. lia.
Qed.

Lemma dfs_fuel_enough g start :
  1 + size (universe g start ∖ ∅) * (length (Graph.edges g) + 1) < dfs_fuel g.
Proof.
  unfold dfs_fuel. rewrite difference_empty_L.
  pose proof (size_universe g start) as Hs.
  apply (Nat.mul_le_mono_r _ _ (length (Graph.edges g) + 1)) in Hs. lia.
Qed.

(** The loop returns as soon as the fuel exceeds the measure. *)
Lemma dfs_loop_returns g start goal ao ac fuel visited stack visited_order :
  (∀ e, e ∈ stack → e.1 ∈ universe g start) →
  length stack + size (universe g start ∖ visited) * (length (Graph.edges g) + 1) < fuel →
  is_Some (dfs_loop fuel g goal ao ac visited stack visited_order).
Proof.
  revert visited stack visited_order.
  induction fuel as [|fuel IH]; intros visited stack vo HU Hm; [lia|].
  destruct stack as [|[cur path] stack]; simpl; [done|].
  assert (HU' : ∀ e, e ∈ stack → e.1 ∈ universe g start).
  { intros e He. apply HU. by right. }
  case_decide as Hv.
  - apply IH; [done|]. simpl in Hm. lia.
  - case_decide as Hg; [done|]. apply IH.
    + intros e. rewrite dfs_push_eq, elem_of_app, elem_of_reverse, list_elem_of_fmap.
      intros [(nb & -> & Hnb)|He]; [|by apply HU']. simpl.
      apply list_elem_of_filter in Hnb as [_ Hnb].
      rewrite elem_of_sort_desc in Hnb. by eapply neighbors_universe.
    + apply (dfs_measure_step _ _ cur _ (length stack)).
      * apply (HU (cur, path)). left.
      * done.
      * etrans; [apply length_dfs_push|].
        pose proof (length_sorted_neighbors g cur ao ac). lia.
      * exact Hm.
Qed.

Lemma dfs_returns g start goal ao ac : is_Some (dfs g start goal ao ac).
Proof.
  unfold dfs. apply (dfs_loop_returns g start).
  - intros e He. apply list_elem_of_singleton in He as ->. unfold universe. set_solver.
  - apply dfs_fuel_enough.
Qed.

(** *** The search as the specification words it *)

Lemma dfs_loop_spec_loop fuel g goal ao ac visited stack visited_order :
  dfs_loop fuel g goal ao ac visited stack visited_order =
  dfs_spec_loop fuel g goal ao ac visited stack visited_order.
Proof.
  revert visited stack visited_order.
  induction fuel as [|fuel IH]; intros visited stack vo; simpl; [done|].
  destruct stack as [|[cur path] stack]; [done|].
  case_decide; [apply IH|]. case_decide; [done|].
  rewrite dfs_push_eq, filter_sort_desc. apply IH.
Qed.


(** *** One round of the loops *)

Section DfsRounds.
Context (g : Graph.t) (goal : string) (ao ac : bool).
Implicit Types (visited : gset string) (stack : list (string * list string)).

Lemma dfs_loop_skip fuel visited cur path stack vo :
  cur ∈ visited →
  dfs_loop (S fuel) g goal ao ac visited ((cur, path) :: stack) vo =
  dfs_loop fuel g goal ao ac visited stack vo.
Proof. intros Hv. simpl. by rewrite decide_True. Qed.

Lemma dfs_loop_visit fuel visited cur path stack vo :
  cur ∉ visited →
  dfs_loop (S fuel) g goal ao ac visited ((cur, path) :: stack) vo =
  if decide (cur = goal) then Some (Some path, vo ++ [cur])
  else dfs_loop fuel g goal ao ac ({[cur]} ∪ visited)
         (reverse (extend path <$>
            filter (λ nb, nb ∉ {[cur]} ∪ visited)
              (sort_desc (Graph.neighbors g cur ao ac))) ++ stack)
         (vo ++ [cur]).
Proof. intros Hv. simpl. rewrite decide_False by done. by rewrite dfs_push_eq. Qed.

Lemma dfs_pop_loop_skip fuel visited cur path stack vo :
  cur ∈ visited →
  dfs_pop_loop (S fuel) g goal ao ac visited ((cur, path) :: stack) vo =
  dfs_pop_loop fuel g goal ao ac visited stack vo.
Proof. intros Hv. simpl. by rewrite decide_True. Qed.

Lemma dfs_pop_loop_visit fuel visited cur path stack vo :
  cur ∉ visited →
  dfs_pop_loop (S fuel) g goal ao ac visited ((cur, path) :: stack) vo =
  if decide (cur = goal) then Some (Some path, vo ++ [cur])
  else dfs_pop_loop fuel g goal ao ac ({[cur]} ∪ visited)
         (reverse (extend path <$> sort_desc (Graph.neighbors g cur ao ac)) ++ stack)
         (vo ++ [cur]).
Proof. intros Hv. simpl. by rewrite decide_False by done. Qed.

(** *** The search with the visited test at pop time only *)

Lemma fresh_cons_stale visited cur path stack :
  cur ∈ visited → fresh visited ((cur, path) :: stack) = fresh visited stack.
Proof. intros Hv. unfold fresh. rewrite filter_cons_False; [done | simpl; auto]. Qed.

Lemma fresh_cons_fresh visited cur path stack :
  cur ∉ visited → fresh visited ((cur, path) :: stack) = (cur, path) :: fresh visited stack.
Proof. intros Hv. unfold fresh. by rewrite filter_cons_True. Qed.

Lemma fresh_extend visited path l :
  fresh visited (reverse (extend path <$> l)) =
  reverse (extend path <$> filter (λ nb, nb ∉ visited) l).
Proof.
  unfold fresh. rewrite filter_reverse. f_equal.
  induction l as [|nb l IH]; [done|]. rewrite fmap_cons.
  destruct (decide (nb ∈ visited)).
  - rewrite !filter_cons_False; [done | auto | simpl; auto].
  - rewrite !filter_cons_True by done. rewrite fmap_cons. by f_equal.
Qed.

(** More visited names make more stale entries. *)
Lemma fresh_more visited visited' stack1 stack2 :
  visited ⊆ visited' → fresh visited stack1 = fresh visited stack2 →
  fresh visited' stack1 = fresh visited' stack2.
Proof.
  intros Hsub Heq. unfold fresh in *.
  rewrite <- (list_filter_filter_l (λ e, e.1 ∉ visited') (λ e, e.1 ∉ visited) stack1)
    by set_solver.
  rewrite <- (list_filter_filter_l (λ e, e.1 ∉ visited') (λ e, e.1 ∉ visited) stack2)
    by set_solver.
  by rewrite Heq.
Qed.

(** Two stacks with the same fresh entries lead both loops to the same
    result: the entries that only one of them holds are stale and get
    dropped when they are popped. *)
Lemma dfs_pop_simulation m :
  ∀ fuel1 fuel2 visited stack1 stack2 vo r1 r2,
    fuel1 + fuel2 ≤ m →
    fresh visited stack1 = fresh visited stack2 →
    dfs_loop fuel1 g goal ao ac visited stack1 vo = Some r1 →
    dfs_pop_loop fuel2 g goal ao ac visited stack2 vo = Some r2 →
    r1 = r2.
Proof.
  induction m as [|m IH]; intros fuel1 fuel2 visited stack1 stack2 vo r1 r2 Hm Hfresh H1 H2.
  { destruct fuel1; [done | lia]. }
  destruct fuel1 as [|fuel1]; [done|]. destruct fuel2 as [|fuel2]; [done|].
  destruct stack1 as [|[cur1 path1] stack1].
  - destruct stack2 as [|[cur2 path2] stack2].
    + simpl in H1, H2. congruence.
    + destruct (decide (cur2 ∈ visited)) as [Hv|Hv].
      * rewrite dfs_pop_loop_skip in H2 by done.
        rewrite fresh_cons_stale in Hfresh by done.
        apply (IH (S fuel1) fuel2 visited [] stack2 vo); [lia | done ..].
      * by rewrite fresh_cons_fresh in Hfresh.
  - destruct (decide (cur1 ∈ visited)) as [Hv1|Hv1].
    { rewrite dfs_loop_skip in H1 by done.
      rewrite fresh_cons_stale in Hfresh by done.
      apply (IH fuel1 (S fuel2) visited stack1 stack2 vo); [lia | done ..]. }
    rewrite fresh_cons_fresh in Hfresh by done.
    destruct stack2 as [|[cur2 path2] stack2]; [done|].
    destruct (decide (cur2 ∈ visited)) as [Hv2|Hv2].
    { rewrite dfs_pop_loop_skip in H2 by done.
      rewrite fresh_cons_stale in Hfresh by done.
      apply (IH (S fuel1) fuel2 visited ((cur1, path1) :: stack1) stack2 vo);
        [lia | by rewrite fresh_cons_fresh | done ..]. }
    rewrite fresh_cons_fresh in Hfresh by done.
    injection Hfresh as <- <- Hfresh.
    rewrite dfs_loop_visit in H1 by done. rewrite dfs_pop_loop_visit in H2 by done.
    case_decide; [congruence|].
    refine (IH fuel1 fuel2 _ _ _ _ r1 r2 _ _ H1 H2); [lia|].
    unfold fresh. rewrite !filter_app. f_equal.
    + fold (fresh ({[cur1]} ∪ visited)
              (reverse (extend path1 <$>
                 filter (λ nb, nb ∉ {[cur1]} ∪ visited)
                   (sort_desc (Graph.neighbors g cur1 ao ac))))).
      fold (fresh ({[cur1]} ∪ visited)
              (reverse (extend path1 <$> sort_desc (Graph.neighbors g cur1 ao ac)))).
      rewrite !fresh_extend. do 2 f_equal.
      apply list_filter_filter_l. auto.
    + apply (fresh_more visited); [set_solver | done].
Qed.

Lemma dfs_pop_loop_returns start fuel visited stack visited_order :
  (∀ e, e ∈ stack → e.1 ∈ universe g start) →
  length stack + size (universe g start ∖ visited) * (length (Graph.edges g) + 1) < fuel →
  is_Some (dfs_pop_loop fuel g goal ao ac visited stack visited_order).
Proof.
  revert visited stack visited_order.
  induction fuel as [|fuel IH]; intros visited stack vo HU Hm; [lia|].
  destruct stack as [|[cur path] stack]; simpl; [done|].
  assert (HU' : ∀ e, e ∈ stack → e.1 ∈ universe g start).
  { intros e He. apply HU. by right. }
  case_decide as Hv.
  - apply IH; [done|]. simpl in Hm. lia.
  - case_decide as Hg; [done|]. apply IH.
    + intros e. rewrite elem_of_app, elem_of_reverse, list_elem_of_fmap.
      intros [(nb & -> & Hnb)|He]; [|by apply HU']. simpl.
      rewrite elem_of_sort_desc in Hnb. by eapply neighbors_universe.
    + apply (dfs_measure_step _ _ cur _ (length stack)).
      * apply (HU (cur, path)). left.
      * done.
      * rewrite length_app, length_reverse, length_fmap.
        pose proof (length_sorted_neighbors g cur ao ac). lia.
      * exact Hm.
Qed.

(** *** What the search returns *)

(** Every stack entry carries a walk from [start] to its node, and its
    node was offered by a name visited before; so the returned path is a
    walk to [goal] and the visited order is reached in order. *)
Lemma dfs_loop_sound start fuel visited stack vo r :
  (∀ n p, (n, p) ∈ stack →
     walk (adjacent g ao ac) start p n ∧
     (n = start ∨ ∃ u, u ∈ vo ∧ adjacent g ao ac u n)) →
  reached_in_order (adjacent g ao ac) start vo →
  dfs_loop fuel g goal ao ac visited stack vo = Some r →
  (∀ p, r.1 = Some p → walk (adjacent g ao ac) start p goal) ∧
  reached_in_order (adjacent g ao ac) start r.2.
Proof.
  revert visited stack vo.
  induction fuel as [|fuel IH]; intros visited stack vo Hst Hvo Hr; [done|].
  destruct stack as [|[cur path] stack].
  { simpl in Hr. injection Hr as <-. simpl. by split. }
  assert (Hst' : ∀ n p, (n, p) ∈ stack →
     walk (adjacent g ao ac) start p n ∧
     (n = start ∨ ∃ u, u ∈ vo ∧ adjacent g ao ac u n)).
  { intros n p Hin. apply Hst. by right. }
  destruct (Hst cur path) as [Hwalk Hfrom]; [left|].
  destruct (decide (cur ∈ visited)) as [Hv|Hv].
  { rewrite dfs_loop_skip in Hr by done. by apply (IH visited stack vo). }
  rewrite dfs_loop_visit in Hr by done.
  assert (Hvo' : reached_in_order (adjacent g ao ac) start (vo ++ [cur])).
  { by apply reached_in_order_snoc. }
  case_decide as Hg.
  { injection Hr as <-. simpl. split; [|done]. intros p [= <-]. by subst cur. }
  apply (IH _ _ _) in Hr; [done | | done].
  intros n p. rewrite elem_of_app, elem_of_reverse, list_elem_of_fmap.
  intros [(nb & [= -> ->] & Hnb)|Hin].
  - apply list_elem_of_filter in Hnb as [_ Hnb]. rewrite elem_of_sort_desc in Hnb.
    split; [by apply (walk_step _ _ path cur)|].
    right. exists cur. split; [|done]. apply elem_of_app. right. left.
  - destruct (Hst' n p Hin) as [? [?|(u & ? & ?)]]; split; auto.
    right. exists u. split; [|done]. apply elem_of_app. by left.
Qed.
End DfsRounds.

(** The depth-first search reads the edge table through sorted neighbour
    lists only, so the order of the table is immaterial. *)
Lemma dfs_loop_edges_Permutation fuel g1 g2 goal ao ac visited stack vo :
  Graph.edges g1 ≡ₚ Graph.edges g2 →
  dfs_loop fuel g1 goal ao ac visited stack vo =
  dfs_loop fuel g2 goal ao ac visited stack vo.
Proof.
  intros Hp. revert visited stack vo.
  induction fuel as [|fuel IH]; intros visited stack vo; simpl; [done|].
  destruct stack as [|[cur path] stack]; [done|].
  case_decide; [apply IH|]. case_decide; [done|].
  rewrite (sort_desc_unique (Graph.neighbors g1 cur ao ac) (Graph.neighbors g2 cur ao ac)).
  - apply IH.
  - by apply neighbors_items_Permutation.
Qed.


Lemma dfs_pop_returns g start goal ao ac : is_Some (dfs_pop g start goal ao ac).
Proof.
  unfold dfs_pop. apply (dfs_pop_loop_returns g goal ao ac start).
  - intros e He. apply list_elem_of_singleton in He as ->. unfold universe. set_solver.
  - apply dfs_fuel_enough.
Qed.

(** *** The code against the two readings of the specification *)

(** C5: on every graph, start, goal and filter setting the depth-first
    search of the code returns, and what it returns (path and visited
    order) is what the search of the specification returns, which starts
    with an empty visited set, tests membership when an entry is popped,
    skips an entry whose node is visited, and otherwise sorts the
    unvisited neighbours in descending order and pushes an entry
    [(neighbour, path + [neighbour])] for each; it is also what the search
    returns that pushes every neighbour and tests at pop time only.  A node
    can be on the stack more than once: in the triangle A-B, A-C, B-C the
    second round leaves two entries for C, neither visited. *)
Theorem dfs_refines_spec :
  (∀ g start goal ao ac,
     ∃ r, dfs g start goal ao ac = Some r ∧
          dfs_spec g start goal ao ac = Some r ∧
          dfs_pop g start goal ao ac = Some r) ∧
  (∀ fuel,
     dfs_loop (S (S fuel)) triangle "D" false false ∅ [("A", ["A"])] [] =
     dfs_loop fuel triangle "D" false false ({["B"]} ∪ ({["A"]} ∪ ∅))
       [("C", ["A"; "B"; "C"]); ("C", ["A"; "C"])] ["A"; "B"]).
Proof.
  split.
  - intros g start goal ao ac.
    destruct (dfs_returns g start goal ao ac) as [r Hr].
    destruct (dfs_pop_returns g start goal ao ac) as [r' Hr'].
    exists r. split; [done|]. split.
    + unfold dfs_spec. by rewrite <- dfs_loop_spec_loop.
    + rewrite Hr'. f_equal. symmetry.
      by apply (dfs_pop_simulation g goal ao ac (dfs_fuel g + dfs_fuel g)
                  (dfs_fuel g) (dfs_fuel g) ∅ [(start, [start])] [(start, [start])] []).
  - intros fuel.
    rewrite dfs_loop_visit by set_solver. rewrite decide_False by done.
    assert (reverse (extend ["A"] <$>
              filter (λ nb, nb ∉ ({["A"]} ∪ ∅ : gset string))
                (sort_desc (Graph.neighbors triangle "A" false false))) ++ [] =
            [("B", ["A"; "B"]); ("C", ["A"; "C"])]) as -> by (vm_compute; reflexivity).
    rewrite dfs_loop_visit by set_solver. rewrite decide_False by done.
    assert (reverse (extend ["A"; "B"] <$>
              filter (λ nb, nb ∉ ({["B"]} ∪ ({["A"]} ∪ ∅) : gset string))
                (sort_desc (Graph.neighbors triangle "B" false false))) ++
              [("C", ["A"; "C"])] =
            [("C", ["A"; "B"; "C"]); ("C", ["A"; "C"])]) as -> by (vm_compute; reflexivity).
    done.
Qed.

(** *** Determinism *)

(** C8: two calls of [dfs] with the same start, goal and filter setting on
    graphs whose edge tables hold the same entries (in whatever order they
    were inserted) return the same path and the same visited order; in
    particular two calls on one graph do. *)
Theorem dfs_deterministic (g1 g2 : Graph.t) (start goal : string) (ao ac : bool) :
  Graph.edges g1 ≡ₚ Graph.edges g2 →
  ∃ path visited_order,
    dfs g1 start goal ao ac = Some (path, visited_order) ∧
    dfs g2 start goal ao ac = Some (path, visited_order).
Proof.
  intros Hp. destruct (dfs_returns g1 start goal ao ac) as [[path vo] Hr].
  exists path, vo. split; [done|]. etrans; [|exact Hr]. unfold dfs, dfs_fuel.
  rewrite (Permutation_length Hp). symmetry. by apply dfs_loop_edges_Permutation.
Qed.

Lemma dfs_deterministic_witness :
  ∃ path visited_order,
    dfs triangle "A" "D" false false = Some (path, visited_order) ∧
    dfs (Graph.mk (Graph.nodes triangle) (reverse (Graph.edges triangle)))
      "A" "D" false false = Some (path, visited_order).
Proof.
  apply (dfs_deterministic triangle
           (Graph.mk (Graph.nodes triangle) (reverse (Graph.edges triangle)))).
  simpl. symmetry. apply reverse_Permutation.
Defined.


(** ** Breadth-first search *)

Section BfsInvariant.
Context (R : string → string → Prop) (start goal : string).
Implicit Types (d : string → nat) (visited : gset string) (q : list string).
Implicit Types (parent : gmap string (option string)).

Lemma deepen_old d nb cur x : x ≠ nb → deepen d nb cur x = d x.
Proof. intros Hne. unfold deepen. by rewrite decide_False. Qed.

Lemma deepen_new d nb cur : deepen d nb cur nb = S (d cur).
Proof. unfold deepen. by rewrite decide_True. Qed.

(** The state [bfs] starts its loop in. *)
Lemma bfs_inv_init :
  bfs_inv R start goal (λ _, 0) None {[start]} [start] {[start := None]}.
Proof.
  split; simpl.
  - split; [set_solver|]. split; [done|]. apply lookup_singleton_eq.
  - apply dom_singleton_L.
  - intros v Hv Hne. apply elem_of_singleton in Hv. done.
  - intros x Hx. apply list_elem_of_singleton in Hx. set_solver.
  - intros. lia.
  - intros v Hv Hq. apply elem_of_singleton in Hv. subst v.
    exfalso. apply Hq. left.
  - done.
  - intros v _. rewrite map_size_singleton. lia.
Qed.

(** [cur = q.popleft()], at the start of the [for] loop over its
    neighbours. *)
Lemma bfs_inv_pop d visited cur q parent nbs :
  (∀ w, w ∈ nbs ↔ R cur w) →
  bfs_inv R start goal d None visited (cur :: q) parent →
  bfs_inv R start goal d (Some (cur, nbs)) visited q parent.
Proof.
  intros Hnbs [? ? ? ? ? ? ? ?]. split; simpl in *; try done.
  split; intros w Hw; [by apply Hnbs | left; by apply Hnbs].
Qed.

(** The neighbour [nb] is visited already: [if nb not in visited] fails. *)
Lemma bfs_inv_skip d visited cur nb rest q parent :
  nb ∈ visited →
  bfs_inv R start goal d (Some (cur, nb :: rest)) visited q parent →
  bfs_inv R start goal d (Some (cur, rest)) visited q parent.
Proof.
  intros Hnb [? ? ? Hfv Hsorted Hdone [Hrest Hpend] ?]. split; simpl in *; try done.
  split.
  - intros w Hw. apply Hrest. by right.
  - intros w Hw. destruct (Hpend w Hw) as [Hin|?]; [|by right].
    apply elem_of_cons in Hin as [->|?]; [|by left].
    right. split; [done|].
    destruct (decide (nb ∈ cur :: q)) as [Hq|Hq].
    + apply list_elem_of_lookup in Hq as [j Hj].
      by destruct (Hsorted 0 j cur nb) as [_ ?]; [lia | ..].
    + destruct (Hdone nb Hnb Hq) as (_ & Hle & _).
      specialize (Hle cur). assert (d nb ≤ d cur) by (apply Hle; left). lia.
Qed.

(** The neighbour [nb] is new: it is marked, gets [cur] as its parent
    and joins the queue, one hop deeper than [cur]. *)
Lemma bfs_inv_enqueue d visited cur nb rest q parent :
  nb ∉ visited →
  bfs_inv R start goal d (Some (cur, nb :: rest)) visited q parent →
  bfs_inv R start goal (deepen d nb cur) (Some (cur, rest))
    ({[nb]} ∪ visited) (q ++ [nb]) (<[nb := Some cur]> parent).
Proof.
  intros Hnb [(Hs & Hds & Hps) Hdom Htree Hfv Hsorted Hdone [Hrest Hpend] Hbound].
  simpl in *.
  assert (Hcur : cur ∈ visited) by (apply Hfv; left).
  assert (Hold : ∀ x, x ∈ visited → deepen d nb cur x = d x).
  { intros x Hx. apply deepen_old. by intros ->. }
  assert (Hnone : parent !! nb = None).
  { apply not_elem_of_dom. by rewrite Hdom. }
  split; simpl.
  - split; [set_solver|]. split; [by rewrite Hold|].
    rewrite lookup_insert_ne; [done | by intros ->].
  - rewrite dom_insert_L. by rewrite Hdom.
  - intros v Hv Hne. destruct (decide (v = nb)) as [->|Hvnb].
    + exists cur. rewrite lookup_insert_eq, deepen_new, Hold by done.
      split; [done|]. split; [set_solver|]. split; [|done]. apply Hrest. left.
    + assert (Hv' : v ∈ visited) by set_solver.
      destruct (Htree v Hv' Hne) as (u & Hpu & Hu & HR & Hd).
      exists u. rewrite lookup_insert_ne, !Hold by done.
      split; [done|]. split; [set_solver|]. done.
  - intros x Hx. rewrite app_comm_cons in Hx.
    apply elem_of_app in Hx as [Hx|Hx]; [apply Hfv in Hx; set_solver|].
    apply list_elem_of_singleton in Hx. set_solver.
  - intros i j x y Hij Hx Hy. rewrite app_comm_cons in Hx, Hy.
    assert (Hfront : ∀ k z, (cur :: q) !! k = Some z →
              d cur ≤ d z ∧ d z ≤ S (d cur) ∧ deepen d nb cur z = d z).
    { intros k z Hz. destruct (Hsorted 0 k cur z) as [? ?]; [lia | done ..|].
      split; [done|]. split; [done|]. apply Hold, Hfv.
      by eapply list_elem_of_lookup_2. }
    destruct (decide (j < length (cur :: q))) as [Hj|Hj].
    + rewrite lookup_app_l in Hy by done. rewrite lookup_app_l in Hx by lia.
      destruct (Hfront i x Hx) as (_ & _ & ->).
      destruct (Hfront j y Hy) as (_ & _ & ->). by apply (Hsorted i j).
    + rewrite lookup_app_r in Hy by lia.
      apply list_lookup_singleton_Some in Hy as [Hj0 <-]. rewrite deepen_new.
      destruct (decide (i < length (cur :: q))) as [Hi|Hi].
      * rewrite lookup_app_l in Hx by done.
        destruct (Hfront i x Hx) as (? & ? & ->). lia.
      * rewrite lookup_app_r in Hx by lia.
        apply list_lookup_singleton_Some in Hx as [_ <-]. rewrite deepen_new. lia.
  - intros v Hv Hq. rewrite app_comm_cons in Hq.
    rewrite elem_of_app, list_elem_of_singleton in Hq.
    assert (Hv' : v ∈ visited) by set_solver.
    destruct (Hdone v Hv') as (Hg & Hle & Hnbs); [tauto|].
    split; [done|]. rewrite Hold by done. split.
    + intros x Hx. rewrite app_comm_cons in Hx.
      apply elem_of_app in Hx as [Hx|Hx].
      * rewrite Hold by by apply Hfv. by apply Hle.
      * apply list_elem_of_singleton in Hx as ->. rewrite deepen_new.
        assert (d v ≤ d cur) by (apply Hle; left). lia.
    + intros w Hw. destruct (Hnbs w Hw) as [Hwv ?].
      rewrite Hold by done. split; [set_solver | done].
  - split; [intros w Hw; apply Hrest; by right|].
    intros w Hw. rewrite (Hold cur) by done.
    destruct (Hpend w Hw) as [Hin|[Hwv ?]].
    + apply elem_of_cons in Hin as [->|?]; [|by left].
      right. rewrite deepen_new. split; [set_solver | lia].
    + right. rewrite Hold by done. split; [set_solver | done].
  - intros v Hv. rewrite map_size_insert_None by done.
    destruct (decide (v = nb)) as [->|Hvnb].
    + rewrite deepen_new. specialize (Hbound cur Hcur). lia.
    + assert (Hv' : v ∈ visited) by set_solver.
      rewrite Hold by done. specialize (Hbound v Hv'). lia.
Qed.

(** The [for] loop as a whole. *)
Lemma bfs_inv_expand cur rest :
  ∀ d visited q parent visited' parent' q',
    bfs_inv R start goal d (Some (cur, rest)) visited q parent →
    bfs_expand cur rest visited parent q = (visited', parent', q') →
    ∃ d', bfs_inv R start goal d' (Some (cur, [])) visited' q' parent'.
Proof.
  induction rest as [|nb rest IH]; intros d visited q parent visited' parent' q' Hinv Hexp;
    simpl in Hexp.
  - injection Hexp as <- <- <-. by exists d.
  - case_decide as Hnb.
    + eapply IH; [|exact Hexp]. by eapply bfs_inv_skip.
    + eapply IH; [|exact Hexp]. by eapply bfs_inv_enqueue.
Qed.

(** The end of a round in which [cur] was not the goal. *)
Lemma bfs_inv_round d visited cur q parent :
  cur ≠ goal →
  bfs_inv R start goal d (Some (cur, [])) visited q parent →
  bfs_inv R start goal d None visited q parent.
Proof.
  intros Hg [? ? ? Hfv Hsorted Hdone [_ Hpend] ?]. split; simpl in *; try done.
  - intros x Hx. apply Hfv. by right.
  - intros i j x y Hij Hx Hy. by apply (Hsorted (S i) (S j)); [lia | ..].
  - intros v Hv Hq. destruct (decide (v = cur)) as [->|Hne].
    + split; [done|]. split.
      * intros x Hx. apply list_elem_of_lookup in Hx as [j Hj].
        by destruct (Hsorted 0 (S j) cur x) as [? _]; [lia | ..].
      * intros w Hw. destruct (Hpend w Hw) as [Hin|?]; [|done].
        by apply elem_of_nil in Hin.
    + destruct (Hdone v Hv) as (? & Hle & ?).
      { rewrite not_elem_of_cons. by split. }
      split; [done|]. split; [|done]. intros x Hx. apply Hle. by right.
Qed.

(** *** The parent chain *)

Lemma build_path_None fuel parent path : build_path fuel parent None path = Some path.
Proof. by destruct fuel. Qed.

(** Walking the parent links from a visited name yields, reversed, a walk
    from [start] of as many hops as the depth of the name. *)
Lemma build_path_walk d pending visited q parent :
  bfs_inv R start goal d pending visited q parent →
  ∀ n v fuel path, v ∈ visited → d v = n → n < fuel →
    ∃ p, build_path fuel parent (Some v) path = Some (path ++ reverse p) ∧
         walk R start p v ∧ length p = S n.
Proof.
  intros [(Hs & Hds & Hps) _ Htree _ _ _ _ _].
  induction n as [|n IH]; intros v fuel path Hv Hd Hfuel;
    (destruct fuel as [|fuel]; [lia|]); simpl.
  - destruct (decide (v = start)) as [->|Hne].
    + rewrite Hps, build_path_None. exists [start].
      split; [done|]. split; [constructor | done].
    + destruct (Htree v Hv Hne) as (u & _ & _ & _ & Hdu). lia.
  - destruct (decide (v = start)) as [->|Hne]; [lia|].
    destruct (Htree v Hv Hne) as (u & -> & Hu & HR & Hdu).
    destruct (IH u fuel (path ++ [v]) Hu) as (p & Hp & Hw & Hlen); [lia..|].
    exists (p ++ [v]). rewrite Hp, reverse_snoc, <- app_assoc. split; [done|].
    split; [by apply (walk_step R start p u)|]. rewrite length_app. simpl. lia.
Qed.

(** *** Fewest hops *)

Lemma hops_snoc p w : 0 < length p → hops (p ++ [w]) = S (hops p).
Proof. unfold hops. rewrite length_app. simpl. lia. Qed.

(** Between two rounds, a name reached by a walk of fewer hops than the
    depth of the head of the queue is visited, no deeper than the walk is
    long. *)
Lemma bfs_inv_walk d visited cur q parent p w :
  bfs_inv R start goal d None visited (cur :: q) parent →
  walk R start p w →
  (w ∈ visited ∧ d w ≤ hops p) ∨ d cur ≤ hops p.
Proof.
  intros [(Hs & Hds & _) _ _ Hfv Hsorted Hdone _ _]. simpl in *.
  induction 1 as [|p v w Hwalk IH HR].
  - left. split; [done|]. rewrite Hds. lia.
  - rewrite hops_snoc by by eapply walk_length.
    destruct IH as [[Hv Hd]|Hd]; [|right; lia].
    destruct (decide (v ∈ cur :: q)) as [Hq|Hq].
    + right. apply list_elem_of_lookup in Hq as [j Hj].
      destruct (Hsorted 0 j cur v) as [? _]; [lia | done ..|]. lia.
    + left. destruct (Hdone v Hv Hq) as (_ & _ & Hnbs).
      destruct (Hnbs w HR). split; [done | lia].
Qed.

(** With the queue empty, everything a walk from [start] reaches is
    visited and is not the goal. *)
Lemma bfs_inv_closed d visited parent p w :
  bfs_inv R start goal d None visited [] parent →
  walk R start p w → w ∈ visited ∧ w ≠ goal.
Proof.
  intros [(Hs & _) _ _ _ _ Hdone _ _]. simpl in *.
  assert (Hdone' : ∀ v, v ∈ visited → v ≠ goal ∧ ∀ w, R v w → w ∈ visited).
  { intros v Hv. destruct (Hdone v Hv) as (? & _ & Hnbs); [apply not_elem_of_nil|].
    split; [done|]. intros x Hx. by destruct (Hnbs x Hx). }
  induction 1 as [|p v w Hwalk [IH _] HR].
  - split; [done|]. by destruct (Hdone' start Hs).
  - destruct (Hdone' v IH) as [_ Hnbs]. specialize (Hnbs w HR).
    split; [done|]. by destruct (Hdone' w Hnbs).
Qed.
End BfsInvariant.


(** *** The loop *)

(** Every enqueued name is taken out of what is left of the universe. *)
Lemma bfs_expand_measure (U : gset string) cur rest :
  ∀ visited parent q visited' parent' q',
    (∀ w, w ∈ rest → w ∈ U) →
    bfs_expand cur rest visited parent q = (visited', parent', q') →
    length q' + size (U ∖ visited') = length q + size (U ∖ visited).
Proof.
  induction rest as [|nb rest IH]; intros visited parent q visited' parent' q' HU Hexp;
    simpl in Hexp.
  - by injection Hexp as <- <- <-.
  - assert (HU' : ∀ w, w ∈ rest → w ∈ U) by (intros w Hw; apply HU; by right).
    case_decide as Hnb; [by eapply IH|].
    rewrite (IH _ _ _ _ _ _ HU' Hexp), length_app.
    rewrite (size_unvisited_step U visited nb); [simpl; lia | | done].
    apply HU. left.
Qed.

(** What is in the queue after the [for] loop was there before or is one
    of the neighbours. *)
Lemma bfs_expand_queue cur rest :
  ∀ visited parent q visited' parent' q' x,
    bfs_expand cur rest visited parent q = (visited', parent', q') →
    x ∈ q' → x ∈ q ∨ x ∈ rest.
Proof.
  induction rest as [|nb rest IH]; intros visited parent q visited' parent' q' x Hexp Hx;
    simpl in Hexp.
  - injection Hexp as <- <- <-. by left.
  - case_decide as Hnb.
    + destruct (IH _ _ _ _ _ _ _ Hexp Hx); [by left | right; by right].
    + destruct (IH _ _ _ _ _ _ _ Hexp Hx) as [Hq|?]; [|right; by right].
      apply elem_of_app in Hq as [?|Hq]; [by left|].
      apply list_elem_of_singleton in Hq as ->. right. left.
Qed.

Section BfsLoop.
Context (g : Graph.t) (start goal : string) (ao ac : bool).
Let R := adjacent g ao ac.
Let U := universe g start.

(** From a state that satisfies the invariant the loop returns within
    the rounds the measure allows; a path it returns is a walk from
    [start] to [goal] of the fewest hops, and it returns no path only
    when no walk leads from [start] to [goal]. *)
Lemma bfs_loop_correct fuel :
  ∀ d visited q parent vo,
    bfs_inv R start goal d None visited q parent →
    length q + size (U ∖ visited) < fuel →
    ∃ r, bfs_loop fuel g goal ao ac visited q parent vo = Some r ∧
         match r.1 with
         | Some p => walk R start p goal ∧ ∀ p', walk R start p' goal → hops p ≤ hops p'
         | None => ∀ p', ¬ walk R start p' goal
         end.
Proof.
  induction fuel as [|fuel IH]; intros d visited q parent vo Hinv Hm; [lia|].
  destruct q as [|cur q]; simpl.
  { eexists. split; [done|]. simpl. intros p' Hw.
    by destruct (bfs_inv_closed R start goal d visited parent p' goal Hinv Hw). }
  assert (Hcur : cur ∈ visited).
  { apply (bfs_frontier_visited _ _ _ _ _ _ _ _ Hinv). left. }
  case_decide as Hg.
  - subst cur.
    destruct (build_path_walk R start goal d None visited (goal :: q) parent Hinv
                (d goal) goal (size parent) [] Hcur eq_refl) as (p & -> & Hw & Hlen).
    { by apply (bfs_depth_bound _ _ _ _ _ _ _ _ Hinv). }
    eexists. split; [done|]. simpl. rewrite reverse_involutive.
    split; [done|]. intros p' Hw'.
    assert (d goal ≤ hops p').
    { destruct (bfs_inv_walk R start goal d visited goal q parent p' goal Hinv Hw')
        as [[_ ?]|?]; lia. }
    unfold hops at 1. lia.
  - destruct (bfs_expand cur (Graph.neighbors g cur ao ac) visited parent q)
      as [[visited' parent'] q'] eqn:Hexp.
    destruct (bfs_inv_expand R start goal cur (Graph.neighbors g cur ao ac)
                d visited q parent visited' parent' q') as [d' Hinv']; [|done|].
    { by apply bfs_inv_pop. }
    apply (IH d'); [by apply (bfs_inv_round R start goal d' visited' cur)|].
    rewrite (bfs_expand_measure U cur _ _ _ _ _ _ _ (λ w, neighbors_universe g start cur ao ac w) Hexp).
    simpl in Hm. lia.
Qed.

(** The visited order of the loop is reached in order when every queued
    name was offered by a name of the order so far. *)
Lemma bfs_loop_order fuel :
  ∀ visited q parent vo r,
    (∀ x, x ∈ q → x = start ∨ ∃ u, u ∈ vo ∧ R u x) →
    reached_in_order R start vo →
    bfs_loop fuel g goal ao ac visited q parent vo = Some r →
    reached_in_order R start r.2.
Proof.
  induction fuel as [|fuel IH]; intros visited q parent vo r Hq Hvo Hr; [done|].
  destruct q as [|cur q]; simpl in Hr.
  { by injection Hr as <-. }
  assert (Hvo' : reached_in_order R start (vo ++ [cur])).
  { apply reached_in_order_snoc; [done|]. apply Hq. left. }
  case_decide as Hg.
  - destruct (build_path _ _ _ _); [|done]. by injection Hr as <-.
  - destruct (bfs_expand cur (Graph.neighbors g cur ao ac) visited parent q)
      as [[visited' parent'] q'] eqn:Hexp.
    apply (IH _ _ _ _ _) in Hr; [done | | done].
    intros x Hx. destruct (bfs_expand_queue _ _ _ _ _ _ _ _ x Hexp Hx) as [Hold|Hnew].
    + destruct (Hq x) as [?|(u & ? & ?)]; [by right | by left |].
      right. exists u. split; [|done]. apply elem_of_app. by left.
    + right. exists cur. split; [|done]. apply elem_of_app. right. left.
Qed.
End BfsLoop.

Lemma bfs_fuel_enough g start :
  length [start] + size (universe g start ∖ {[start]}) < bfs_fuel g.
Proof.
  unfold bfs_fuel, universe.
  assert (size (({[start]} ∪ list_to_set (endpoints g)) ∖ {[start]} : gset string) ≤
          size (list_to_set (endpoints g) : gset string)).
  { apply subseteq_size. set_solver. }
  pose proof (size_list_to_set_le (endpoints g)) as Hle.
  rewrite length_endpoints in Hle. simpl. lia.
Qed.

(** [bfs] returns, with a path of the fewest hops or with no path when there
    is no walk at all. *)
Lemma bfs_correct g start goal ao ac :
  ∃ r, bfs g start goal ao ac = Some r ∧
       match r.1 with
       | Some p => walk (adjacent g ao ac) start p goal ∧
                   ∀ p', walk (adjacent g ao ac) start p' goal → hops p ≤ hops p'
       | None => ∀ p', ¬ walk (adjacent g ao ac) start p' goal
       end.
Proof.
  unfold bfs. apply (bfs_loop_correct g start goal ao ac _ (λ _, 0)).
  - apply bfs_inv_init.
  - apply bfs_fuel_enough.
Qed.

Lemma bfs_returns g start goal ao ac : is_Some (bfs g start goal ao ac).
Proof. destruct (bfs_correct g start goal ao ac) as (r & -> & _). done. Qed.

Lemma bfs_order g start goal ao ac r :
  bfs g start goal ao ac = Some r → reached_in_order (adjacent g ao ac) start r.2.
Proof.
  apply bfs_loop_order.
  - intros x Hx. apply list_elem_of_singleton in Hx. by left.
  - apply reached_in_order_nil.
Qed.

Lemma dfs_sound g start goal ao ac r :
  dfs g start goal ao ac = Some r →
  (∀ p, r.1 = Some p → walk (adjacent g ao ac) start p goal) ∧
  reached_in_order (adjacent g ao ac) start r.2.
Proof.
  apply dfs_loop_sound.
  - intros n p Hin. apply list_elem_of_singleton in Hin as [= -> ->].
    split; [constructor | by left].
  - apply reached_in_order_nil.
Qed.

(** *** Breadth-first against depth-first paths *)

(** C1: [bfs] and [dfs] return on every graph, start, goal and filter
    setting.  A path returned by [bfs] leads from the start to the goal
    through neighbour links that pass the filters, no such path has fewer
    hops, and so it has at most as many hops as a path returned by [dfs] on
    the same input. *)
Theorem bfs_fewest_hops (g : Graph.t) (start goal : string) (ao ac : bool) :
  (is_Some (bfs g start goal ao ac) ∧ is_Some (dfs g start goal ao ac)) ∧
  ∀ pb vb, bfs g start goal ao ac = Some (Some pb, vb) →
    walk (adjacent g ao ac) start pb goal ∧
    (∀ p, walk (adjacent g ao ac) start p goal → hops pb ≤ hops p) ∧
    (∀ pd vd, dfs g start goal ao ac = Some (Some pd, vd) → hops pb ≤ hops pd).
Proof.
  split; [split; [apply bfs_returns | apply dfs_returns]|].
  intros pb vb Hb. destruct (bfs_correct g start goal ao ac) as (r & Hr & Hpath).
  rewrite Hb in Hr. injection Hr as <-. simpl in Hpath. destruct Hpath as [Hw Hmin].
  split; [done|]. split; [done|]. intros pd vd Hd. apply Hmin.
  by apply (dfs_sound g start goal ao ac (Some pd, vd)).
Qed.

Lemma bfs_fewest_hops_witness :
  bfs triangle "A" "C" false false = Some (Some ["A"; "C"], ["A"; "B"; "C"]) ∧
  dfs triangle "A" "C" false false = Some (Some ["A"; "B"; "C"], ["A"; "B"; "C"]) ∧
  hops ["A"; "C"] ≤ hops ["A"; "B"; "C"].
Proof.
  assert (Hb : bfs triangle "A" "C" false false = Some (Some ["A"; "C"], ["A"; "B"; "C"]))
    by (vm_compute; reflexivity).
  assert (Hd : dfs triangle "A" "C" false false =
               Some (Some ["A"; "B"; "C"], ["A"; "B"; "C"]))
    by (vm_compute; reflexivity).
  split; [exact Hb|]. split; [exact Hd|].
  exact (proj2 (proj2 (proj2 (bfs_fewest_hops triangle "A" "C" false false) _ _ Hb)) _ _ Hd).
Defined.

(** *** Closed edges *)

(** On a graph that satisfies the invariants, a neighbour offered with
    [allow_closed = False] is joined to the queried node by the edge stored
    for the pair, and that edge is open. *)
Lemma adjacent_open_link g ao u v :
  graph_inv g → adjacent g ao false u v → open_link g ao u v.
Proof.
  intros Hinv Hadj. apply elem_of_neighbors in Hadj as (k & e & Hin & Hu & [Hc Ha] & ->).
  destruct (key_of_other g k e u Hinv Hin Hu) as (_ & Hk & _).
  exists e. split; [|split; [|done]].
  - unfold Graph.get_edge. rewrite <- Hk. apply dict_get_entry; [apply Hinv | done].
  - destruct (Edge.closed e); [|done]. by specialize (Hc eq_refl).
Qed.

(** C6: on a graph that satisfies the invariants, for every start, goal and
    [accessible_only], [bfs] and [dfs] called with [allow_closed = False]
    return, and in what they return every two consecutive nodes of the path
    are joined by a stored edge that is not closed, and every node of the
    visited order other than the start was offered by a node earlier in the
    order over a stored edge that is not closed. *)
Theorem closed_edges_not_traversed (g : Graph.t) (start goal : string) (ao : bool) :
  graph_inv g →
  ∀ search, search = bfs ∨ search = dfs →
    ∃ path visited_order,
      search g start goal ao false = Some (path, visited_order) ∧
      (∀ p, path = Some p →
         head p = Some start ∧ last p = Some goal ∧
         ∀ i u v, p !! i = Some u → p !! S i = Some v → open_link g ao u v) ∧
      reached_in_order (open_link g ao) start visited_order.
Proof.
  intros Hinv search Hsearch.
  assert (Hres : ∃ r, search g start goal ao false = Some r ∧
            (∀ p, r.1 = Some p → walk (adjacent g ao false) start p goal) ∧
            reached_in_order (adjacent g ao false) start r.2).
  { destruct Hsearch as [-> | ->].
    - destruct (bfs_correct g start goal ao false) as (r & Hr & Hpath).
      exists r. split; [done|]. split; [|by apply (bfs_order g start goal ao false)].
      intros p Hp. rewrite Hp in Hpath. by destruct Hpath.
    - destruct (dfs_returns g start goal ao false) as [r Hr].
      exists r. split; [done|]. by apply dfs_sound. }
  destruct Hres as ([path vo] & Hr & Hpath & Hvo). simpl in *.
  exists path, vo. split; [done|]. split.
  - intros p ->. apply walk_consecutive.
    eapply walk_mono; [|by apply Hpath]. intros x y. by apply adjacent_open_link.
  - eapply reached_in_order_mono; [|exact Hvo]. intros x y. by apply adjacent_open_link.
Qed.

Lemma closed_edges_not_traversed_witness :
  graph_inv scenario_B ∧
  ∃ path visited_order,
    bfs scenario_B "X" "Z" true false = Some (path, visited_order) ∧
    (∀ p, path = Some p →
       head p = Some "X" ∧ last p = Some "Z" ∧
       ∀ i u v, p !! i = Some u → p !! S i = Some v → open_link scenario_B true u v) ∧
    reached_in_order (open_link scenario_B true) "X" visited_order.
Proof.
  assert (Hinv : graph_inv scenario_B) by by_evaluation.
  split; [exact Hinv|].
  apply (closed_edges_not_traversed scenario_B "X" "Z" true Hinv bfs). by left.
Defined.


(** ** The point-to-segment test *)

Section GeometryFacts.
Import Geometry.
Local Open Scope Q_scope.

Lemma sqr_nonneg (x : Q) : 0 <= x * x.
Proof.
  destruct (Qlt_le_dec x 0).
  - assert (x * x == (- x) * (- x)) as -> by ring. apply Qmult_le_0_compat; lra.
  - apply Qmult_le_0_compat; lra.
Qed.

Lemma norm2_nonneg u : 0 <= norm2 u.
Proof.
  unfold norm2, dot. pose proof (sqr_nonneg u.1). pose proof (sqr_nonneg u.2). lra.
Qed.

(** [max(0, min(1, t))] is the clamp of [t] to [0, 1]. *)
Lemma py_clamp t : py_max 0 (py_min 1 t) == clamp01 t.
Proof.
  unfold py_max, py_min, clamp01.
  repeat destruct (Qlt_le_dec _ _); lra.
Qed.

Lemma clamp01_range t : 0 <= clamp01 t ∧ clamp01 t <= 1.
Proof. unfold clamp01. repeat destruct (Qlt_le_dec _ _); lra. Qed.

(** The test [dx == 0 and dy == 0]. *)
Lemma coincide_test x1 y1 x2 y2 :
  Qeq_bool (x2 - x1) 0 && Qeq_bool (y2 - y1) 0 = true ↔ coincide (x1, y1) (x2, y2).
Proof.
  rewrite andb_true_iff, !Qeq_bool_iff. unfold coincide. simpl. split; intros [? ?]; lra.
Qed.

(** Two points that do not coincide are at a positive distance. *)
Lemma norm2_pos A B : ¬ coincide A B → 0 < norm2 (vsub B A).
Proof.
  intros Hne. destruct (Qlt_le_dec 0 (norm2 (vsub B A))) as [?|Hle]; [done|].
  exfalso. apply Hne. unfold coincide, norm2, dot, vsub in *. simpl in *.
  pose proof (sqr_nonneg (B.1 - A.1)) as H1. pose proof (sqr_nonneg (B.2 - A.2)) as H2.
  assert (Hz1 : (B.1 - A.1) * (B.1 - A.1) == 0) by lra.
  assert (Hz2 : (B.2 - A.2) * (B.2 - A.2) == 0) by lra.
  apply Qmult_integral in Hz1, Hz2. split; [destruct Hz1 | destruct Hz2]; lra.
Qed.

(** The squared distance from [P] to the point at [s] of the line, against
    the one to the point at [c]. *)
Lemma along_difference P A B s c :
  ¬ coincide A B →
  norm2 (vsub P (along A B s)) - norm2 (vsub P (along A B c)) ==
  norm2 (vsub B A) * ((s - c) * (s + c - 2 * projection_param P A B)).
Proof.
  intros Hne. pose proof (norm2_pos A B Hne) as Hpos.
  assert (Hd : projection_param P A B * norm2 (vsub B A) == dot (vsub P A) (vsub B A)).
  { unfold projection_param. field. lra. }
  revert Hd. generalize (projection_param P A B) as t0. intros t0 Hd.
  unfold norm2, dot, vsub, along in *. simpl in *.
  assert (Hexp : ∀ r,
    (P.1 - (A.1 + r * (B.1 - A.1))) * (P.1 - (A.1 + r * (B.1 - A.1))) +
    (P.2 - (A.2 + r * (B.2 - A.2))) * (P.2 - (A.2 + r * (B.2 - A.2))) ==
    ((P.1 - A.1) * (P.1 - A.1) + (P.2 - A.2) * (P.2 - A.2)) -
    2 * r * (t0 * ((B.1 - A.1) * (B.1 - A.1) + (B.2 - A.2) * (B.2 - A.2))) +
    r * r * ((B.1 - A.1) * (B.1 - A.1) + (B.2 - A.2) * (B.2 - A.2))).
  { intros r. rewrite Hd. ring. }
  rewrite !Hexp. ring.
Qed.

(** The clamped projection is the point of the segment nearest to [P]. *)
Lemma clamped_projection_nearest P A B s :
  ¬ coincide A B → 0 <= s → s <= 1 →
  norm2 (vsub P (clamped_projection P A B)) <= norm2 (vsub P (along A B s)).
Proof.
  intros Hne Hs0 Hs1. pose proof (norm2_pos A B Hne) as Hpos.
  pose proof (along_difference P A B s (clamp01 (projection_param P A B)) Hne) as Hdiff.
  unfold clamped_projection.
  assert (0 <= (s - clamp01 (projection_param P A B)) *
               (s + clamp01 (projection_param P A B) - 2 * projection_param P A B))
    as Hsign.
  { generalize (projection_param P A B) as t0. intros t0. unfold clamp01.
    destruct (Qlt_le_dec t0 0); [|destruct (Qlt_le_dec 1 t0)].
    - apply Qmult_le_0_compat; lra.
    - assert ((s - 1) * (s + 1 - 2 * t0) == (1 - s) * (2 * t0 - s - 1)) as -> by ring.
      apply Qmult_le_0_compat; lra.
    - assert ((s - t0) * (s + t0 - 2 * t0) == (s - t0) * (s - t0)) as -> by ring.
      apply sqr_nonneg. }
  assert (0 <= norm2 (vsub B A) *
               ((s - clamp01 (projection_param P A B)) *
                (s + clamp01 (projection_param P A B) - 2 * projection_param P A B))).
  { apply Qmult_le_0_compat; [lra | done]. }
  lra.
Qed.

(** The code computes the test of the specification. *)
Lemma point_near_segment_hit_spec px py x1 y1 x2 y2 threshold :
  point_near_segment px py x1 y1 x2 y2 threshold = true ↔
  hit_spec (px, py) (x1, y1) (x2, y2) threshold.
Proof.
  unfold point_near_segment, hit_spec.
  destruct (Qeq_bool (x2 - x1) 0 && Qeq_bool (y2 - y1) 0) eqn:Htest.
  - apply coincide_test in Htest. rewrite Qle_bool_iff.
    unfold norm2, dot, vsub. simpl. tauto.
  - assert (Hne : ¬ coincide (x1, y1) (x2, y2)).
    { rewrite <- coincide_test, Htest. done. }
    rewrite Qle_bool_iff, py_clamp.
    unfold clamped_projection, projection_param, along, norm2, dot, vsub. simpl.
    tauto.
Qed.

(** A hit means that some point of the segment is within the threshold. *)
Lemma hit_spec_some_point P A B T :
  ¬ coincide A B →
  hit_spec P A B T ↔
  ∃ s, 0 <= s ∧ s <= 1 ∧ norm2 (vsub P (along A B s)) <= T * T.
Proof.
  intros Hne. unfold hit_spec. split.
  - intros [[? _]|[_ Hhit]]; [done|].
    exists (clamp01 (projection_param P A B)).
    destruct (clamp01_range (projection_param P A B)). by repeat split.
  - intros (s & Hs0 & Hs1 & Hs). right. split; [done|].
    pose proof (clamped_projection_nearest P A B s Hne Hs0 Hs1). lra.
Qed.

(** *** The test and the specification *)


End GeometryFacts.

(** * Further properties of the graph model *)

(** ** More on the ordered dict *)

Section OrderedDictMore.
Context {K V : Type} `{EqDecision K}.
Implicit Types (k : K) (v : V) (d : list (K * V)).

Lemma dict_get_app k d1 d2 :
  dict_get k (d1 ++ d2) =
  match dict_get k d1 with Some v => Some v | None => dict_get k d2 end.
Proof.
  induction d1 as [|[k' v'] d1 IH]; simpl; [done|]. by case_decide.
Qed.

Lemma dict_get_del k k' d :
  dict_get k' (dict_del k d) = if decide (k' = k) then None else dict_get k' d.
Proof.
  unfold dict_del. induction d as [|[k0 v0] d IH]; simpl.
  - by case_decide.
  - destruct (decide (k0 = k)) as [->|Hne].
    + rewrite filter_cons_False by (simpl; auto). rewrite IH.
      by destruct (decide (k' = k)).
    + rewrite filter_cons_True by done. simpl. rewrite IH.
      destruct (decide (k' = k0)) as [->|?]; [|done]. by rewrite decide_False.
Qed.

Lemma dict_get_set k k' v d :
  dict_get k' (dict_set k v d) = if decide (k' = k) then Some v else dict_get k' d.
Proof.
  induction d as [|[k0 v0] d IH]; simpl.
  - by case_decide.
  - destruct (decide (k = k0)) as [->|Hne]; simpl.
    + by destruct (decide (k' = k0)).
    + rewrite IH. destruct (decide (k' = k0)) as [->|?]; [|done].
      by rewrite decide_False.
Qed.

Lemma dict_set_set k v v' d : dict_set k v (dict_set k v' d) = dict_set k v d.
Proof.
  induction d as [|[k0 v0] d IH]; simpl.
  - by rewrite decide_True.
  - destruct (decide (k = k0)) as [->|Hne]; simpl.
    + by rewrite decide_True.
    + rewrite decide_False by done. by rewrite IH.
Qed.

Lemma dict_set_same k v d : dict_get k d = Some v → dict_set k v d = d.
Proof.
  induction d as [|[k0 v0] d IH]; simpl; [done|].
  destruct (decide (k = k0)) as [->|Hne].
  - by intros [= ->].
  - intros Hget. by rewrite IH.
Qed.
End OrderedDictMore.

(** ** Keys *)

Lemma frozenset2_eq a b c d :
  frozenset2 a b = frozenset2 c d ↔ (a = c ∧ b = d) ∨ (a = d ∧ b = c).
Proof.
  unfold frozenset2. split.
  - intros Heq.
    assert (a ∈ ({[c; d]} : gset string)) by (rewrite <- Heq; set_solver).
    assert (b ∈ ({[c; d]} : gset string)) by (rewrite <- Heq; set_solver).
    assert (c ∈ ({[a; b]} : gset string)) by (rewrite Heq; set_solver).
    assert (d ∈ ({[a; b]} : gset string)) by (rewrite Heq; set_solver).
    set_solver.
  - intros [[-> ->]|[-> ->]]; set_solver.
Qed.

(** ** [get_edge] *)

Lemma get_edge_iff_joins g a b e :
  graph_inv g →
  Graph.get_edge g a b = Some e ↔ e ∈ (Graph.edges g).*2 ∧ joins e a b.
Proof.
  intros Hinv. unfold Graph.get_edge. split.
  - intros Hget. apply dict_get_Some_elem in Hget.
    destruct (graph_inv_elem _ _ _ Hinv Hget) as (Hk & _).
    split; [apply list_elem_of_fmap; by exists (frozenset2 a b, e)|].
    apply frozenset2_eq in Hk. unfold joins. naive_solver.
  - intros [Hin Hj]. apply list_elem_of_fmap in Hin as ([k e'] & Heq & Hin).
    simpl in Heq. subst e'.
    destruct (graph_inv_elem _ _ _ Hinv Hin) as (Hk & _).
    apply dict_get_entry; [apply Hinv|].
    assert (frozenset2 a b = k) as ->; [|done].
    rewrite Hk. apply frozenset2_eq. unfold joins in Hj. naive_solver.
Qed.

(** On a graph that satisfies the invariants, [get_edge(a, b)] returns the
    edge of the table that joins [a] and [b], in whichever order the two
    names are given, and [None] when there is none. *)
Theorem get_edge_joins (g : Graph.t) (a b : string) :
  graph_inv g →
  (∀ e, Graph.get_edge g a b = Some e ↔ e ∈ (Graph.edges g).*2 ∧ joins e a b) ∧
  (Graph.get_edge g a b = None ↔ ∀ e, e ∈ (Graph.edges g).*2 → ¬ joins e a b) ∧
  Graph.get_edge g a b = Graph.get_edge g b a.
Proof.
  intros Hinv. split; [intros e; by apply get_edge_iff_joins|]. split; [|apply get_edge_comm].
  split.
  - intros Hnone e Hin Hj.
    assert (Graph.get_edge g a b = Some e) by by apply get_edge_iff_joins.
    congruence.
  - intros Hno. destruct (Graph.get_edge g a b) as [e|] eqn:Hget; [|done].
    apply get_edge_iff_joins in Hget as [Hin Hj]; [|done]. by destruct (Hno e).
Qed.

Lemma get_edge_joins_witness :
  graph_inv triangle ∧
  ∃ e, Graph.get_edge triangle "C" "A" = Some e ∧ joins e "C" "A".
Proof.
  assert (Hinv : graph_inv triangle) by by_evaluation.
  split; [exact Hinv|]. exists (Edge.mk "A" "C" 1 1 true false).
  split; [vm_compute; reflexivity|].
  apply (proj1 (proj1 (get_edge_joins triangle "C" "A" Hinv) _)).
  vm_compute. reflexivity.
Defined.

(** ** [connect] and [disconnect] *)

(** After a [connect] that succeeded, [get_edge] finds the new edge under
    both orders of its endpoints, with the attributes given and open, and
    answers as before for every other pair. *)
Theorem get_edge_after_connect (g g' : Graph.t) (a b : string)
    (distance time : Q) (accessible : bool) :
  Graph.connect a b distance time accessible g = (inr tt, g') →
  Graph.get_edge g' a b = Some (Edge.mk a b distance time accessible false) ∧
  Graph.get_edge g' b a = Some (Edge.mk a b distance time accessible false) ∧
  Graph.get_edge g a b = None ∧
  Graph.nodes g' = Graph.nodes g ∧
  ∀ c d, frozenset2 c d ≠ frozenset2 a b → Graph.get_edge g' c d = Graph.get_edge g c d.
Proof.
  rewrite connect_run. destruct (negb _ || negb _); [done|].
  case_bool_decide; [done|]. destruct (dict_mem _ _) eqn:Hmem; [done|].
  intros [= <-].
  assert (Hnone : dict_get (frozenset2 a b) (Graph.edges g) = None).
  { apply dict_get_None. rewrite <- dict_mem_spec. by rewrite Hmem. }
  assert (Hnew : Graph.get_edge
            (Graph.mk (Graph.nodes g)
               (Graph.edges g ++
                  [(frozenset2 a b, Edge.mk a b distance time accessible false)])) a b =
          Some (Edge.mk a b distance time accessible false)).
  { unfold Graph.get_edge. simpl. rewrite dict_get_app, Hnone. simpl.
    by rewrite decide_True. }
  split; [done|]. split; [by rewrite get_edge_comm|]. split; [done|]. split; [done|].
  intros c d Hne. unfold Graph.get_edge. simpl. rewrite dict_get_app.
  destruct (dict_get (frozenset2 c d) (Graph.edges g)); [done|]. simpl.
  by rewrite decide_False.
Qed.

Lemma get_edge_after_connect_witness :
  ∃ g', Graph.connect "X" "Z" 3 4 false scenario_A = (inr tt, g') ∧
        Graph.get_edge g' "Z" "X" = Some (Edge.mk "X" "Z" 3 4 false false).
Proof.
  eexists. split; [vm_compute; reflexivity|].
  refine (proj1 (proj2 (get_edge_after_connect scenario_A _ "X" "Z" 3 4 false _))).
  vm_compute. reflexivity.
Defined.

(** A [disconnect] right after a [connect] that succeeded gives back the
    graph as it was, whichever order the endpoints are given in. *)
Theorem disconnect_undoes_connect (g g' : Graph.t) (a b : string)
    (distance time : Q) (accessible : bool) :
  Graph.connect a b distance time accessible g = (inr tt, g') →
  Graph.disconnect a b g' = (inr tt, g) ∧ Graph.disconnect b a g' = (inr tt, g).
Proof.
  rewrite connect_run. destruct (negb _ || negb _); [done|].
  case_bool_decide; [done|]. destruct (dict_mem _ _) eqn:Hmem; [done|].
  intros [= <-].
  assert (Hd : Graph.disconnect a b
            (Graph.mk (Graph.nodes g)
               (Graph.edges g ++
                  [(frozenset2 a b, Edge.mk a b distance time accessible false)])) =
          (inr tt, g)).
  { rewrite disconnect_run. simpl. rewrite filter_app.
    rewrite filter_cons_False by (simpl; auto). rewrite filter_nil, app_nil_r.
    rewrite filter_all; [by destruct g|].
    apply Forall_forall. intros [k e] Hin Hk. simpl in Hk. subst k.
    apply not_true_iff_false in Hmem. apply Hmem, dict_mem_spec.
    apply list_elem_of_fmap. by exists (frozenset2 a b, e). }
  split; [done|]. rewrite <- Hd. unfold Graph.disconnect.
  by rewrite (frozenset2_comm b a).
Qed.

Lemma disconnect_undoes_connect_witness :
  ∃ g', Graph.connect "X" "Z" 3 4 false scenario_A = (inr tt, g') ∧
        Graph.disconnect "Z" "X" g' = (inr tt, scenario_A).
Proof.
  eexists. split; [vm_compute; reflexivity|].
  refine (proj2 (disconnect_undoes_connect scenario_A _ "X" "Z" 3 4 false _)).
  vm_compute. reflexivity.
Defined.

(** [disconnect(a, b)] never raises; afterwards [get_edge] finds no edge for
    the pair, under either order, and answers as before for every other
    pair; the nodes stay, and the call changes nothing when the pair had no
    edge. *)
Theorem disconnect_spec (g : Graph.t) (a b : string) :
  ∃ g', Graph.disconnect a b g = (inr tt, g') ∧
    Graph.nodes g' = Graph.nodes g ∧
    Graph.get_edge g' a b = None ∧ Graph.get_edge g' b a = None ∧
    (∀ c d, frozenset2 c d ≠ frozenset2 a b →
       Graph.get_edge g' c d = Graph.get_edge g c d) ∧
    (Graph.get_edge g a b = None → g' = g).
Proof.
  eexists. split; [apply disconnect_run|]. simpl. split; [done|].
  assert (Hget : ∀ c d,
    Graph.get_edge
      (Graph.mk (Graph.nodes g)
         (filter (λ ke, ke.1 ≠ frozenset2 a b) (Graph.edges g))) c d =
    if decide (frozenset2 c d = frozenset2 a b) then None else Graph.get_edge g c d).
  { intros c d. unfold Graph.get_edge. simpl. apply dict_get_del. }
  split; [by rewrite Hget, decide_True|].
  split; [by rewrite Hget, decide_True by apply frozenset2_comm|].
  split; [intros c d Hne; by rewrite Hget, decide_False|].
  intros Hnone. unfold Graph.get_edge in Hnone. apply dict_get_None in Hnone.
  rewrite filter_all; [by destruct g|].
  apply Forall_forall. intros [k e] Hin Hk. simpl in Hk. subst k.
  apply Hnone. apply list_elem_of_fmap. by exists (frozenset2 a b, e).
Qed.

(** ** [add_node] and [remove_node] *)

(** On a graph that satisfies the invariants, adding a node under a name
    that is free and removing it again gives back the graph as it was. *)
Theorem remove_node_undoes_add_node (g : Graph.t) (name : string) (x y : Z) :
  graph_inv g → Graph.nodes g !! name = None →
  ∃ g', Graph.add_node name x y g = (inr tt, g') ∧
        Graph.nodes g' !! name = Some (Node.mk name x y) ∧
        Graph.remove_node name g' = (inr tt, g).
Proof.
  intros Hinv Hfree. eexists. split.
  { rewrite add_node_run. apply has_node_false in Hfree. by rewrite Hfree. }
  simpl. split; [apply lookup_insert_eq|].
  rewrite remove_node_run.
  assert (Graph.has_node
            (Graph.mk (<[name:=Node.mk name x y]> (Graph.nodes g)) (Graph.edges g)) name
          = true) as ->.
  { apply has_node_spec. simpl. rewrite lookup_insert_eq. done. }
  simpl. rewrite delete_insert_id by done.
  rewrite filter_all; [by destruct g|].
  apply Forall_forall. intros [k e] Hin. simpl.
  destruct (graph_inv_elem _ _ _ Hinv Hin) as (Hk & _ & Ha & Hb).
  rewrite Hk, elem_of_frozenset2. intros [->| ->]; rewrite Hfree in *;
    by (destruct Ha || destruct Hb).
Qed.

Lemma remove_node_undoes_add_node_witness :
  ∃ g', Graph.add_node "E" 5 5 triangle = (inr tt, g') ∧
        Graph.nodes g' !! "E" = Some (Node.mk "E" 5 5) ∧
        Graph.remove_node "E" g' = (inr tt, triangle).
Proof.
  apply (remove_node_undoes_add_node triangle "E" 5 5); [by_evaluation|].
  vm_compute. reflexivity.
Defined.

(** ** Neighbour queries are symmetric and monotone in the filters *)

Lemma joins_sym e u v : joins e u v ↔ joins e v u.
Proof. unfold joins. tauto. Qed.

(** On a graph that satisfies the invariants the neighbours of [u] are the
    names joined to [u] by an edge that passes the filters. *)
Lemma neighbors_joins g u ao ac v :
  graph_inv g →
  v ∈ Graph.neighbors g u ao ac ↔
  ∃ e, e ∈ (Graph.edges g).*2 ∧ joins e u v ∧ passes ao ac e.
Proof.
  intros Hinv. rewrite elem_of_neighbors. split.
  - intros (k & e & Hin & Hn & Hp & ->). exists e. split.
    + apply list_elem_of_fmap. by exists (k, e).
    + split; [|done]. by destruct (key_of_other g k e u Hinv Hin Hn).
  - intros (e & Hin & Hj & Hp).
    apply list_elem_of_fmap in Hin as ([k e'] & Heq & Hin). simpl in Heq. subst e'.
    destruct (graph_inv_elem _ _ _ Hinv Hin) as (Hk & Hne & _).
    exists k, e. split; [done|]. split.
    + rewrite Hk, elem_of_frozenset2. destruct Hj as [[? ?]|[? ?]]; auto.
    + split; [done|]. symmetry. by apply joins_other.
Qed.

Lemma adjacent_sym g ao ac x y :
  graph_inv g → adjacent g ao ac x y → adjacent g ao ac y x.
Proof.
  intros Hinv. unfold adjacent. rewrite !neighbors_joins by done.
  intros (e & ? & ? & ?). exists e. by rewrite joins_sym.
Qed.

(** On a graph that satisfies the invariants, [v] is a neighbour of [u]
    exactly when [u] is a neighbour of [v] under the same filters, and no
    node is its own neighbour. *)
Theorem neighbors_symmetric (g : Graph.t) (u v : string) (ao ac : bool) :
  graph_inv g →
  (v ∈ Graph.neighbors g u ao ac ↔ u ∈ Graph.neighbors g v ao ac) ∧
  u ∉ Graph.neighbors g u ao ac.
Proof.
  intros Hinv. split.
  - split; by apply adjacent_sym.
  - intros Hu. apply elem_of_neighbors in Hu as (k & e & Hin & Hn & _ & Heq).
    by destruct (key_of_other g k e u Hinv Hin Hn) as (_ & _ & ?).
Qed.

Lemma neighbors_symmetric_witness :
  graph_inv triangle ∧
  ("A" ∈ Graph.neighbors triangle "C" false false ↔
   "C" ∈ Graph.neighbors triangle "A" false false).
Proof.
  assert (Hinv : graph_inv triangle) by by_evaluation.
  split; [exact Hinv|].
  apply (proj1 (neighbors_symmetric triangle "C" "A" false false Hinv)).
Defined.

Lemma neighbors_filter_sublist g u ao ac ao' ac' :
  (ao' = true → ao = true) → (ac = true → ac' = true) →
  Graph.neighbors g u ao ac `sublist_of` Graph.neighbors g u ao' ac'.
Proof.
  intros Hao Hac. unfold Graph.neighbors.
  induction (Graph.edges g) as [|[k e] items IH]; [done|].
  rewrite !neighbors_items_cons.
  destruct (decide (u ∈ k ∧ passes ao ac e)) as [[Hu [Hc Ha]]|Hno].
  - rewrite decide_True; [by apply sublist_skip|].
    split; [done|]. split; auto.
  - case_decide; [by apply sublist_cons | done].
Qed.

(** Relaxing a filter never loses a neighbour: the answer under stricter
    filters is a sublist of the answer under laxer ones, for every graph,
    and the unfiltered answer has at most one entry for each edge. *)
Theorem neighbors_filter_monotone (g : Graph.t) (u : string) (ao ac ao' ac' : bool) :
  (ao' = true → ao = true) → (ac = true → ac' = true) →
  Graph.neighbors g u ao ac `sublist_of` Graph.neighbors g u ao' ac' ∧
  length (Graph.neighbors g u ao' ac') ≤ length (Graph.edges g).
Proof.
  intros Hao Hac. split; [by apply neighbors_filter_sublist|].
  apply length_neighbors_items.
Qed.

Lemma neighbors_filter_monotone_witness :
  Graph.neighbors scenario_C "X" true false `sublist_of`
  Graph.neighbors scenario_C "X" false true.
Proof. by apply (neighbors_filter_monotone scenario_C "X" true false false true). Defined.

(** ** Toggling a flag of an edge *)

Lemma flip_closed_twice e : flip_closed (flip_closed e) = e.
Proof. destruct e as [a b d t acc c]. unfold flip_closed. simpl. by rewrite negb_involutive. Qed.

Lemma flip_accessible_twice e : flip_accessible (flip_accessible e) = e.
Proof.
  destruct e as [a b d t acc c]. unfold flip_accessible. simpl.
  by rewrite negb_involutive.
Qed.

Lemma toggle_edge_run flip a b g :
  toggle_edge flip a b g =
  match Graph.get_edge g a b with
  | None => (inr tt, g)
  | Some e => (inr tt, Graph.mk (Graph.nodes g)
                         (dict_set (frozenset2 a b) (flip e) (Graph.edges g)))
  end.
Proof.
  unfold toggle_edge, Eff.bind, Eff.get. by destruct (Graph.get_edge g a b).
Qed.

Lemma toggle_edge_involutive flip a b g :
  (∀ e, flip (flip e) = e) →
  Eff.state_after (toggle_edge flip a b) (Eff.state_after (toggle_edge flip a b) g) = g.
Proof.
  intros Hflip. unfold Eff.state_after. rewrite (toggle_edge_run flip a b g).
  destruct (Graph.get_edge g a b) as [e|] eqn:Hget; simpl.
  - rewrite toggle_edge_run. unfold Graph.get_edge in *. simpl.
    rewrite dict_get_set, decide_True by done. simpl.
    rewrite dict_set_set, Hflip, dict_set_same by done. by destruct g.
  - by rewrite toggle_edge_run, Hget.
Qed.

(** Toggling the closed flag of the edge of a pair twice, or its
    accessible flag twice, gives back the graph as it was; this holds
    whether or not the pair has an edge. *)
Theorem toggle_twice (g : Graph.t) (a b : string) :
  Eff.state_after (toggle_edge flip_closed a b)
    (Eff.state_after (toggle_edge flip_closed a b) g) = g ∧
  Eff.state_after (toggle_edge flip_accessible a b)
    (Eff.state_after (toggle_edge flip_accessible a b) g) = g.
Proof.
  split; apply toggle_edge_involutive;
    [apply flip_closed_twice | apply flip_accessible_twice].
Qed.

(** With [allow_closed = True] the closed flags are not read. *)
Lemma neighbors_items_flip_closed name ao k e items :
  Graph.neighbors_items name ao true (dict_set k (flip_closed e) items) =
  match dict_get k items with
  | Some e' => if decide (Edge.a e' = Edge.a e ∧ Edge.b e' = Edge.b e ∧
                          Edge.accessible e' = Edge.accessible e)
               then Graph.neighbors_items name ao true items
               else Graph.neighbors_items name ao true
                      (dict_set k (flip_closed e) items)
  | None => Graph.neighbors_items name ao true (dict_set k (flip_closed e) items)
  end.
Proof.
  induction items as [|[k' e'] items IH]; [done|].
  simpl dict_set. simpl dict_get. destruct (decide (k = k')) as [->|Hne].
  - case_decide as Hsame; [|done]. destruct Hsame as (Ha & Hb & Hacc).
    rewrite !neighbors_items_cons.
    assert (Edge.other (flip_closed e) name = Edge.other e' name) as ->.
    { unfold Edge.other. simpl. rewrite Ha, Hb. done. }
    assert (passes ao true (flip_closed e) ↔ passes ao true e') as Hp.
    { unfold passes. simpl. rewrite Hacc. tauto. }
    destruct (decide (name ∈ k' ∧ passes ao true e')) as [[? ?]|Hno].
    + rewrite decide_True; [done | by rewrite Hp].
    + rewrite decide_False; [done | by rewrite Hp].
  - rewrite !neighbors_items_cons. rewrite IH.
    destruct (dict_get k items) as [e0|]; [|done]. by case_decide.
Qed.

(** Toggling the closed flag of the edge between [a] and [b] changes what
    [get_edge] returns for this pair only, keeps the nodes and the order of
    the edge table, and does not change any neighbour query made with
    [allow_closed = True].  On a graph that satisfies the invariants, [b]
    is afterwards a neighbour of [a] under [allow_closed = False] exactly
    when the edge was closed before (and accessible, if only accessible
    edges are wanted). *)
Theorem toggle_closed_effect (g : Graph.t) (a b : string) (e : Edge.t) :
  Graph.get_edge g a b = Some e →
  let g' := Eff.state_after (toggle_edge flip_closed a b) g in
  Graph.get_edge g' a b = Some (flip_closed e) ∧
  Graph.nodes g' = Graph.nodes g ∧
  (Graph.edges g').*1 = (Graph.edges g).*1 ∧
  (∀ c d, frozenset2 c d ≠ frozenset2 a b → Graph.get_edge g' c d = Graph.get_edge g c d) ∧
  (∀ u ao, Graph.neighbors g' u ao true = Graph.neighbors g u ao true) ∧
  (graph_inv g → ∀ ao,
     b ∈ Graph.neighbors g' a ao false ↔
     Edge.closed e = true ∧ (ao = true → Edge.accessible e = true)).
Proof.
  intros Hget g'. subst g'. unfold Eff.state_after. rewrite toggle_edge_run, Hget. simpl.
  assert (Hkey : frozenset2 a b ∈ (Graph.edges g).*1).
  { apply dict_get_is_Some. unfold Graph.get_edge in Hget. by rewrite Hget. }
  assert (Hget' : Graph.get_edge
            (Graph.mk (Graph.nodes g)
               (dict_set (frozenset2 a b) (flip_closed e) (Graph.edges g))) a b =
          Some (flip_closed e)).
  { unfold Graph.get_edge. simpl. by rewrite dict_get_set, decide_True. }
  split; [done|]. split; [done|]. split; [by apply dict_set_keys|]. split; [|split].
  - intros c d Hne. unfold Graph.get_edge. simpl. by rewrite dict_get_set, decide_False.
  - intros u ao. unfold Graph.neighbors. simpl. rewrite neighbors_items_flip_closed.
    unfold Graph.get_edge in Hget. rewrite Hget. by rewrite decide_True.
  - intros Hinv ao.
    assert (Hinv' : graph_inv (Graph.mk (Graph.nodes g)
               (dict_set (frozenset2 a b) (flip_closed e) (Graph.edges g)))).
    { pose proof (toggle_edge_inv flip_closed a b g) as Ht.
      unfold Eff.state_after in Ht. rewrite toggle_edge_run, Hget in Ht. simpl in Ht.
      apply Ht; [|done]. by intros []. }
    rewrite neighbors_joins by done. split.
    + intros (e' & Hin & Hj & [Hc Ha]).
      assert (Graph.get_edge
                (Graph.mk (Graph.nodes g)
                   (dict_set (frozenset2 a b) (flip_closed e) (Graph.edges g))) a b =
              Some e') as Hget''.
      { by apply get_edge_iff_joins. }
      rewrite Hget' in Hget''. injection Hget'' as <-. simpl in *.
      split; [|done]. destruct (Edge.closed e); [done|]. simpl in Hc. by specialize (Hc eq_refl).
    + intros [Hc Ha]. exists (flip_closed e).
      apply (get_edge_iff_joins _ a b (flip_closed e) Hinv') in Hget' as [Hin Hj].
      split; [done|]. split; [done|]. split; simpl; [by rewrite Hc | done].
Qed.

Lemma toggle_closed_effect_witness :
  graph_inv scenario_A ∧
  Graph.get_edge scenario_A "Y" "Z" = Some (Edge.mk "Y" "Z" 1 1 true false) ∧
  "Z" ∉ Graph.neighbors scenario_B "Y" false false.
Proof.
  assert (Hinv : graph_inv scenario_A) by by_evaluation.
  assert (Hget : Graph.get_edge scenario_A "Y" "Z" = Some (Edge.mk "Y" "Z" 1 1 true false))
    by (vm_compute; reflexivity).
  split; [exact Hinv|]. split; [exact Hget|].
  pose proof (toggle_closed_effect scenario_A "Y" "Z" _ Hget) as H. cbv zeta in H.
  destruct H as (_ & _ & _ & _ & _ & H). intros Hin.
  apply (H Hinv false) in Hin as [Hc _]. simpl in Hc. discriminate Hc.
Defined.

(** ** Colours and filters *)

(** On a graph that satisfies the invariants, an edge that a neighbour query
    with [allow_closed = False] follows is never drawn in the colour of
    closed edges, and with [accessible_only] it is drawn in the regular
    colour; a closed edge is drawn as closed whether it is accessible or
    not. *)
Theorem edge_color_of_followed_edges (g : Graph.t) (u v : string) (ao : bool) :
  graph_inv g → v ∈ Graph.neighbors g u ao false →
  ∃ e, Graph.get_edge g u v = Some e ∧
       edge_color e ≠ COLOR_CLOSED ∧
       (ao = true → edge_color e = COLOR_REGULAR) ∧
       ∀ e', Edge.closed e' = true → edge_color e' = COLOR_CLOSED.
Proof.
  intros Hinv Hv. destruct (adjacent_open_link g ao u v Hinv Hv) as (e & Hget & Hc & Ha).
  exists e. split; [done|]. unfold edge_color. rewrite Hc. split; [|split].
  - by destruct (Edge.accessible e).
  - intros Hao. by rewrite (Ha Hao).
  - intros e' ->. done.
Qed.

Lemma edge_color_of_followed_edges_witness :
  ∃ e, Graph.get_edge scenario_C "X" "Y" = Some e ∧ edge_color e = COLOR_REGULAR.
Proof.
  assert (Hinv : graph_inv scenario_C) by by_evaluation.
  destruct (edge_color_of_followed_edges scenario_C "X" "Y" true Hinv)
    as (e & Hget & _ & Hreg & _).
  - vm_compute. left.
  - exists e. split; [exact Hget | by apply Hreg].
Defined.

(** ** The searches read the graph through [neighbors] only *)

Lemma bfs_loop_neighbors fuel g1 g2 goal ao ac visited q parent vo :
  (∀ u, Graph.neighbors g1 u ao ac = Graph.neighbors g2 u ao ac) →
  bfs_loop fuel g1 goal ao ac visited q parent vo =
  bfs_loop fuel g2 goal ao ac visited q parent vo.
Proof.
  intros Hnb. revert visited q parent vo.
  induction fuel as [|fuel IH]; intros visited q parent vo; simpl; [done|].
  destruct q as [|cur q]; [done|]. case_decide; [done|].
  rewrite (Hnb cur). destruct (bfs_expand _ _ _ _ _) as [[? ?] ?]. apply IH.
Qed.

Lemma dfs_loop_neighbors fuel g1 g2 goal ao ac visited stack vo :
  (∀ u, Graph.neighbors g1 u ao ac = Graph.neighbors g2 u ao ac) →
  dfs_loop fuel g1 goal ao ac visited stack vo =
  dfs_loop fuel g2 goal ao ac visited stack vo.
Proof.
  intros Hnb. revert visited stack vo.
  induction fuel as [|fuel IH]; intros visited stack vo; simpl; [done|].
  destruct stack as [|[cur path] stack]; [done|].
  case_decide; [apply IH|]. case_decide; [done|]. rewrite (Hnb cur). apply IH.
Qed.

(** ** [randomize_weights] *)

Lemma randomize_items_keys draws i items :
  (randomize_items draws i items).*1 = items.*1.
Proof.
  revert i. induction items as [|[k e] items IH]; intros i; [done|].
  csimpl. f_equal. apply IH.
Qed.

Lemma length_randomize_items draws i items :
  length (randomize_items draws i items) = length items.
Proof.
  revert i. induction items as [|[k e] items IH]; intros i; simpl; [done|].
  by rewrite IH.
Qed.

Lemma neighbors_items_randomize name ao ac draws i items :
  Graph.neighbors_items name ao ac (randomize_items draws i items) =
  Graph.neighbors_items name ao ac items.
Proof.
  revert i. induction items as [|[k e] items IH]; intros i; [done|].
  simpl randomize_items. rewrite !neighbors_items_cons, IH. done.
Qed.

(** Entry by entry, the key, the endpoints and the two flags stay, and the
    weights are the values drawn, in the order of the table: distance
    first, then time. *)
Lemma randomize_items_lookup draws i items j k e :
  randomize_items draws i items !! j = Some (k, e) ↔
  ∃ e0, items !! j = Some (k, e0) ∧
        e = set_weights e0 (draws (i + 2 * j)) (draws (S (i + 2 * j))).
Proof.
  revert i j. induction items as [|[k0 e0] items IH]; intros i j.
  - simpl. split; [done | by intros (? & ? & _)].
  - destruct j as [|j]; simpl.
    + rewrite Nat.add_0_r. split.
      * intros [= <- <-]. by exists e0.
      * intros (e1 & [= <- <-] & ->). done.
    + rewrite IH. replace (S (S i) + 2 * j) with (i + S (j + S (j + 0))) by lia. done.
Qed.

Lemma randomize_weights_run draws min_val max_val g g' :
  randomize_weights draws min_val max_val g = (inr tt, g') →
  g' = Graph.mk (Graph.nodes g) (randomize_items draws 0 (Graph.edges g)).
Proof.
  unfold randomize_weights. destruct (Graph.edges g) as [|ke es] eqn:Hes.
  - intros [= <-]. destruct g. simpl in *. by subst.
  - destruct (max_val <? min_val)%Z; [done|]. by intros [= <-].
Qed.

(** [randomize_weights(min_val, max_val)] raises (and changes nothing) only
    when there is an edge and the range is empty.  When it returns, the
    nodes, the keys and their order, and the endpoints and flags of every
    edge are as before and the structural invariants are kept; if the
    values drawn obey the contract of [randint], every distance and time is
    an integer between [min_val] and [max_val]. *)
Theorem randomize_weights_spec (draws : nat → Z) (min_val max_val : Z) (g : Graph.t) :
  (randomize_weights draws min_val max_val g = (inl EmptyRangeError, g) ↔
     Graph.edges g ≠ [] ∧ (max_val < min_val)%Z) ∧
  ∀ g', randomize_weights draws min_val max_val g = (inr tt, g') →
    Graph.nodes g' = Graph.nodes g ∧
    (Graph.edges g').*1 = (Graph.edges g).*1 ∧
    (∀ j k e', Graph.edges g' !! j = Some (k, e') →
       ∃ e, Graph.edges g !! j = Some (k, e) ∧
            Edge.a e' = Edge.a e ∧ Edge.b e' = Edge.b e ∧
            Edge.accessible e' = Edge.accessible e ∧ Edge.closed e' = Edge.closed e) ∧
    (graph_inv g → graph_inv g') ∧
    (randint_contract min_val max_val draws →
     ∀ k e', (k, e') ∈ Graph.edges g' →
       ∃ d t, Edge.distance e' = inject_Z d ∧ Edge.time e' = inject_Z t ∧
              (min_val <= d <= max_val)%Z ∧ (min_val <= t <= max_val)%Z).
Proof.
  unfold randomize_weights. split.
  - destruct (Graph.edges g) as [|ke es]; [split; [done | by intros [? _]]|].
    destruct (Z.ltb_spec max_val min_val).
    + split; [intros _; by split | done].
    + split; [done | intros [_ ?]; lia].
  - intros g' Hrun.
    assert (Hcase : g' = g ∧ Graph.edges g = [] ∨
                    g' = Graph.mk (Graph.nodes g) (randomize_items draws 0 (Graph.edges g))
                    ∧ (min_val <= max_val)%Z).
    { destruct (Graph.edges g) as [|ke es] eqn:Hes; [left; by injection Hrun as <-|].
      destruct (Z.ltb_spec max_val min_val); [done|]. right. by injection Hrun as <-. }
    clear Hrun. destruct Hcase as [[-> Hnil]|[-> Hrange]].
    { split; [done|]. split; [done|]. rewrite Hnil. split; [|split; [done|]].
      - intros j k e' Hj. done.
      - intros _ k e' Hin. by apply elem_of_nil in Hin. }
    simpl. split; [done|]. split; [apply randomize_items_keys|]. split; [|split].
    + intros j k e' Hj. apply randomize_items_lookup in Hj as (e & He & ->).
      by exists e.
    + intros [Hnd Hall]. split; simpl; [by rewrite randomize_items_keys|].
      apply Forall_forall. intros [k e'] Hin.
      apply list_elem_of_lookup in Hin as [j Hj].
      apply randomize_items_lookup in Hj as (e & He & ->).
      rewrite Forall_forall in Hall. apply (Hall (k, e)). by eapply list_elem_of_lookup_2.
    + intros Hcontract k e' Hin. apply list_elem_of_lookup in Hin as [j Hj].
      apply randomize_items_lookup in Hj as (e & He & ->).
      eexists _, _. split; [done|]. split; [done|]. split; apply Hcontract.
Qed.

Lemma randomize_weights_spec_witness :
  ∃ g', randomize_weights (λ _, 7%Z) 1 200 triangle = (inr tt, g') ∧ graph_inv g' ∧
        ∀ k e', (k, e') ∈ Graph.edges g' →
          ∃ d t, Edge.distance e' = inject_Z d ∧ Edge.time e' = inject_Z t ∧
                 (1 <= d <= 200)%Z ∧ (1 <= t <= 200)%Z.
Proof.
  eexists. split; [vm_compute; reflexivity|].
  destruct (proj2 (randomize_weights_spec (λ _, 7%Z) 1 200 triangle) _ eq_refl)
    as (_ & _ & _ & Hinv & Hrange).
  split.
  - apply Hinv. by_evaluation.
  - apply Hrange. intros i. simpl. lia.
Defined.

(** Neighbour queries and both searches return after [randomize_weights]
    what they returned before it, whatever values were drawn. *)
Theorem randomize_weights_keeps_searches (draws : nat → Z) (min_val max_val : Z)
    (g g' : Graph.t) :
  randomize_weights draws min_val max_val g = (inr tt, g') →
  (∀ u ao ac, Graph.neighbors g' u ao ac = Graph.neighbors g u ao ac) ∧
  (∀ start goal ao ac,
     bfs g' start goal ao ac = bfs g start goal ao ac ∧
     dfs g' start goal ao ac = dfs g start goal ao ac).
Proof.
  intros Hrun. apply randomize_weights_run in Hrun as ->.
  assert (Hnb : ∀ u ao ac,
    Graph.neighbors (Graph.mk (Graph.nodes g) (randomize_items draws 0 (Graph.edges g)))
      u ao ac = Graph.neighbors g u ao ac).
  { intros u ao ac. apply neighbors_items_randomize. }
  assert (Hlen : length (Graph.edges
             (Graph.mk (Graph.nodes g) (randomize_items draws 0 (Graph.edges g)))) =
                 length (Graph.edges g)).
  { apply length_randomize_items. }
  split; [done|]. intros start goal ao ac. split.
  - unfold bfs, bfs_fuel. rewrite Hlen. by apply bfs_loop_neighbors.
  - unfold dfs, dfs_fuel. rewrite Hlen. by apply dfs_loop_neighbors.
Qed.

Lemma randomize_weights_keeps_searches_witness :
  ∃ g', randomize_weights (λ i, Z.of_nat i) 0 10 triangle = (inr tt, g') ∧
        bfs g' "A" "D" false false = bfs triangle "A" "D" false false.
Proof.
  eexists. split; [vm_compute; reflexivity|].
  apply (proj2 (randomize_weights_keeps_searches (λ i, Z.of_nat i) 0 10 triangle _ eq_refl)).
Defined.

(** ** [add_node] *)

(** [add_node] raises on a name that is taken and leaves the graph as it
    is.  On a free name it stores the node under that name, touches
    neither the other nodes nor any edge, keeps the structural invariants,
    and changes the answer of no neighbour query and of no search. *)
Theorem add_node_spec (g : Graph.t) (name : string) (x y : Z) :
  (is_Some (Graph.nodes g !! name) →
     Graph.add_node name x y g = (inl DuplicateNameError, g)) ∧
  (Graph.nodes g !! name = None →
     ∃ g', Graph.add_node name x y g = (inr tt, g') ∧
           Graph.nodes g' !! name = Some (Node.mk name x y) ∧
           (∀ n, n ≠ name → Graph.nodes g' !! n = Graph.nodes g !! n) ∧
           Graph.edges g' = Graph.edges g ∧
           (graph_inv g → graph_inv g') ∧
           (∀ u ao ac, Graph.neighbors g' u ao ac = Graph.neighbors g u ao ac) ∧
           (∀ start goal ao ac,
              bfs g' start goal ao ac = bfs g start goal ao ac ∧
              dfs g' start goal ao ac = dfs g start goal ao ac)).
Proof.
  split.
  - rewrite add_node_run. intros Htaken. apply has_node_spec in Htaken. by rewrite Htaken.
  - intros Hfree. pose proof (add_node_inv g name x y) as Hinv.
    unfold Eff.state_after in Hinv. rewrite add_node_run in *.
    apply has_node_false in Hfree. rewrite Hfree in *. simpl in Hinv.
    eexists. split; [done|]. simpl. split; [apply lookup_insert_eq|].
    split; [intros n Hne; by rewrite lookup_insert_ne|]. split; [done|].
    split; [done|]. split; [done|]. intros start goal ao ac. split.
    + unfold bfs, bfs_fuel. simpl. by apply bfs_loop_neighbors.
    + unfold dfs, dfs_fuel. simpl. by apply dfs_loop_neighbors.
Qed.

Lemma add_node_spec_witness :
  Graph.add_node "A" 9 9 triangle = (inl DuplicateNameError, triangle) ∧
  ∃ g', Graph.add_node "E" 9 9 triangle = (inr tt, g') ∧
        bfs g' "A" "D" false false = bfs triangle "A" "D" false false.
Proof.
  split.
  - apply (proj1 (add_node_spec triangle "A" 9 9)). by_evaluation.
  - destruct (proj2 (add_node_spec triangle "E" 9 9)) as (g' & Hrun & _ & _ & _ & _ & _ & Hs).
    + vm_compute. reflexivity.
    + exists g'. split; [exact Hrun | apply Hs].
Defined.

(** * Further properties of the searches *)

(** ** A path is found exactly when there is one *)

Lemma bfs_reachable g start goal ao ac :
  ((∃ p vo, bfs g start goal ao ac = Some (Some p, vo)) ↔
   (∃ p, walk (adjacent g ao ac) start p goal)) ∧
  ((∃ vo, bfs g start goal ao ac = Some (None, vo)) ↔
   ¬ (∃ p, walk (adjacent g ao ac) start p goal)).
Proof.
  destruct (bfs_correct g start goal ao ac) as ([[p|] vo] & Hr & Hpath); simpl in Hpath.
  - destruct Hpath as [Hw _]. split; split.
    + intros _. by exists p.
    + intros _. by exists p, vo.
    + intros [vo' Hvo']. congruence.
    + intros Hno. exfalso. apply Hno. by exists p.
  - split; split.
    + intros (p & vo' & Hp). congruence.
    + intros [p Hw]. by destruct (Hpath p).
    + intros _ [p Hw]. by destruct (Hpath p).
    + intros _. by exists vo.
Qed.

(** [bfs] returns a path exactly when some walk over neighbour links that
    pass the filters leads from the start to the goal; otherwise it returns
    no path (and never fails to return). *)
Theorem bfs_finds_path_iff_reachable (g : Graph.t) (start goal : string) (ao ac : bool) :
  ((∃ p vo, bfs g start goal ao ac = Some (Some p, vo)) ↔
   (∃ p, walk (adjacent g ao ac) start p goal)) ∧
  ((∃ vo, bfs g start goal ao ac = Some (None, vo)) ↔
   ¬ (∃ p, walk (adjacent g ao ac) start p goal)).
Proof. apply bfs_reachable. Qed.

Section DfsComplete.
Context (g : Graph.t) (goal : string) (ao ac : bool).

(** A set of names that is closed under neighbour links and does not hold
    the goal cannot be left by a walk. *)
Lemma closed_set_walk (visited : gset string) x p w :
  (∀ u v, u ∈ visited → adjacent g ao ac u v → v ∈ visited) →
  x ∈ visited → walk (adjacent g ao ac) x p w → w ∈ visited.
Proof. intros Hclosed Hx. induction 1; eauto. Qed.

(** When the loop ends without a path, no walk leads to the goal from a
    visited name or from the node of a stack entry, provided that the goal
    is not visited and the neighbours of the visited names are visited or
    on the stack. *)
Lemma dfs_loop_no_path fuel :
  ∀ visited stack vo vo',
    goal ∉ visited →
    (∀ u w, u ∈ visited → adjacent g ao ac u w → w ∈ visited ∨ w ∈ stack.*1) →
    dfs_loop fuel g goal ao ac visited stack vo = Some (None, vo') →
    ∀ x, x ∈ visited ∨ x ∈ stack.*1 →
      ∀ p w, walk (adjacent g ao ac) x p w → w ≠ goal.
Proof.
  induction fuel as [|fuel IH]; intros visited stack vo vo' Hg Hcl Hr x Hx p w Hw; [done|].
  destruct stack as [|[cur path] stack].
  - assert (Hclosed : ∀ u v, u ∈ visited → adjacent g ao ac u v → v ∈ visited).
    { intros u v Hu Huv. destruct (Hcl u v Hu Huv) as [?|Hin]; [done|].
      by apply elem_of_nil in Hin. }
    destruct Hx as [Hx|Hx]; [|by apply elem_of_nil in Hx].
    intros ->. apply Hg. by eapply closed_set_walk.
  - rewrite fmap_cons in Hcl, Hx. simpl in Hcl, Hx.
    destruct (decide (cur ∈ visited)) as [Hv|Hv].
    + rewrite dfs_loop_skip in Hr by done.
      apply (IH visited stack vo vo' Hg) with (x := x) (p := p); [|done| |done].
      * intros u v Hu Huv. destruct (Hcl u v Hu Huv) as [?|Hin]; [by left|].
        apply elem_of_cons in Hin as [->|?]; auto.
      * destruct Hx as [?|Hin]; [by left|].
        apply elem_of_cons in Hin as [->|?]; auto.
    + rewrite dfs_loop_visit in Hr by done. case_decide as Hgoal; [done|].
      assert (Hpush : ∀ v, v ∈ stack.*1 ∨ adjacent g ao ac cur v →
        v ∈ {[cur]} ∪ visited ∨
        v ∈ (reverse (extend path <$>
               filter (λ nb, nb ∉ {[cur]} ∪ visited)
                 (sort_desc (Graph.neighbors g cur ao ac))) ++ stack).*1).
      { intros v Hvs. destruct (decide (v ∈ {[cur]} ∪ visited)) as [?|Hnv]; [by left|].
        right. rewrite fmap_app, elem_of_app. destruct Hvs as [?|Hadj]; [by right|].
        left. rewrite fmap_reverse, elem_of_reverse, <- list_fmap_compose.
        apply list_elem_of_fmap. exists v. split; [done|].
        apply list_elem_of_filter. split; [done|]. by apply elem_of_sort_desc. }
      refine (IH _ _ _ vo' _ _ Hr x _ p w Hw); [set_solver | |].
      * intros u v Hu Huv. apply elem_of_union in Hu as [Hu|Hu].
        -- apply elem_of_singleton in Hu as ->. apply Hpush. by right.
        -- destruct (Hcl u v Hu Huv) as [?|Hin]; [left; set_solver|].
           apply elem_of_cons in Hin as [->|?]; [left; set_solver|]. apply Hpush. by left.
      * destruct Hx as [?|Hin]; [left; set_solver|].
        apply elem_of_cons in Hin as [->|?]; [left; set_solver|]. apply Hpush. by left.
Qed.
End DfsComplete.

Lemma dfs_reachable g start goal ao ac :
  (∃ p vo, dfs g start goal ao ac = Some (Some p, vo)) ↔
  (∃ p, walk (adjacent g ao ac) start p goal).
Proof.
  destruct (dfs_returns g start goal ao ac) as [[[p|] vo] Hr].
  - split; [|intros _; by exists p, vo]. intros _. exists p.
    by apply (dfs_sound g start goal ao ac (Some p, vo)).
  - split; [intros (p & vo' & Hp); congruence|]. intros [p Hw]. exfalso.
    refine (dfs_loop_no_path g goal ao ac _ ∅ [(start, [start])] [] vo _ _ Hr
              start _ p goal Hw eq_refl).
    + set_solver.
    + intros u w Hu. set_solver.
    + right. left.
Qed.

(** [dfs] returns a path exactly when some walk over neighbour links that
    pass the filters leads from the start to the goal, so it finds a path
    in the same cases as [bfs]. *)
Theorem dfs_finds_path_iff_reachable (g : Graph.t) (start goal : string) (ao ac : bool) :
  ((∃ p vo, dfs g start goal ao ac = Some (Some p, vo)) ↔
   (∃ p, walk (adjacent g ao ac) start p goal)) ∧
  ((∃ p vo, dfs g start goal ao ac = Some (Some p, vo)) ↔
   (∃ p vo, bfs g start goal ao ac = Some (Some p, vo))).
Proof.
  split; [apply dfs_reachable|]. rewrite dfs_reachable.
  symmetry. apply (bfs_reachable g start goal ao ac).
Qed.

(** ** Walks backwards *)

Lemma walk_cons R u v p w : R u v → walk R v p w → walk R u (u :: p) w.
Proof.
  intros Huv. induction 1 as [|p x w Hw IH Hxw].
  - apply (walk_step R u [u] u); [constructor | done].
  - rewrite app_comm_cons. by apply (walk_step R u (u :: p) x).
Qed.

Lemma walk_reverse R u p v :
  (∀ x y, R x y → R y x) → walk R u p v → walk R v (reverse p) u.
Proof.
  intros Hsym. induction 1 as [|p x w Hw IH Hxw].
  - constructor.
  - rewrite reverse_snoc. apply (walk_cons R w x); auto.
Qed.

Lemma hops_reverse p : hops (reverse p) = hops p.
Proof. unfold hops. by rewrite length_reverse. Qed.

(** On a graph that satisfies the invariants the fewest-hop distance is
    the same in both directions: if [bfs] finds a path from [start] to
    [goal], it finds one from [goal] to [start] with the same number of
    hops. *)
Theorem bfs_hops_symmetric (g : Graph.t) (start goal : string) (ao ac : bool)
    (p vo : list string) :
  graph_inv g →
  bfs g start goal ao ac = Some (Some p, vo) →
  ∃ p' vo', bfs g goal start ao ac = Some (Some p', vo') ∧ hops p' = hops p.
Proof.
  intros Hinv Hb.
  assert (Hsym : ∀ x y, adjacent g ao ac x y → adjacent g ao ac y x).
  { intros x y. by apply adjacent_sym. }
  destruct (bfs_correct g start goal ao ac) as (r & Hr & Hpath).
  rewrite Hb in Hr. injection Hr as <-. simpl in Hpath. destruct Hpath as [Hw Hmin].
  destruct (bfs_correct g goal start ao ac) as ([[p'|] vo'] & Hr' & Hpath'); simpl in Hpath'.
  - destruct Hpath' as [Hw' Hmin']. exists p', vo'. split; [done|].
    pose proof (Hmin' _ (walk_reverse _ _ _ _ Hsym Hw)) as H1.
    pose proof (Hmin _ (walk_reverse _ _ _ _ Hsym Hw')) as H2.
    rewrite hops_reverse in H1, H2. lia.
  - exfalso. apply (Hpath' (reverse p)). by apply walk_reverse.
Qed.

Lemma bfs_hops_symmetric_witness :
  ∃ p' vo', bfs triangle "D" "A" false false = Some (Some p', vo') ∧
            hops p' = hops ["A"; "C"; "D"].
Proof.
  apply (bfs_hops_symmetric triangle "A" "D" false false ["A"; "C"; "D"]
           ["A"; "B"; "C"; "D"]); [by_evaluation | vm_compute; reflexivity].
Defined.

(** ** Relaxing the filters *)

(** If [bfs] finds a path under some filters, it finds one under any laxer
    filters, with at most as many hops: restricting a search to accessible
    or to open edges never shortens the route. *)
Theorem bfs_relaxed_filters (g : Graph.t) (start goal : string)
    (ao ac ao' ac' : bool) (p vo : list string) :
  (ao' = true → ao = true) → (ac = true → ac' = true) →
  bfs g start goal ao ac = Some (Some p, vo) →
  ∃ p' vo', bfs g start goal ao' ac' = Some (Some p', vo') ∧ hops p' ≤ hops p.
Proof.
  intros Hao Hac Hb.
  destruct (bfs_correct g start goal ao ac) as (r & Hr & Hpath).
  rewrite Hb in Hr. injection Hr as <-. simpl in Hpath. destruct Hpath as [Hw _].
  assert (Hw' : walk (adjacent g ao' ac') start p goal).
  { eapply walk_mono; [|exact Hw]. intros x y. unfold adjacent.
    intros Hy. eapply elem_of_sublist; [exact Hy|]. by apply neighbors_filter_sublist. }
  destruct (bfs_correct g start goal ao' ac') as ([[p'|] vo'] & Hr' & Hpath');
    simpl in Hpath'.
  - exists p', vo'. split; [done|]. by apply Hpath'.
  - by destruct (Hpath' p).
Qed.

Lemma bfs_relaxed_filters_witness :
  ∃ p' vo', bfs scenario_C "X" "Y" false true = Some (Some p', vo') ∧
            hops p' ≤ hops ["X"; "Y"].
Proof.
  apply (bfs_relaxed_filters scenario_C "X" "Y" true false false true ["X"; "Y"] ["X"; "Y"]);
    [done | done | vm_compute; reflexivity].
Defined.

(** ** The visited order and the shape of the path *)

(** The first entry of an order that is reached in order is the start. *)
Lemma reached_in_order_head R start v l :
  reached_in_order R start (v :: l) → v = start.
Proof.
  intros Hl. destruct (Hl 0 v eq_refl) as [?|(j & u & Hj & _)]; [done | lia].
Qed.

Section DfsOrder.
Context (g : Graph.t) (goal : string) (ao ac : bool).

(** The depth-first loop visits no name twice and stops at the goal; the
    path of a stack entry repeats no name and, but for its last name, runs
    through visited names. *)
Lemma dfs_loop_order_facts fuel :
  ∀ visited stack vo r,
    NoDup vo → (∀ x, x ∈ vo ↔ x ∈ visited) → goal ∉ vo →
    (∀ n p, (n, p) ∈ stack →
       ∃ p', p = p' ++ [n] ∧ NoDup p' ∧ ∀ x, x ∈ p' → x ∈ visited) →
    dfs_loop fuel g goal ao ac visited stack vo = Some r →
    NoDup r.2 ∧ vo `prefix_of` r.2 ∧
    (∀ n p stack', stack = (n, p) :: stack' → n ∉ visited → vo ++ [n] `prefix_of` r.2) ∧
    match r.1 with
    | Some p => last r.2 = Some goal ∧ NoDup p ∧ ∀ x, x ∈ p → x ∈ r.2
    | None => goal ∉ r.2
    end.
Proof.
  induction fuel as [|fuel IH]; intros visited stack vo r Hnd Hvo Hg Hst Hr; [done|].
  destruct stack as [|[cur path] stack].
  { simpl in Hr. injection Hr as <-. simpl. by repeat split. }
  assert (Hst' : ∀ n p, (n, p) ∈ stack →
     ∃ p', p = p' ++ [n] ∧ NoDup p' ∧ ∀ x, x ∈ p' → x ∈ visited).
  { intros n p Hin. apply Hst. by right. }
  destruct (decide (cur ∈ visited)) as [Hv|Hv].
  { rewrite dfs_loop_skip in Hr by done.
    destruct (IH visited stack vo r Hnd Hvo Hg Hst' Hr) as (? & ? & _ & ?).
    repeat split; try done. intros n p stack' [= -> -> ->] Hn. done. }
  rewrite dfs_loop_visit in Hr by done.
  destruct (Hst cur path) as (p' & Hp' & Hndp & Hvis); [left|].
  assert (Hcur : cur ∉ vo) by by rewrite Hvo.
  assert (Hnd' : NoDup (vo ++ [cur])).
  { apply NoDup_app. split; [done|]. split; [|apply NoDup_singleton].
    intros x Hx Hx'. apply list_elem_of_singleton in Hx' as ->. done. }
  assert (Hndpath : NoDup path).
  { subst path. apply NoDup_app. split; [done|]. split; [|apply NoDup_singleton].
    intros x Hx Hx'. apply list_elem_of_singleton in Hx' as ->. by apply Hv, Hvis. }
  assert (Hpathvis : ∀ x, x ∈ path → x ∈ {[cur]} ∪ visited).
  { subst path. intros x Hx. apply elem_of_app in Hx as [Hx|Hx].
    - apply Hvis in Hx. set_solver.
    - apply list_elem_of_singleton in Hx. set_solver. }
  case_decide as Hgoal.
  { injection Hr as <-. simpl. split; [done|]. split; [by apply prefix_app_r|].
    split; [by intros n p stack' [= -> -> ->] _|].
    split; [by rewrite last_snoc, Hgoal|]. split; [done|].
    intros x Hx. apply Hpathvis in Hx. rewrite elem_of_app, Hvo, list_elem_of_singleton.
    set_solver. }
  apply IH in Hr as (Hndr & Hpre & _ & Hres).
  - split; [done|]. split.
    + etrans; [|exact Hpre]. by apply prefix_app_r.
    + split; [|done]. by intros n p stack' [= -> -> ->] _.
  - done.
  - intros x. rewrite elem_of_app, Hvo, list_elem_of_singleton. set_solver.
  - rewrite elem_of_app, list_elem_of_singleton. by intros [?|?].
  - intros n p. rewrite elem_of_app, elem_of_reverse, list_elem_of_fmap.
    intros [(nb & [= -> ->] & Hnb)|Hin].
    + exists path. by repeat split.
    + destruct (Hst' n p Hin) as (p0 & ? & ? & Hp0). exists p0.
      repeat split; try done. intros x Hx. apply Hp0 in Hx. set_solver.
Qed.
End DfsOrder.

Lemma dfs_order_facts g start goal ao ac r :
  dfs g start goal ao ac = Some r →
  NoDup r.2 ∧ [start] `prefix_of` r.2 ∧
  match r.1 with
  | Some p => last r.2 = Some goal ∧ NoDup p ∧ ∀ x, x ∈ p → x ∈ r.2
  | None => goal ∉ r.2
  end.
Proof.
  intros Hr. unfold dfs in Hr.
  apply dfs_loop_order_facts in Hr as (Hnd & _ & Hpre & Hres).
  - split; [done|]. split; [|done]. by apply (Hpre start [start] []).
  - apply NoDup_nil_2.
  - intros x. set_solver.
  - apply not_elem_of_nil.
  - intros n p Hin. apply list_elem_of_singleton in Hin as [= -> ->].
    exists []. split; [done|]. split; [apply NoDup_nil_2|]. intros x Hx.
    by apply elem_of_nil in Hx.
Qed.

(** Every name of the result of [dfs] is visited once, the first one
    visited is the start, and the search stops at the goal: when a path is
    returned the goal is the last name visited, the path repeats no name and
    runs through visited names only; when no path is returned the goal was
    not visited. *)
Theorem dfs_visited_order (g : Graph.t) (start goal : string) (ao ac : bool)
    (path : option (list string)) (vo : list string) :
  dfs g start goal ao ac = Some (path, vo) →
  NoDup vo ∧ head vo = Some start ∧
  match path with
  | Some p => last vo = Some goal ∧ NoDup p ∧ ∀ x, x ∈ p → x ∈ vo
  | None => goal ∉ vo
  end.
Proof.
  intros Hr. apply dfs_order_facts in Hr as (Hnd & [k Hk] & Hres). simpl in *.
  split; [done|]. split; [by rewrite Hk | done].
Qed.

Lemma dfs_visited_order_witness :
  NoDup ["A"; "B"; "C"; "D"] ∧ head ["A"; "B"; "C"; "D"] = Some "A" ∧
  last ["A"; "B"; "C"; "D"] = Some "D" ∧ NoDup ["A"; "B"; "C"; "D"] ∧
  ∀ x, x ∈ ["A"; "B"; "C"; "D"] → x ∈ ["A"; "B"; "C"; "D"].
Proof.
  apply (dfs_visited_order triangle "A" "D" false false
           (Some ["A"; "B"; "C"; "D"]) ["A"; "B"; "C"; "D"]).
  vm_compute. reflexivity.
Defined.

(** *** The breadth-first loop *)

Lemma bfs_expand_NoDup cur rest :
  ∀ (done_ : list string) visited parent q visited' parent' q',
    NoDup (done_ ++ q) → (∀ x, x ∈ done_ ++ q → x ∈ visited) →
    bfs_expand cur rest visited parent q = (visited', parent', q') →
    NoDup (done_ ++ q') ∧ (∀ x, x ∈ done_ ++ q' → x ∈ visited') ∧
    q `prefix_of` q'.
Proof.
  induction rest as [|nb rest IH]; intros done_ visited parent q visited' parent' q'
    Hnd Hvis Hexp; simpl in Hexp.
  - by injection Hexp as <- <- <-.
  - case_decide as Hnb; [by eapply IH|].
    apply (IH done_) in Hexp as (? & ? & Hpre).
    + split; [done|]. split; [done|]. etrans; [|exact Hpre]. by apply prefix_app_r.
    + rewrite app_assoc. apply NoDup_app. split; [done|]. split; [|apply NoDup_singleton].
      intros x Hx Hx'. apply list_elem_of_singleton in Hx' as ->. by apply Hnb, Hvis.
    + intros x. rewrite app_assoc, elem_of_app, list_elem_of_singleton.
      intros [Hx| ->]; [apply Hvis in Hx|]; set_solver.
Qed.

Lemma bfs_expand_parent cur rest (P : string → Prop) :
  ∀ visited parent q visited' parent' q',
    P cur → (∀ c u, parent !! c = Some (Some u) → P u) →
    bfs_expand cur rest visited parent q = (visited', parent', q') →
    ∀ c u, parent' !! c = Some (Some u) → P u.
Proof.
  induction rest as [|nb rest IH]; intros visited parent q visited' parent' q'
    Hcur Hpar Hexp; simpl in Hexp.
  - by injection Hexp as <- <- <-.
  - case_decide as Hnb; [by eapply IH|].
    eapply IH; [exact Hcur | | exact Hexp].
    intros c u. destruct (decide (c = nb)) as [->|Hne].
    + rewrite lookup_insert_eq. by intros [= <-].
    + rewrite lookup_insert_ne by done. apply Hpar.
Qed.

(** Every name that [build_path] adds is the name it starts from or the
    parent of some name. *)
Lemma build_path_elems fuel parent :
  ∀ n path res,
    build_path fuel parent n path = Some res →
    ∀ x, x ∈ res → x ∈ path ∨ n = Some x ∨ ∃ c, parent !! c = Some (Some x).
Proof.
  induction fuel as [|fuel IH]; intros n path res Hres x Hx.
  - destruct n; [done|]. simpl in Hres. injection Hres as <-. by left.
  - destruct n as [m|]; simpl in Hres; [|injection Hres as <-; by left].
    destruct (parent !! m) as [n'|] eqn:Hm; [|done].
    destruct (IH _ _ _ Hres x Hx) as [Hin|[->|?]].
    + apply elem_of_app in Hin as [?|Hin]; [by left|].
      apply list_elem_of_singleton in Hin as ->. right. by left.
    + right. right. by exists m.
    + by right; right.
Qed.

Section BfsOrder.
Context (g : Graph.t) (goal : string) (ao ac : bool).

Lemma bfs_loop_order_facts fuel :
  ∀ visited q parent vo r,
    NoDup (vo ++ q) → (∀ x, x ∈ vo ++ q → x ∈ visited) → goal ∉ vo →
    (∀ c u, parent !! c = Some (Some u) → u ∈ vo) →
    bfs_loop fuel g goal ao ac visited q parent vo = Some r →
    NoDup r.2 ∧ vo ++ take 1 q `prefix_of` r.2 ∧
    match r.1 with
    | Some p => last r.2 = Some goal ∧ ∀ x, x ∈ p → x ∈ r.2
    | None => goal ∉ r.2
    end.
Proof.
  induction fuel as [|fuel IH]; intros visited q parent vo r Hnd Hvis Hg Hpar Hr; [done|].
  destruct q as [|cur q]; simpl in Hr.
  { injection Hr as <-. simpl. rewrite app_nil_r in *. by repeat split. }
  assert (Hnd' : NoDup ((vo ++ [cur]) ++ q)) by by rewrite <- app_assoc.
  assert (Hvis' : ∀ x, x ∈ (vo ++ [cur]) ++ q → x ∈ visited).
  { intros x. rewrite <- app_assoc. apply Hvis. }
  case_decide as Hgoal.
  - destruct (build_path _ _ _ _) as [res|] eqn:Hres; [|done]. injection Hr as <-. simpl.
    split; [by apply NoDup_app in Hnd' as [? _]|]. split; [done|].
    split; [by rewrite last_snoc, Hgoal|].
    intros x Hx. rewrite elem_of_reverse in Hx.
    destruct (build_path_elems _ _ _ _ _ Hres x Hx) as [Hin|[[= ->]|(c & Hc)]].
    + by apply elem_of_nil in Hin.
    + apply elem_of_app. right. left.
    + apply elem_of_app. left. by eapply Hpar.
  - destruct (bfs_expand cur (Graph.neighbors g cur ao ac) visited parent q)
      as [[visited' parent'] q'] eqn:Hexp.
    destruct (bfs_expand_NoDup cur _ (vo ++ [cur]) _ _ _ _ _ _ Hnd' Hvis' Hexp)
      as (Hnd'' & Hvis'' & _).
    apply IH in Hr as (Hndr & Hpre & Hres); [|done|done| |].
    + split; [done|]. split; [|done]. simpl. etrans; [|exact Hpre]. by apply prefix_app_r.
    + rewrite elem_of_app, list_elem_of_singleton. by intros [?|?].
    + eapply (bfs_expand_parent cur _ (λ u, u ∈ vo ++ [cur])); [| |exact Hexp].
      * apply elem_of_app. right. left.
      * intros c u Hc. apply elem_of_app. left. by eapply Hpar.
Qed.

(** Under the invariant of the loop, the parent chain of a visited name
    lists names of depth 0, 1, 2, ... *)
Lemma build_path_depths start d pending visited q parent :
  bfs_inv (adjacent g ao ac) start goal d pending visited q parent →
  ∀ n v fuel path, v ∈ visited → d v = n → n < fuel →
    ∃ p, build_path fuel parent (Some v) path = Some (path ++ reverse p) ∧
         ∀ i x, p !! i = Some x → d x = i.
Proof.
  intros Hinv. pose proof Hinv as [(Hs & Hds & Hps) _ Htree _ _ _ _ _].
  induction n as [|n IH]; intros v fuel path Hv Hd Hfuel;
    (destruct fuel as [|fuel]; [lia|]); simpl.
  - destruct (decide (v = start)) as [->|Hne].
    + rewrite Hps, build_path_None. exists [start]. split; [done|].
      intros [|i] x Hx; [|done]. by injection Hx as <-.
    + destruct (Htree v Hv Hne) as (u & _ & _ & _ & Hdu). lia.
  - destruct (decide (v = start)) as [->|Hne]; [lia|].
    destruct (Htree v Hv Hne) as (u & -> & Hu & HR & Hdu).
    destruct (IH u fuel (path ++ [v]) Hu) as (p & Hp & Hdepth); [lia..|].
    assert (Hlen : length p = S n).
    { destruct (build_path_walk _ start goal d pending visited q parent
                  Hinv n u fuel (path ++ [v]) Hu) as (p0 & Hp0 & _ & Hl0);
        [lia..|].
      rewrite Hp in Hp0. injection Hp0 as Hp0. apply app_inv_head in Hp0.
      apply (f_equal reverse) in Hp0. rewrite !reverse_involutive in Hp0. by subst. }
    exists (p ++ [v]). rewrite Hp, reverse_snoc, <- app_assoc. split; [done|].
    intros i x Hx. destruct (decide (i < length p)) as [Hlt|Hge].
    + rewrite lookup_app_l in Hx by done. by apply Hdepth.
    + rewrite lookup_app_r in Hx by lia.
      apply list_lookup_singleton_Some in Hx as [? <-]. lia.
Qed.

(** A path returned by the breadth-first loop repeats no name. *)
Lemma bfs_loop_simple_path start fuel :
  ∀ d visited q parent vo p vo',
    bfs_inv (adjacent g ao ac) start goal d None visited q parent →
    bfs_loop fuel g goal ao ac visited q parent vo = Some (Some p, vo') →
    NoDup p.
Proof.
  induction fuel as [|fuel IH]; intros d visited q parent vo p vo' Hinv Hr; [done|].
  destruct q as [|cur q]; simpl in Hr; [done|].
  assert (Hcur : cur ∈ visited).
  { apply (bfs_frontier_visited _ _ _ _ _ _ _ _ Hinv). left. }
  case_decide as Hg.
  - destruct (build_path_depths start d None visited (cur :: q) parent Hinv
                (d cur) cur (size parent) [] Hcur eq_refl) as (p0 & Hp0 & Hdepth).
    { by apply (bfs_depth_bound _ _ _ _ _ _ _ _ Hinv). }
    rewrite Hp0 in Hr. injection Hr as <- <-. simpl. rewrite reverse_involutive.
    apply NoDup_alt. intros i j x Hi Hj.
    rewrite <- (Hdepth i x Hi). by apply Hdepth.
  - destruct (bfs_expand cur (Graph.neighbors g cur ao ac) visited parent q)
      as [[visited' parent'] q'] eqn:Hexp.
    destruct (bfs_inv_expand (adjacent g ao ac) start goal cur
                (Graph.neighbors g cur ao ac) d visited q parent visited' parent' q')
      as [d' Hinv']; [|done|].
    { by apply bfs_inv_pop. }
    eapply (IH d'); [|exact Hr].
    by apply (bfs_inv_round (adjacent g ao ac) start goal d' visited' cur).
Qed.
End BfsOrder.

Lemma bfs_order_facts g start goal ao ac r :
  bfs g start goal ao ac = Some r →
  NoDup r.2 ∧ [start] `prefix_of` r.2 ∧
  match r.1 with
  | Some p => last r.2 = Some goal ∧ NoDup p ∧ ∀ x, x ∈ p → x ∈ r.2
  | None => goal ∉ r.2
  end.
Proof.
  intros Hr. pose proof Hr as Hr'. unfold bfs in Hr.
  apply bfs_loop_order_facts in Hr as (Hnd & Hpre & Hres).
  - split; [done|]. split; [done|]. destruct r as [[p|] vo]; simpl in *; [|done].
    destruct Hres as [? ?]. split; [done|]. split; [|done].
    eapply (bfs_loop_simple_path g goal ao ac start); [apply bfs_inv_init | exact Hr'].
  - apply NoDup_singleton.
  - intros x Hx. apply list_elem_of_singleton in Hx. set_solver.
  - apply not_elem_of_nil.
  - intros c u Hc. apply lookup_singleton_Some in Hc as [_ ?]. done.
Qed.

(** Every name of the result of [bfs] is visited once, the first one
    visited is the start, and the search stops at the goal: when a path is
    returned the goal is the last name visited, the path repeats no name and
    runs through visited names only; when no path is returned the goal was
    not visited. *)
Theorem bfs_visited_order (g : Graph.t) (start goal : string) (ao ac : bool)
    (path : option (list string)) (vo : list string) :
  bfs g start goal ao ac = Some (path, vo) →
  NoDup vo ∧ head vo = Some start ∧
  match path with
  | Some p => last vo = Some goal ∧ NoDup p ∧ ∀ x, x ∈ p → x ∈ vo
  | None => goal ∉ vo
  end.
Proof.
  intros Hr. apply bfs_order_facts in Hr as (Hnd & [k Hk] & Hres). simpl in *.
  split; [done|]. split; [by rewrite Hk | done].
Qed.

Lemma bfs_visited_order_witness :
  NoDup ["X"; "Y"] ∧ head ["X"; "Y"] = Some "X" ∧ "Z" ∉ ["X"; "Y"].
Proof.
  apply (bfs_visited_order scenario_B "X" "Z" false false None ["X"; "Y"]).
  vm_compute. reflexivity.
Defined.

(** * Further properties of the hit tests *)

Section GeometryMore.
Import Geometry.
Local Open Scope Q_scope.

(** When [A] and [B] coincide every point of the line is [A]. *)
Lemma along_coincide P A B s :
  coincide A B →
  norm2 (vsub P (along A B s)) == norm2 (vsub P A).
Proof.
  intros [H1 H2]. unfold norm2, dot, vsub, along. simpl.
  assert (E1 : B.1 - A.1 == 0) by lra. assert (E2 : B.2 - A.2 == 0) by lra.
  rewrite E1, E2. ring.
Qed.

(** The point at [s] from [A] is the point at [1 - s] from [B]. *)
Lemma along_flip P A B s :
  norm2 (vsub P (along A B s)) == norm2 (vsub P (along B A (1 - s))).
Proof. unfold norm2, dot, vsub, along. simpl. ring. Qed.

(** A hit means that some point of the segment is within the threshold,
    whether the two ends coincide or not. *)
Lemma point_near_segment_some_point px py x1 y1 x2 y2 T :
  point_near_segment px py x1 y1 x2 y2 T = true ↔
  ∃ s, 0 <= s ∧ s <= 1 ∧
       norm2 (vsub (px, py) (along (x1, y1) (x2, y2) s)) <= T * T.
Proof.
  rewrite point_near_segment_hit_spec.
  destruct (Qeq_bool (x2 - x1) 0 && Qeq_bool (y2 - y1) 0) eqn:Htest.
  - apply coincide_test in Htest. unfold hit_spec. split.
    + intros [[_ Hhit]|[Hne _]]; [|done]. exists 0.
      split; [lra|]. split; [lra|]. by rewrite along_coincide.
    + intros (s & _ & _ & Hs). left. split; [done|].
      by rewrite <- (along_coincide (px, py) (x1, y1) (x2, y2) s).
  - apply hit_spec_some_point. rewrite <- coincide_test, Htest. done.
Qed.

Lemma sqr_le_mono (T T' : Q) : 0 <= T → T <= T' → T * T <= T' * T'.
Proof.
  intros H0 Hle. assert (0 <= (T' - T) * (T' + T)) by (apply Qmult_le_0_compat; lra).
  lra.
Qed.


End GeometryMore.

(** ** Which node a click selects *)

Lemma node_at_point_Some items x y name :
  node_at_point items x y = Some name →
  ∃ node, (name, node) ∈ items ∧ node_hit node x y.
Proof.
  induction items as [|[n node] items IH]; simpl; [done|].
  destruct (Z.leb_spec
              ((Node.x node - x) * (Node.x node - x) + (Node.y node - y) * (Node.y node - y))
              (NODE_RADIUS * NODE_RADIUS)) as [Hhit|Hmiss].
  - intros [= ->]. exists node. split; [left | done].
  - intros Hrest. destruct (IH Hrest) as (node' & ? & ?). exists node'. split; [by right | done].
Qed.

Lemma node_at_point_None items x y :
  node_at_point items x y = None ↔
  ∀ name node, (name, node) ∈ items → ¬ node_hit node x y.
Proof.
  induction items as [|[n node] items IH]; simpl.
  - split; [|done]. intros _ name node Hin. by apply elem_of_nil in Hin.
  - destruct (Z.leb_spec
                ((Node.x node - x) * (Node.x node - x) + (Node.y node - y) * (Node.y node - y))
                (NODE_RADIUS * NODE_RADIUS)) as [Hhit|Hmiss].
    + split; [done|]. intros Hno. exfalso. by apply (Hno n node); [left|].
    + split.
      * intros Hrest name node' Hin. apply elem_of_cons in Hin as [[= -> ->]|Hin].
        -- unfold node_hit. lia.
        -- by apply (proj1 IH Hrest name).
      * intros Hno. apply IH. intros name node' Hin. apply (Hno name). by right.
Qed.

(** Whatever the order in which the node table is iterated,
    [_node_at_point] returns a node whose circle contains the click, and
    [None] exactly when no circle does; when the circles that contain the
    click belong to one node, the answer does not depend on that order. *)
Theorem node_at_point_spec (g : Graph.t) (items : list (string * Node.t)) (x y : Z) :
  lists_nodes g items →
  (∀ name, node_at_point items x y = Some name →
     ∃ node, Graph.nodes g !! name = Some node ∧ node_hit node x y) ∧
  (node_at_point items x y = None ↔
     ∀ name node, Graph.nodes g !! name = Some node → ¬ node_hit node x y) ∧
  (∀ items', lists_nodes g items' →
     (∀ n1 n2 node1 node2,
        Graph.nodes g !! n1 = Some node1 → Graph.nodes g !! n2 = Some node2 →
        node_hit node1 x y → node_hit node2 x y → n1 = n2) →
     node_at_point items' x y = node_at_point items x y).
Proof.
  intros Hitems.
  assert (Hin : ∀ its, lists_nodes g its → ∀ name node,
            (name, node) ∈ its ↔ Graph.nodes g !! name = Some node).
  { intros its Hits name node. unfold lists_nodes in Hits. rewrite Hits.
    apply elem_of_map_to_list. }
  assert (Hsome : ∀ its, lists_nodes g its → ∀ name,
            node_at_point its x y = Some name →
            ∃ node, Graph.nodes g !! name = Some node ∧ node_hit node x y).
  { intros its Hits name Hname.
    destruct (node_at_point_Some _ _ _ _ Hname) as (node & Hn & Hhit).
    exists node. split; [by apply (Hin its) | done]. }
  assert (Hnone : ∀ its, lists_nodes g its →
            node_at_point its x y = None ↔
            ∀ name node, Graph.nodes g !! name = Some node → ¬ node_hit node x y).
  { intros its Hits. rewrite node_at_point_None. split.
    - intros Hno name node Hn. apply (Hno name). by apply (Hin its).
    - intros Hno name node Hn. apply (Hno name). by apply (Hin its). }
  split; [by apply Hsome|]. split; [by apply Hnone|].
  intros items' Hitems' Huniq.
  destruct (node_at_point items x y) as [name|] eqn:Hres.
  - destruct (Hsome items Hitems name Hres) as (node & Hn & Hhit).
    destruct (node_at_point items' x y) as [name'|] eqn:Hres'.
    + destruct (Hsome items' Hitems' name' Hres') as (node' & Hn' & Hhit').
      f_equal. by eapply Huniq.
    + exfalso. exact (proj1 (Hnone items' Hitems') Hres' name node Hn Hhit).
  - apply (Hnone items' Hitems'). by apply (Hnone items Hitems).
Qed.

Lemma node_at_point_spec_witness :
  ∃ node, Graph.nodes triangle !! "C" = Some node ∧ node_hit node 25 25.
Proof.
  assert (Hl : lists_nodes triangle (map_to_list (Graph.nodes triangle)))
    by (unfold lists_nodes; reflexivity).
  apply (proj1 (node_at_point_spec triangle _ 25 25 Hl) "C").
  vm_compute. reflexivity.
Defined.

(** ** Which edge a click selects *)

Lemma edge_at_point_items_spec nodes items x y :
  (∀ k e, (k, e) ∈ items → is_Some (nodes !! Edge.a e) ∧ is_Some (nodes !! Edge.b e)) →
  ∃ r, edge_at_point_items nodes items x y = Some r ∧
    match r with
    | Some (a, b, e) =>
        a = Edge.a e ∧ b = Edge.b e ∧
        ∃ i k, items !! i = Some (k, e) ∧
          edge_hit (Graph.mk nodes items) x y e ∧
          ∀ j k' e', j < i → items !! j = Some (k', e') →
            ¬ edge_hit (Graph.mk nodes items) x y e'
    | None => ∀ k e, (k, e) ∈ items → ¬ edge_hit (Graph.mk nodes items) x y e
    end.
Proof.
  unfold edge_hit. simpl. induction items as [|[k e] items IH]; intros Hnodes; simpl.
  - eexists. split; [done|]. intros k e Hin. by apply elem_of_nil in Hin.
  - destruct (Hnodes k e) as [[na Hna] [nb Hnb]]; [left|]. rewrite Hna, Hnb.
    destruct (Geometry.point_near_segment _ _ _ _ _ _ _) eqn:Hhit.
    + eexists. split; [done|]. split; [done|]. split; [done|]. exists 0, k.
      split; [done|]. split; [by exists na, nb|]. intros; lia.
    + destruct IH as (r & Hr0 & Hr); [intros k' e' Hin; apply (Hnodes k'); by right|].
      rewrite Hr0.
      assert (Hmiss : ¬ ∃ na0 nb0, nodes !! Edge.a e = Some na0 ∧ nodes !! Edge.b e = Some nb0 ∧
                Geometry.point_near_segment (inject_Z x) (inject_Z y)
                  (inject_Z (Node.x na0)) (inject_Z (Node.y na0))
                  (inject_Z (Node.x nb0)) (inject_Z (Node.y nb0)) 6 = true).
      { intros (na0 & nb0 & Ha0 & Hb0 & Hh). rewrite Hna in Ha0. rewrite Hnb in Hb0.
        injection Ha0 as <-. injection Hb0 as <-. congruence. }
      eexists. split; [done|]. destruct r as [[[a b] e0]|].
      * destruct Hr as (-> & -> & i & k0 & Hi & Hh & Hfirst). split; [done|]. split; [done|].
        exists (S i), k0. split; [done|]. split; [done|].
        intros [|j] k' e' Hj Hlook; simpl in Hlook.
        -- by injection Hlook as <- <-.
        -- apply (Hfirst j k' e'); [lia | done].
      * intros k' e' Hin. apply elem_of_cons in Hin as [[= -> ->]|Hin]; [done|].
        by apply (Hr k').
Qed.



(** ** A right click toggles the edge it hits *)

Lemma flip_first_hit_spec nodes items x y :
  NoDup items.*1 →
  (∀ k e, (k, e) ∈ items → k = frozenset2 (Edge.a e) (Edge.b e)) →
  match edge_at_point_items nodes items x y with
  | None => flip_first_hit nodes items x y = None
  | Some None => flip_first_hit nodes items x y = Some items
  | Some (Some (a, b, e)) =>
      (frozenset2 a b, e) ∈ items ∧
      flip_first_hit nodes items x y =
        Some (dict_set (frozenset2 a b) (flip_closed e) items)
  end.
Proof.
  induction items as [|[k e] items IH]; intros Hnd Hkey; simpl; [done|].
  destruct (nodes !! Edge.a e) as [na|]; [|done].
  destruct (nodes !! Edge.b e) as [nb|]; [|done].
  assert (Hk : k = frozenset2 (Edge.a e) (Edge.b e)) by (apply Hkey; left).
  destruct (Geometry.point_near_segment _ _ _ _ _ _ _).
  - rewrite <- Hk. split; [left|]. by rewrite decide_True.
  - rewrite fmap_cons, NoDup_cons in Hnd. destruct Hnd as [Hfresh Hnd].
    specialize (IH Hnd). destruct (edge_at_point_items nodes items x y) as [[[[a b] e0]|]|].
    + destruct IH as [Hin ->]; [intros k' e' Hin'; apply Hkey; by right|].
      split; [by right|]. simpl. rewrite decide_False; [done|].
      intros Heq. apply Hfresh. rewrite <- Heq. apply list_elem_of_fmap.
      by exists (frozenset2 a b, e0).
    + rewrite IH; [done|]. intros k' e' Hin'. apply Hkey. by right.
    + rewrite IH; [done|]. intros k' e' Hin'. apply Hkey. by right.
Qed.



(** * The search as the application runs it *)

(** ** The steps of the animation *)

Lemma path_edges_lookup p i :
  path_edges p !! i =
  match p !! i, p !! S i with
  | Some a, Some b => Some (path_edge a b)
  | _, _ => None
  end.
Proof.
  revert i. induction p as [|a p IH]; intros i; [done|].
  destruct p as [|b p]; [by destruct i|].
  destruct i as [|i]; [done|]. simpl path_edges. simpl lookup at 1. rewrite IH. done.
Qed.

Lemma length_path_edges p : length (path_edges p) = hops p.
Proof.
  unfold hops. induction p as [|a p IH]; [done|].
  destruct p as [|b p]; [done|]. simpl path_edges. simpl length in *. rewrite IH. lia.
Qed.

Lemma elem_of_path_edges p a b :
  path_edge a b ∈ path_edges p ↔ ∃ i, p !! i = Some a ∧ p !! S i = Some b.
Proof.
  rewrite list_elem_of_lookup. split; intros [i Hi]; exists i.
  - rewrite path_edges_lookup in Hi.
    destruct (p !! i), (p !! S i); try done. by injection Hi as -> ->.
  - rewrite path_edges_lookup. by destruct Hi as [-> ->].
Qed.

(** The animation shows the visited names one by one, in the order of the
    visit, and then the edges of the path one by one from the start on: as
    many steps as visited names plus hops. *)
Theorem animation_steps_spec (visited_order final_path : list string) :
  let steps := animation_steps visited_order final_path in
  length steps = length visited_order + hops final_path ∧
  (∀ i, i < length visited_order → steps !! i = visit_node <$> visited_order !! i) ∧
  (∀ i, steps !! (length visited_order + i) =
        match final_path !! i, final_path !! S i with
        | Some a, Some b => Some (path_edge a b)
        | _, _ => None
        end).
Proof.
  intros steps. subst steps. unfold animation_steps. split; [|split].
  - by rewrite length_app, length_fmap, length_path_edges.
  - intros i Hi. rewrite lookup_app_l by by rewrite length_fmap.
    apply list_lookup_fmap.
  - intros i. rewrite lookup_app_r by (rewrite length_fmap; lia).
    rewrite length_fmap. replace (length visited_order + i - length visited_order) with i by lia.
    apply path_edges_lookup.
Qed.

(** ** The names a search returns are nodes *)

Lemma adjacent_node g ao ac u v :
  graph_inv g → adjacent g ao ac u v → is_Some (Graph.nodes g !! v).
Proof.
  intros Hinv Hadj. apply elem_of_neighbors in Hadj as (k & e & Hin & _ & _ & ->).
  destruct (graph_inv_elem _ _ _ Hinv Hin) as (_ & _ & Ha & Hb).
  by destruct (other_endpoint e u) as [-> | ->].
Qed.

Lemma walk_elems R u p v x :
  walk R u p v → x ∈ p → x = u ∨ ∃ y, R y x.
Proof.
  induction 1 as [|p v w Hw IH HR]; intros Hx.
  - apply list_elem_of_singleton in Hx. by left.
  - apply elem_of_app in Hx as [Hx|Hx]; [auto|].
    apply list_elem_of_singleton in Hx as ->. right. by exists v.
Qed.

Lemma search_results_nodes g start goal ao ac r :
  graph_inv g → is_Some (Graph.nodes g !! start) →
  (∀ p, r.1 = Some p → walk (adjacent g ao ac) start p goal) →
  reached_in_order (adjacent g ao ac) start r.2 →
  (∀ x, x ∈ r.2 → is_Some (Graph.nodes g !! x)) ∧
  (∀ p, r.1 = Some p → ∀ x, x ∈ p → is_Some (Graph.nodes g !! x)).
Proof.
  intros Hinv Hstart Hpath Hvo. split.
  - intros x Hx. apply list_elem_of_lookup in Hx as [i Hi].
    destruct (Hvo i x Hi) as [->|(j & u & _ & _ & Hadj)]; [done|].
    by eapply adjacent_node.
  - intros p Hp x Hx. destruct (walk_elems _ _ _ _ x (Hpath p Hp) Hx) as [->|[y Hadj]];
      [done|]. by eapply adjacent_node.
Qed.

(** On a graph that satisfies the invariants, when the start is a node,
    every name in the visited order and in the path that [bfs] or [dfs]
    returns is a node of the graph. *)
Theorem search_results_are_nodes (g : Graph.t) (start goal : string) (ao ac : bool)
    (path : option (list string)) (vo : list string) :
  graph_inv g → is_Some (Graph.nodes g !! start) →
  ∀ search, search = bfs ∨ search = dfs →
    search g start goal ao ac = Some (path, vo) →
    (∀ x, x ∈ vo → is_Some (Graph.nodes g !! x)) ∧
    (∀ p, path = Some p → ∀ x, x ∈ p → is_Some (Graph.nodes g !! x)).
Proof.
  intros Hinv Hstart search [-> | ->] Hr.
  - apply (search_results_nodes g start goal ao ac (path, vo) Hinv Hstart).
    + intros p Hp. simpl in Hp. subst path.
      destruct (bfs_correct g start goal ao ac) as (r & Hr' & Hpath).
      rewrite Hr in Hr'. injection Hr' as <-. by destruct Hpath.
    + by apply (bfs_order g start goal ao ac (path, vo)).
  - apply (search_results_nodes g start goal ao ac (path, vo) Hinv Hstart);
      by apply (dfs_sound g start goal ao ac (path, vo)).
Qed.

Lemma search_results_are_nodes_witness :
  graph_inv triangle ∧ is_Some (Graph.nodes triangle !! "D").
Proof.
  assert (Hinv : graph_inv triangle) by by_evaluation.
  assert (Hstart : is_Some (Graph.nodes triangle !! "A")) by by_evaluation.
  assert (Hrun : dfs triangle "A" "D" false false =
                 Some (Some ["A"; "B"; "C"; "D"], ["A"; "B"; "C"; "D"]))
    by (vm_compute; reflexivity).
  split; [exact Hinv|].
  apply (proj1 (search_results_are_nodes triangle "A" "D" false false
                  (Some ["A"; "B"; "C"; "D"]) ["A"; "B"; "C"; "D"] Hinv Hstart dfs
                  (or_intror eq_refl) Hrun) "D").
  by_evaluation.
Defined.

(** ** [run_search] *)

Lemma hops_shown p : 0 < length p → (Z.of_nat (length p) - 1)%Z = Z.of_nat (hops p).
Proof. unfold hops. lia. Qed.

Lemma elem_of_animation_steps vo p :
  (∀ n, visit_node n ∈ animation_steps vo p ↔ n ∈ vo) ∧
  (∀ a b, path_edge a b ∈ animation_steps vo p ↔
          ∃ i, p !! i = Some a ∧ p !! S i = Some b).
Proof.
  unfold animation_steps. split.
  - intros n. rewrite elem_of_app, list_elem_of_fmap. split.
    + intros [(m & [= ->] & ?)|Hin]; [done|].
      apply list_elem_of_lookup in Hin as [i Hi]. rewrite path_edges_lookup in Hi.
      by destruct (p !! i), (p !! S i).
    + intros Hn. left. by exists n.
  - intros a b. rewrite elem_of_app, list_elem_of_fmap, elem_of_path_edges. split.
    + by intros [(m & ? & _)|?].
    + by right.
Qed.

(** On a graph that satisfies the invariants [run_search] always comes to
    one of its five outcomes.  It searches only when both names are nodes.
    It reports "no path" only when no walk over open edges (accessible ones
    under [accessible_only]) leads from the start to the goal.  When it
    reports a path, the hop count shown is the number of path-edge steps of
    the animation, every path-edge step goes over a stored edge that is not
    closed, every visit step is on a node of the graph, and with ["BFS"] no
    route has fewer hops. *)
Theorem run_search_spec (alg start goal : string) (ao : bool) (g : Graph.t) :
  graph_inv g →
  ∃ out, run_search alg start goal ao g = Some out ∧
    match out with
    | InvalidInput => start = "" ∨ goal = ""
    | InvalidStart => Graph.nodes g !! start = None
    | InvalidGoal => is_Some (Graph.nodes g !! start) ∧ Graph.nodes g !! goal = None
    | NoPath =>
        is_Some (Graph.nodes g !! start) ∧ is_Some (Graph.nodes g !! goal) ∧
        ¬ ∃ p, walk (adjacent g ao false) start p goal
    | Found shown steps =>
        is_Some (Graph.nodes g !! start) ∧ is_Some (Graph.nodes g !! goal) ∧
        ∃ p vo,
          steps = animation_steps vo p ∧
          walk (open_link g ao) start p goal ∧
          shown = Z.of_nat (hops p) ∧
          length steps = length vo + hops p ∧
          (∀ a b, path_edge a b ∈ steps → open_link g ao a b) ∧
          (∀ n, visit_node n ∈ steps → is_Some (Graph.nodes g !! n)) ∧
          (alg = "BFS" → ∀ p', walk (adjacent g ao false) start p' goal → hops p ≤ hops p')
    end.
Proof.
  intros Hinv. unfold run_search.
  destruct (bool_decide (start = "") || bool_decide (goal = "")) eqn:Hempty.
  { eexists. split; [done|]. simpl.
    apply orb_true_iff in Hempty as [H|H]; apply bool_decide_eq_true in H; auto. }
  destruct (Graph.has_node g start) eqn:Hstart; simpl.
  2:{ eexists. split; [done|]. simpl. by apply has_node_false. }
  destruct (Graph.has_node g goal) eqn:Hgoal; simpl.
  2:{ eexists. split; [done|]. simpl. split; [by apply has_node_spec | by apply has_node_false]. }
  apply has_node_spec in Hstart, Hgoal.
  set (search := if bool_decide (alg = "BFS") then bfs else dfs).
  assert (Hres : ∃ r, search g start goal ao false = Some r ∧
            match r.1 with
            | Some p => walk (adjacent g ao false) start p goal ∧
                (alg = "BFS" → ∀ p', walk (adjacent g ao false) start p' goal →
                   hops p ≤ hops p')
            | None => ¬ ∃ p, walk (adjacent g ao false) start p goal
            end ∧
            reached_in_order (adjacent g ao false) start r.2).
  { subst search. clear Hempty. destruct (bool_decide (alg = "BFS")) eqn:Halg.
    - destruct (bfs_correct g start goal ao false) as (r & Hr & Hpath).
      exists r. split; [done|]. split; [|by apply (bfs_order g start goal ao false)].
      destruct r as [[p|] vo]; simpl in *; [|by intros [p Hw]; destruct (Hpath p)].
      destruct Hpath as [Hw Hmin]. split; [done|]. by intros _.
    - destruct (dfs_returns g start goal ao false) as [r Hr].
      exists r. split; [done|].
      destruct (dfs_sound g start goal ao false r Hr) as [Hpath Hvo]. split; [|done].
      destruct r as [[p|] vo]; simpl in *.
      + split; [by apply Hpath|]. by apply bool_decide_eq_false in Halg.
      + rewrite <- dfs_reachable. intros (p & vo' & Hp). congruence. }
  destruct Hres as ([[p|] vo] & -> & Hpath & Hvo); simpl in *.
  - destruct Hpath as [Hw Hmin]. eexists. split; [done|]. simpl.
    split; [done|]. split; [done|]. exists p, vo.
    assert (Hopen : walk (open_link g ao) start p goal).
    { eapply walk_mono; [|exact Hw]. intros x y. by apply adjacent_open_link. }
    split; [done|]. split; [done|].
    split; [apply hops_shown; by eapply walk_length|].
    split; [unfold animation_steps; by rewrite length_app, length_fmap, length_path_edges|].
    split; [|split; [|done]].
    + intros a b Hab. apply elem_of_animation_steps in Hab as (i & Ha & Hb).
      apply walk_consecutive in Hopen as (_ & _ & Hcons). by apply (Hcons i).
    + intros n Hn. apply elem_of_animation_steps in Hn.
      by apply (search_results_nodes g start goal ao false (Some p, vo) Hinv Hstart);
        [intros p0 [= <-] | |].
  - eexists. split; [done|]. simpl. done.
Qed.

Lemma run_search_spec_witness :
  ∃ p vo, animation_steps ["X"; "Y"; "Z"] ["X"; "Y"; "Z"] = animation_steps vo p ∧
          walk (open_link scenario_A false) "X" p "Z" ∧ 2%Z = Z.of_nat (hops p).
Proof.
  assert (Hinv : graph_inv scenario_A) by by_evaluation.
  destruct (run_search_spec "BFS" "X" "Z" false scenario_A Hinv) as (out & Hout & Hspec).
  assert (Hrun : run_search "BFS" "X" "Z" false scenario_A =
                 Some (Found 2 (animation_steps ["X"; "Y"; "Z"] ["X"; "Y"; "Z"])))
    by (vm_compute; reflexivity).
  rewrite Hrun in Hout. injection Hout as <-.
  destruct Hspec as (_ & _ & p & vo & Hsteps & Hw & Hshown & _).
  exists p, vo. split; [exact Hsteps|]. split; [exact Hw | exact Hshown].
Defined.
